(** * tiedot, package binprot: DB management features of the client

    A shallow embedding of [binprot/client_db.go] and a verification of its
    specification.  The client applies structural operations (create, rename,
    truncate, drop, index, unindex, scrub) to every shard of a workspace, then
    asks the shard servers to reload their schema.

    The Go code runs in a state-and-error monad over a [World]: the shard
    directories on disk, the shard handles the client holds open, the client's
    schema cache and the log of every call made to a collaborator.  A Go
    [error] result that is returned at once ([if err != nil { return err }]) is
    the failure of the monad; a nil dereference or a division by zero is a
    panic. *)

From Stdlib Require Import ZArith String Ascii List Lia DecimalString.
From stdpp Require Import base gmap strings list sorting.

Local Open Scope string_scope.
Local Open Scope list_scope.
Local Open Scope Z_scope.
Local Open Scope stdpp_scope.

(** ** Data *)

(** A Go [error]: the message it carries. *)
Definition error := string.

(** A document value as [encoding/json] decodes it ([interface{}]); [VNil] is
    Go's nil.  Numbers are kept as integers. *)
#[warnings="-register-all"]
Inductive Value : Type :=
| VNil
| VBool (b : bool)
| VNum (n : Z)
| VStr (s : string)
| VList (vs : list Value)
| VMap (kvs : list (string * Value)).

(** One collection inside one shard store: its index paths and its documents. *)
Record Col := mkCol {
  col_indexes : list (list string);
  col_docs : list (Z * Value)
}.

(** One shard store, the directory [workspace/i]: collection name to
    collection. *)
Abbreviation DB := (gmap string Col).

(** Modelled from the spec: the Schema Cache ([binprot.Schema] is declared in
    another file of the package).  Section 3: collection name to collection
    id; collection id to the ordered sequence of index paths; collection id to
    the set of joined-path strings. *)
Record Schema := mkSchema {
  colNameLookup : gmap string Z;
  indexPaths : gmap Z (list (list string));
  indexPathsJoint : gmap Z (gset string)
}.

(** Opcode of a routed command: only the hash-table put is used here. *)
Inductive Opcode := C_HT_PUT.

(** The calls the client makes to its collaborators, as the log records them.
    [i] is the shard index a store handle was opened on. *)
Inductive Event : Type :=
| EvOpenDB (i : nat)
| EvClose (i : nat)
| EvCreate (i : nat) (name : string)
| EvRename (i : nat) (oldName newName : string)
| EvTruncate (i : nat) (name : string)
| EvDrop (i : nat) (name : string)
| EvBPIndex (i : nat) (name : string) (idxPath : list string)
| EvUnindex (i : nat) (name : string) (idxPath : list string)
| EvPing
| EvNotice (msg : string)
| EvNow
| EvReload
| EvApproxDocCount (colName : string)
| EvGetDocPage (colName : string) (page total : Z) (tolerant : bool)
| EvInsertRecovery (colID docID : Z) (doc : Value)
| EvSendCmd (shard : Z) (retry : bool) (op : Opcode) (params : list (list Z)).

(** The client and what it acts upon.  [disk] holds the shard directories
    [workspace/0 .. workspace/(N-1)] as the client's own store handles read
    and change them; [handles] the shard indices of the store handles opened
    and not yet closed; [log] the calls made so far, oldest first.  What the
    shard servers write on a routed command (a recovery insert, a hash-table
    put) is theirs to decide: the command is in the log, its effect is not
    replayed on [disk]. *)
Record World := mkWorld {
  id : Z;
  disk : list DB;
  handles : list nat;
  schema : Schema;
  log : list Event
}.

(** [client.nProcs]: the shard count, fixed when the workspace was created,
    one numbered directory per shard. *)
Definition nProcs (w : World) : nat := length (disk w).

Definition set_disk (d : list DB) (w : World) : World :=
  mkWorld (id w) d (handles w) (schema w) (log w).
Definition set_handles (h : list nat) (w : World) : World :=
  mkWorld (id w) (disk w) h (schema w) (log w).
Definition set_schema (s : Schema) (w : World) : World :=
  mkWorld (id w) (disk w) (handles w) s (log w).
Definition set_log (l : list Event) (w : World) : World :=
  mkWorld (id w) (disk w) (handles w) (schema w) l.

(** The collaborators, outside this file.  [fault n ev] lets the call [ev],
    made after [n] earlier calls, fail with an I/O error.  The shard servers
    read the shard directories: they decide which schema a reload yields, and
    which document count and which pages a scan of a collection returns.  The
    remaining fields are functions of other packages: [db.GetIn], [fmt.Sprint],
    [db.StrHash], [Schema.GetHTIDByPath], and the constant
    [db.INDEX_PATH_SEP]. *)
Record Collab := mkCollab {
  fault : nat -> Event -> option error;
  UnixNano : nat -> Z;
  srv_schema : nat -> list DB -> Schema;
  srv_docCount : list DB -> string -> Z;
  srv_docPage : list DB -> string -> Z -> Z -> bool -> list (Z * Value);
  GetIn : Value -> list string -> list Value;
  Sprint : Value -> string;
  StrHash : string -> Z;
  GetHTIDByPath : Schema -> string -> list string -> Z;
  INDEX_PATH_SEP : string
}.

(** ** The monad *)

Inductive Res (A : Type) : Type :=
| Ok (a : A)
| Fail (e : error)
| Panic.
Arguments Ok {A} a.
Arguments Fail {A} e.
Arguments Panic {A}.

Definition M (A : Type) : Type := World -> Res A * World.

Definition ret {A} (a : A) : M A := fun w => (Ok a, w).
Definition bind {A B} (m : M A) (k : A -> M B) : M B := fun w =>
  match m w with
  | (Ok a, w') => k a w'
  | (Fail e, w') => (Fail e, w')
  | (Panic, w') => (Panic, w')
  end.
Definition fail {A} (e : error) : M A := fun w => (Fail e, w).
Definition panic {A} : M A := fun w => (Panic, w).
Definition get : M World := fun w => (Ok w, w).
Definition modify (f : World -> World) : M unit := fun w => (Ok tt, f w).

#[global] Instance M_ret : MRet M := @ret.
#[global] Instance M_bind : MBind M := fun A B k m => bind m k.

(** [for _, x := range l { body }]. *)
Fixpoint forM_ {A} (l : list A) (body : A -> M unit) : M unit :=
  match l with
  | [] => ret tt
  | x :: l' => body x ;; forM_ l' body
  end.

(** [strconv.Itoa], [%d]. *)
Definition Itoa (z : Z) : string := NilZero.string_of_int (Z.to_int z).

(** [%v] of a slice of strings. *)
Definition show_path (p : list string) : string :=
  "[" +:+ String.concat " " p +:+ "]".

Section Client.

Variable E : Collab.

(** A call to a collaborator is logged; [tick] returns its number, the count
    of the calls made before it. *)
Definition tick (ev : Event) : M nat := fun w =>
  (Ok (length (log w)), set_log (log w ++ [ev]) w).

(** A call that can fail: the Go [error] it returns, an I/O fault that the
    environment injects or nil. *)
Definition io_err (ev : Event) : M (option error) :=
  n ← tick ev;
  ret (fault E n ev).

(** The same call where the caller returns the error at once; a call that
    fails has no effect.  The result is the number of the call. *)
Definition io (ev : Event) : M nat := fun w =>
  match fault E (length (log w)) ev with
  | Some e => (Fail e, set_log (log w ++ [ev]) w)
  | None => (Ok (length (log w)), set_log (log w ++ [ev]) w)
  end.

(** ** Shard Store (package db, a collaborator)

    Modelled from the spec: the primitives of section 6 ([open], [create],
    [rename], [truncate], [drop], [buildIndex], [removeIndex], [close], [use]),
    each [ok|error].  A primitive fails when what it names is absent
    (or, for a creation, already present) and then changes nothing. *)

Definition db_create (name : string) (db : DB) : error + DB :=
  match db !! name with
  | Some _ => inl ("Collection " +:+ name +:+ " already exists")
  | None => inr (<[name := mkCol [] []]> db)
  end.

Definition db_rename (oldName newName : string) (db : DB) : error + DB :=
  match db !! oldName with
  | None => inl ("Collection " +:+ oldName +:+ " does not exist")
  | Some c =>
      match db !! newName with
      | Some _ => inl ("Collection " +:+ newName +:+ " already exists")
      | None => inr (<[newName := c]> (delete oldName db))
      end
  end.

Definition db_truncate (name : string) (db : DB) : error + DB :=
  match db !! name with
  | None => inl ("Collection " +:+ name +:+ " does not exist")
  | Some c => inr (<[name := mkCol (col_indexes c) []]> db)
  end.

Definition db_drop (name : string) (db : DB) : error + DB :=
  match db !! name with
  | None => inl ("Collection " +:+ name +:+ " does not exist")
  | Some _ => inr (delete name db)
  end.

Definition col_index (name : string) (idxPath : list string) (db : DB) : error + DB :=
  match db !! name with
  | None => inl ("Collection " +:+ name +:+ " does not exist")
  | Some c =>
      if decide (idxPath ∈ col_indexes c)
      then inl ("Path " +:+ show_path idxPath +:+ " is already indexed")
      else inr (<[name := mkCol (col_indexes c ++ [idxPath]) (col_docs c)]> db)
  end.

Definition col_unindex (name : string) (idxPath : list string) (db : DB) : error + DB :=
  match db !! name with
  | None => inl ("Collection " +:+ name +:+ " does not exist")
  | Some c =>
      if decide (idxPath ∈ col_indexes c)
      then inr (<[name := mkCol (filter (λ p, p ≠ idxPath) (col_indexes c)) (col_docs c)]> db)
      else inl ("Path " +:+ show_path idxPath +:+ " is not indexed")
  end.

(** A primitive called on the store handle of shard [i]. *)
Definition store_op (i : nat) (ev : Event) (f : DB -> error + DB) : M unit :=
  io ev ;;
  w ← get;
  match disk w !! i with
  | None => panic
  | Some db =>
      match f db with
      | inl e => fail e
      | inr db' => modify (set_disk (<[i := db']> (disk w)))
      end
  end.

(** [db.OpenDB(path.Join(client.workspace, strconv.Itoa(i)))]: the handle is
    the shard index. *)
Definition OpenDB (i : nat) : M nat :=
  io (EvOpenDB i) ;;
  w ← get;
  match disk w !! i with
  | None => fail ("open " +:+ Itoa (Z.of_nat i) +:+ ": no such shard")
  | Some _ => modify (set_handles (handles w ++ [i])) ;; ret i
  end.

(** The handles without the one opened last on shard [i]. *)
Fixpoint remove_last (i : nat) (l : list nat) : list nat :=
  match l with
  | [] => []
  | j :: l' =>
      if decide (i ∈ l') then j :: remove_last i l'
      else if decide (i = j) then l' else j :: l'
  end.

Definition Close (clientDB : nat) : M unit :=
  io (EvClose clientDB) ;;
  w ← get;
  modify (set_handles (remove_last clientDB (handles w))).

Definition Create_db (clientDB : nat) (name : string) : M unit :=
  store_op clientDB (EvCreate clientDB name) (db_create name).
Definition Rename_db (clientDB : nat) (oldName newName : string) : M unit :=
  store_op clientDB (EvRename clientDB oldName newName) (db_rename oldName newName).
Definition Truncate_db (clientDB : nat) (name : string) : M unit :=
  store_op clientDB (EvTruncate clientDB name) (db_truncate name).
Definition Drop_db (clientDB : nat) (name : string) : M unit :=
  store_op clientDB (EvDrop clientDB name) (db_drop name).

(** [clientDB.Use(name)]: the collection, or nil when the shard has none of
    that name.  A lookup in the opened store, not a call that can fail. *)
Definition Use (clientDB : nat) (name : string) : M (option (nat * string)) :=
  w ← get;
  match disk w !! clientDB ≫= (.!! name) with
  | Some _ => ret (Some (clientDB, name))
  | None => ret None
  end.

(** [col.BPIndex(idxPath)] and [col.Unindex(idxPath)]: a nil [col] is
    dereferenced. *)
Definition BPIndex (col : option (nat * string)) (idxPath : list string) : M unit :=
  match col with
  | None => panic
  | Some (i, name) => store_op i (EvBPIndex i name idxPath) (col_index name idxPath)
  end.
Definition Unindex_col (col : option (nat * string)) (idxPath : list string) : M unit :=
  match col with
  | None => panic
  | Some (i, name) => store_op i (EvUnindex i name idxPath) (col_unindex name idxPath)
  end.

(** Modelled from the spec: [reqMaintAccess] (another file of the package).
    Section 4.1: it takes the maintenance lock, executes the closure, releases
    the lock and returns the closure's error verbatim.  With one thread of
    control the lock leaves no trace. *)
Definition reqMaintAccess (f : M unit) : M unit := f.

(** ** client_db.go *)

Definition forAllDBsDo (fun_ : nat -> M unit) : M unit :=
  w ← get;
  forM_ (seq 0 (nProcs w)) (λ i,
    clientDB ← OpenDB i;
    fun_ clientDB ;;
    Close clientDB).

(** Create a new collection. *)
Definition Create (colName : string) : M unit :=
  reqMaintAccess (forAllDBsDo (λ clientDB, Create_db clientDB colName)).

(** Rename a collection. *)
Definition Rename (oldName newName : string) : M unit :=
  reqMaintAccess (forAllDBsDo (λ clientDB, Rename_db clientDB oldName newName)).

(** Truncate a collection. *)
Definition Truncate (colName : string) : M unit :=
  reqMaintAccess (forAllDBsDo (λ clientDB, Truncate_db clientDB colName)).

(** ** Wire Client and document scan (other files of the package)

    Modelled from the spec, section 6: [ping], [reloadSchema], [sendToShard],
    [approxDocCount], [getDocPage], [insertRecovery].  They talk to the shard
    servers; what the servers answer is the environment's. *)

Definition Ping : M (option error) := io_err EvPing.

Definition Noticef (msg : string) : M unit := tick (EvNotice msg) ;; ret tt.

(** [time.Now().UnixNano()]. *)
Definition Now : M Z := n ← tick EvNow; ret (UnixNano E n).

(** [reloadSchema() -> ok|error], refreshes the Schema Cache wholesale. *)
Definition reloadServer : M unit :=
  n ← io EvReload;
  w ← get;
  modify (set_schema (srv_schema E n (disk w))).

Definition uint64 (z : Z) : Z := z mod 2 ^ 64.
Definition int64 (z : Z) : Z := (z + 2 ^ 63) mod 2 ^ 64 - 2 ^ 63.

Definition approxDocCount (colName : string) : M Z :=
  io (EvApproxDocCount colName) ;;
  w ← get;
  ret (uint64 (srv_docCount E (disk w) colName)).

Definition getDocPage (colName : string) (page total : Z) (tolerant : bool)
  : M (list (Z * Value)) :=
  io (EvGetDocPage colName page total tolerant) ;;
  w ← get;
  ret (srv_docPage E (disk w) colName page total tolerant).

Definition insertRecovery (colID docID : Z) (doc : Value) : M unit :=
  io (EvInsertRecovery colID docID doc) ;; ret tt.

Definition sendCmd (shard : Z) (retry : bool) (op : Opcode) (params : list (list Z))
  : M unit :=
  io (EvSendCmd shard retry op params) ;; ret tt.

(** Modelled from the spec: [Bint32] and [Buint64], the big-endian
    fixed-width fields of a command; a byte is a [Z] below 256. *)
Fixpoint be_bytes (n : nat) (x : Z) : list Z :=
  match n with
  | O => []
  | S n' => be_bytes n' (x / 256) ++ [x mod 256]
  end.
Definition Bint32 (x : Z) : list Z := be_bytes 4 (x mod 2 ^ 32).
Definition Buint64 (x : Z) : list Z := be_bytes 8 (x mod 2 ^ 64).

(** What the big-endian bytes stand for. *)
Definition be_value (bs : list Z) : Z := foldl (λ acc b, acc * 256 + b) 0 bs.

(** ** The Go library *)

Definition str_le (s1 s2 : string) : Prop := String.leb s1 s2 = true.
#[global] Instance str_le_dec s1 s2 : Decision (str_le s1 s2).
Proof. unfold str_le. apply _. Defined.

(** [sort.Strings]: increasing order, byte by byte. *)
Definition sort_Strings (l : list string) : list string := merge_sort str_le l.

(** [strings.Split(s, sep)]: the pieces of [s] between the occurrences of
    [sep], found from the left and not overlapping.  [skip] counts the bytes of
    a separator still to pass, [cur] is the piece being read.  With an empty
    [sep] Go cuts after every UTF-8 sequence, here after every byte. *)
Fixpoint split_go (sep : string) (skip : nat) (cur s : string) : list string :=
  match s with
  | EmptyString => [cur]
  | String c s' =>
      match skip with
      | S k => split_go sep k cur s'
      | O =>
          if String.prefix sep s
          then cur :: split_go sep (String.length sep - 1) "" s'
          else split_go sep 0 (cur +:+ String c "") s'
      end
  end.

Fixpoint explode (s : string) : list string :=
  match s with
  | EmptyString => []
  | String c s' => String c "" :: explode s'
  end.

Definition strings_Split (s sep : string) : list string :=
  if decide (sep = "") then explode s else split_go sep 0 "" s.

(** [for k := range m] over a Go map: every key once, in an order the language
    leaves open. *)
Definition range_keys {V} (m : gmap string V) : list string := (map_to_list m).*1.

(** [for page := uint64(0); page < total; page++]. *)
Definition pages (total : Z) : list Z := Z.of_nat <$> seq 0 (Z.to_nat total).

Definition is_nil (v : Value) : bool :=
  match v with VNil => true | _ => false end.

(** ** client_db.go, continued *)

(** Return all collection names sorted in alphabetical order. *)
Definition AllCols : M (list string) :=
  err ← Ping;
  w ← get;
  match err with
  | Some e =>
      Noticef ("Client " +:+ Itoa (id w) +:+
               ": failed to ping before returning collection names - " +:+ e)
  | None => ret tt
  end ;;
  w ← get;
  let names := foldl (λ names name, names ++ [name]) []
                 (range_keys (colNameLookup (schema w))) in
  ret (sort_Strings names).

(** Compact a collection and recover corrupted documents. *)
Definition Scrub (colName : string) : M unit :=
  reqMaintAccess (
    w ← get;
    match colNameLookup (schema w) !! colName with
    | None => fail "Collection does not exist"
    | Some colID =>
        let existingIndexes :=
          foldl (λ acc existingIndex, acc ++ [existingIndex]) []
            (default [] (indexPaths (schema w) !! colID)) in
        now ← Now;
        let tmpColName := "scrub-" +:+ colName +:+ "-" +:+ Itoa now in
        forAllDBsDo (λ clientDB,
          Create_db clientDB tmpColName ;;
          forM_ existingIndexes (λ existingIndex,
            col ← Use clientDB tmpColName;
            BPIndex col existingIndex)) ;;
        reloadServer ;;
        w ← get;
        match colNameLookup (schema w) !! tmpColName with
        | None => fail "TmpCol went missing?!"
        | Some tmpColID =>
            docCount ← approxDocCount colName;
            let total := uint64 (docCount / 10000 + 1) in
            forM_ (pages total) (λ page,
              docs ← getDocPage colName page total true;
              forM_ docs (λ '(docID, doc),
                insertRecovery tmpColID docID doc)) ;;
            forAllDBsDo (λ clientDB,
              Drop_db clientDB colName ;;
              Rename_db clientDB tmpColName colName) ;;
            reloadServer
        end
    end).

(** Drop a collection. *)
Definition Drop (colName : string) : M unit :=
  reqMaintAccess (
    w ← get;
    forM_ (seq 0 (nProcs w)) (λ i,
      clientDB ← OpenDB i;
      Drop_db clientDB colName ;;
      Close clientDB)).

(** Create an index. *)
Definition Index (colName : string) (idxPath : list string) : M unit :=
  reqMaintAccess (
    w ← get;
    forM_ (seq 0 (nProcs w)) (λ i,
      clientDB ← OpenDB i;
      col ← Use clientDB colName;
      match col with
      | None => fail "Collection does not exist"
      | Some _ =>
          col ← Use clientDB colName;
          BPIndex col idxPath ;;
          Close clientDB
      end) ;;
    reloadServer ;;
    w ← get;
    let newHTID := GetHTIDByPath E (schema w) colName idxPath in
    if decide (newHTID = -1) then fail "New hash table is missing?!"
    else
      let htIDBytes := Bint32 newHTID in
      docCount ← approxDocCount colName;
      let total := uint64 (docCount / 10000 + 1) in
      forM_ (pages total) (λ page,
        docs ← getDocPage colName page total true;
        forM_ docs (λ '(docID, doc),
          let docIDBytes := Buint64 docID in
          forM_ (GetIn E doc idxPath) (λ val,
            if is_nil val then ret tt
            else
              let htKey := uint64 (StrHash E (Sprint E val)) in
              let n := uint64 (Z.of_nat (nProcs w)) in
              if decide (n = 0) then panic
              else
                sendCmd (int64 (htKey mod n)) false C_HT_PUT
                  [htIDBytes; Buint64 htKey; docIDBytes])))).

(** Return all indexed paths. Index path segments are joint together, and
    results are sorted in alphabetical order. *)
Definition AllIndexesJointPaths (colName : string) : M (list string) :=
  err ← Ping;
  w ← get;
  match err with
  | Some e =>
      Noticef ("Client " +:+ Itoa (id w) +:+
               ": failed to ping before returning index paths - " +:+ e)
  | None => ret tt
  end ;;
  w ← get;
  match colNameLookup (schema w) !! colName with
  | None => fail ("Collection " +:+ colName +:+ " does not exist")
  | Some colID =>
      let paths := foldl (λ paths path, paths ++ [path]) []
                     (elements (default ∅ (indexPathsJoint (schema w) !! colID))) in
      ret (sort_Strings paths)
  end.

(** Return all indexed paths in a collection. Results are sorted in
    alphabetical order. *)
Definition AllIndexes (colName : string) : M (list (list string)) :=
  jointPath ← AllIndexesJointPaths colName;
  let paths := replicate (length jointPath) [] in
  ret (foldl (λ paths '(i, aPath),
               <[i := strings_Split aPath (INDEX_PATH_SEP E)]> paths)
         paths (imap pair jointPath)).

(** Remove an index. *)
Definition Unindex (colName : string) (idxPath : list string) : M unit :=
  reqMaintAccess (
    w ← get;
    forM_ (seq 0 (nProcs w)) (λ i,
      clientDB ← OpenDB i;
      col ← Use clientDB colName;
      match col with
      | None => ret tt
      | Some _ =>
          col ← Use clientDB colName;
          Unindex_col col idxPath ;;
          Close clientDB
      end)).

End Client.

Local Close Scope Z_scope.
Local Open Scope nat_scope.

(** * Vocabulary of the specification *)

(** The shard a store call is made on. *)
Definition ev_shard (ev : Event) : option nat :=
  match ev with
  | EvOpenDB i | EvClose i | EvCreate i _ | EvRename i _ _ | EvTruncate i _
  | EvDrop i _ | EvBPIndex i _ _ | EvUnindex i _ _ => Some i
  | _ => None
  end.

Definition on_shard (i : nat) (evs : list Event) : Prop :=
  Forall (λ ev, ev_shard ev = Some i) evs.

(** [w'] differs from [w] by calls on shard [i] and their effect on that
    shard's directory. *)
Definition touches_only (i : nat) (w w' : World) : Prop :=
  id w' = id w ∧ schema w' = schema w ∧
  length (disk w') = length (disk w) ∧
  (∀ j, j ≠ i → disk w' !! j = disk w !! j) ∧
  ∃ evs, log w' = log w ++ evs ∧ on_shard i evs.

(** A per-shard action, as [forAllDBsDo] takes one: it works on the store
    handle it is given. *)
Definition shard_local (fun_ : nat → M unit) : Prop :=
  ∀ i w r w', fun_ i w = (r, w') → touches_only i w w'.

Section Rounds.

Variable E : Collab.
Variable fun_ : nat → M unit.

(** One turn of the loop of [forAllDBsDo]. *)
Definition round (i : nat) : M unit :=
  clientDB ← OpenDB E i;
  fun_ clientDB ;;
  Close E clientDB.

(** [rounds_done i wi k wk]: from [wi], shards [i .. k-1] were opened, acted
    upon and closed without error, one after the other, leaving [wk]. *)
Inductive rounds_done (i : nat) (wi : World) : nat → World → Prop :=
| rounds_nil : rounds_done i wi i wi
| rounds_snoc k wk wk' :
    rounds_done i wi k wk →
    round k wk = (Ok tt, wk') →
    rounds_done i wi (S k) wk'.

(** The call that made shard [k]'s turn stop with [r]: the open, the action or
    the close, whichever failed first. *)
Definition failing_call (k : nat) (wk : World) (r : Res unit) (w' : World) : Prop :=
  (∃ e, OpenDB E k wk = (Fail e, w') ∧ r = Fail e ∧ disk w' = disk wk) ∨
  (∃ w1, OpenDB E k wk = (Ok k, w1) ∧ disk w1 = disk wk ∧
         fun_ k w1 = (r, w') ∧ r ≠ Ok tt) ∨
  (∃ w1 w2 e, OpenDB E k wk = (Ok k, w1) ∧ fun_ k w1 = (Ok tt, w2) ∧
              Close E k w2 = (Fail e, w') ∧ r = Fail e ∧ disk w' = disk w2).

(** The calls of a run: one block per completed shard, in index order, then the
    calls of the shard that failed. *)
Definition calls_in_order (k : nat) (evs : list Event) : Prop :=
  ∃ (blocks : list (list Event)) (rest : list Event),
    evs = concat blocks ++ rest ∧ length blocks = k ∧ on_shard k rest ∧
    ∀ i b, blocks !! i = Some b →
      ∃ mid, b = EvOpenDB i :: mid ++ [EvClose i] ∧ on_shard i mid.

(** What a run of [forAllDBsDo] from [w] that ends in [(r, w')] has done. *)
Definition applied_in_order (w : World) (r : Res unit) (w' : World) : Prop :=
  ∃ k wk,
    k ≤ nProcs w ∧ rounds_done 0 w k wk ∧
    ((r = Ok tt ∧ k = nProcs w ∧ w' = wk) ∨
     (k < nProcs w ∧ failing_call k wk r w')) ∧
    (∀ i, i < k → ∃ wi w1 w2 wi',
       rounds_done 0 w i wi ∧ OpenDB E i wi = (Ok i, w1) ∧
       fun_ i w1 = (Ok tt, w2) ∧ Close E i w2 = (Ok tt, wi') ∧
       disk w1 !! i = disk w !! i ∧ disk w' !! i = disk w2 !! i) ∧
    disk wk !! k = disk w !! k ∧
    (∀ i, k < i → disk w' !! i = disk w !! i) ∧
    ∃ evs, log w' = log w ++ evs ∧ calls_in_order k evs.

End Rounds.

(** ** The operations that go through [forAllDBsDo] *)

Section Actions.

Variable E : Collab.

(** [Scrub], lines 87-98: the action of its first uniform application. *)
Definition Scrub_create_action (tmpColName : string)
    (existingIndexes : list (list string)) (clientDB : nat) : M unit :=
  Create_db E clientDB tmpColName ;;
  forM_ existingIndexes (λ existingIndex,
    col ← Use clientDB tmpColName;
    BPIndex E col existingIndex).

(** [Scrub], lines 127-134: the action of its second uniform application. *)
Definition Scrub_swap_action (colName tmpColName : string) (clientDB : nat) : M unit :=
  Drop_db E clientDB colName ;;
  Rename_db E clientDB tmpColName colName.

(** The per-shard actions this file hands to [forAllDBsDo]. *)
Inductive uniform_action : (nat → M unit) → Prop :=
| act_Create colName :
    uniform_action (λ clientDB, Create_db E clientDB colName)
| act_Rename oldName newName :
    uniform_action (λ clientDB, Rename_db E clientDB oldName newName)
| act_Truncate colName :
    uniform_action (λ clientDB, Truncate_db E clientDB colName)
| act_Scrub_create tmpColName existingIndexes :
    uniform_action (Scrub_create_action tmpColName existingIndexes)
| act_Scrub_swap colName tmpColName :
    uniform_action (Scrub_swap_action colName tmpColName).

End Actions.

(** ** Index and Unindex, shard by shard *)

Definition no_faults (E : Collab) : Prop := ∀ n ev, fault E n ev = None.

(** Shard [i] of the workspace has a collection of that name. *)
Definition has_col (colName : string) (d : list DB) (i : nat) : Prop :=
  is_Some (d !! i ≫= (.!! colName)).

#[global] Instance has_col_dec colName d i : Decision (has_col colName d i).
Proof. unfold has_col. apply _. Defined.

(** A shard store after [idxPath] is removed from the indexes of [colName]. *)
Definition unindexed (colName : string) (idxPath : list string) (db : DB) : DB :=
  match db !! colName with
  | Some c => <[colName := mkCol (filter (λ p, p ≠ idxPath) (col_indexes c)) (col_docs c)]> db
  | None => db
  end.

(** The calls [Unindex] makes on shard [i] when nothing fails. *)
Definition Unindex_calls (colName : string) (idxPath : list string) (d : list DB)
    (i : nat) : list Event :=
  if decide (has_col colName d i)
  then [EvOpenDB i; EvUnindex i colName idxPath; EvClose i]
  else [EvOpenDB i].

Definition Unindex_all_calls (colName : string) (idxPath : list string) (d : list DB)
  : list Event :=
  seq 0 (length d) ≫= Unindex_calls colName idxPath d.

Section Turns.

Variable E : Collab.

(** [Unindex], lines 269-277: one turn of its loop. *)
Definition Unindex_turn (colName : string) (idxPath : list string) (i : nat) : M unit :=
  clientDB ← OpenDB E i;
  col ← Use clientDB colName;
  match col with
  | None => ret tt
  | Some _ =>
      col ← Use clientDB colName;
      Unindex_col E col idxPath ;;
      Close E clientDB
  end.

(** [Index], lines 183-191: one turn of its first loop. *)
Definition Index_turn (colName : string) (idxPath : list string) (i : nat) : M unit :=
  clientDB ← OpenDB E i;
  col ← Use clientDB colName;
  match col with
  | None => fail "Collection does not exist"
  | Some _ =>
      col ← Use clientDB colName;
      BPIndex E col idxPath ;;
      Close E clientDB
  end.

End Turns.

(** ** The phases of Index and Scrub *)

Section Phases.

Variable E : Collab.

(** [Index], lines 215-224: what is done with one document of a page. *)
Definition Index_doc (htIDBytes : list Z) (idxPath : list string) (n : Z)
    (d : Z * Value) : M unit :=
  let '(docID, doc) := d in
  let docIDBytes := Buint64 docID in
  forM_ (GetIn E doc idxPath) (λ val,
    if is_nil val then ret tt
    else
      let htKey := uint64 (StrHash E (Sprint E val)) in
      if decide (n = 0%Z) then panic
      else
        sendCmd E (int64 (htKey mod n)) false C_HT_PUT
          [htIDBytes; Buint64 htKey; docIDBytes]).

(** [Index], lines 204-226: the documents are put into the new index. *)
Definition Index_pages (colName : string) (idxPath : list string)
    (newHTID : Z) (n : Z) : M unit :=
  docCount ← approxDocCount E colName;
  let total := uint64 (docCount / 10000 + 1) in
  forM_ (pages total) (λ page,
    docs ← getDocPage E colName page total true;
    forM_ docs (Index_doc (Bint32 newHTID) idxPath n)).

(** [Index], lines 193-226: all that follows the loop over the shards. *)
Definition Index_reindex (colName : string) (idxPath : list string) : M unit :=
  reloadServer E ;;
  w ← get;
  let newHTID := GetHTIDByPath E (schema w) colName idxPath in
  if decide (newHTID = (-1)%Z) then fail "New hash table is missing?!"
  else Index_pages colName idxPath newHTID (uint64 (Z.of_nat (nProcs w))).

(** [Scrub], line 86. *)
Definition tmp_name (colName : string) (now : Z) : string :=
  "scrub-" +:+ colName +:+ "-" +:+ Itoa now.

(** [Scrub], lines 109-125: the documents are put into the temporary
    collection. *)
Definition Scrub_migrate (colName : string) (tmpColID : Z) : M unit :=
  docCount ← approxDocCount E colName;
  let total := uint64 (docCount / 10000 + 1) in
  forM_ (pages total) (λ page,
    docs ← getDocPage E colName page total true;
    forM_ docs (λ '(docID, doc), insertRecovery E tmpColID docID doc)).

(** [Scrub], lines 99-125: from the reload that follows the creation of the
    temporary collection to the last recovery insert. *)
Definition Scrub_reload_migrate (colName tmpColName : string) : M unit :=
  reloadServer E ;;
  w ← get;
  match colNameLookup (schema w) !! tmpColName with
  | None => fail "TmpCol went missing?!"
  | Some tmpColID => Scrub_migrate colName tmpColID
  end.

(** [Scrub], lines 126-140: the swap and the last reload. *)
Definition Scrub_swap (colName tmpColName : string) : M unit :=
  forAllDBsDo E (Scrub_swap_action E colName tmpColName) ;;
  reloadServer E.

End Phases.

(** ** Scrub, call by call *)

(** The calls of Scrub's create phase on shard [i]. *)
Definition Scrub_create_calls (tmpColName : string) (idxs : list (list string))
    (i : nat) : list Event :=
  [EvOpenDB i; EvCreate i tmpColName] ++ (EvBPIndex i tmpColName <$> idxs) ++ [EvClose i].

(** The calls of Scrub's swap phase on shard [i]. *)
Definition Scrub_swap_calls (colName tmpColName : string) (i : nat) : list Event :=
  [EvOpenDB i; EvDrop i colName; EvRename i tmpColName colName; EvClose i].

(** The create phase as section 4.3, step 4 words it: the temporary collection
    is created under one uniform application, then every index path under a
    uniform application of its own. *)
Definition Scrub_create_per_path (E : Collab) (tmpColName : string)
    (idxs : list (list string)) : M unit :=
  forAllDBsDo E (λ clientDB, Create_db E clientDB tmpColName) ;;
  forM_ idxs (λ existingIndex,
    forAllDBsDo E (λ clientDB,
      col ← Use clientDB tmpColName;
      BPIndex E col existingIndex)).

(** ** Routing and paging *)

Section Routing.

Variable E : Collab.

(** The hash under which a value is indexed. *)
Definition hash_of (val : Value) : Z := uint64 (StrHash E (Sprint E val)).

(** The shard a value is routed to, of [N] shards. *)
Definition route (N : nat) (val : Value) : Z := (hash_of val mod Z.of_nat N)%Z.

(** The hash-table put for one value of one document. *)
Definition put_cmd (N : nat) (htid docID : Z) (val : Value) : Event :=
  EvSendCmd (route N val) false C_HT_PUT
    [Bint32 htid; Buint64 (hash_of val); Buint64 docID].

(** The puts for one document: one for every leaf value that is not nil. *)
Definition doc_puts (N : nat) (htid : Z) (idxPath : list string) (d : Z * Value)
  : list Event :=
  put_cmd N htid d.1 <$> filter (λ val, is_nil val = false) (GetIn E d.2 idxPath).

(** The recovery insert for one document. *)
Definition doc_insert (tmpColID : Z) (d : Z * Value) : list Event :=
  [EvInsertRecovery tmpColID d.1 d.2].

Definition totalPages (docCount : Z) : Z := (docCount / 10000 + 1)%Z.

(** The documents of page [pg] of [total], as the scan serves them. *)
Definition page_docs (d : list DB) (colName : string) (total pg : Z) : list (Z * Value) :=
  srv_docPage E d colName pg total true.

(** A scan of the collection: page after page is fetched, and the calls
    [per_doc] are made for each of its documents. *)
Definition scan_calls (colName : string) (total : Z) (per_doc : Z * Value → list Event)
    (d : list DB) : list Event :=
  pages total ≫= λ pg,
    EvGetDocPage colName pg total true :: (page_docs d colName total pg ≫= per_doc).

End Routing.

(** Where a command goes and what it says of the value and the document. *)
Definition routed (ev : Event) : option (Z * list Z * list Z) :=
  match ev with
  | EvSendCmd shard _ _ [_; h; d] => Some (shard, h, d)
  | _ => None
  end.

(** The document a recovery insert is for. *)
Definition inserted_id (ev : Event) : option Z :=
  match ev with
  | EvInsertRecovery _ docID _ => Some docID
  | _ => None
  end.

(** Where the values of one document go. *)
Definition doc_routes (E : Collab) (N : nat) (idxPath : list string) (d : Z * Value)
  : list (Z * list Z * list Z) :=
  (λ val, (route E N val, Buint64 (hash_of E val), Buint64 d.1)) <$>
    filter (λ val, is_nil val = false) (GetIn E d.2 idxPath).

(** Where the values of all documents go, page after page. *)
Definition scan_routes (E : Collab) (N : nat) (colName : string) (idxPath : list string)
    (total : Z) (d : list DB) : list (Z * list Z * list Z) :=
  pages total ≫= λ pg, page_docs E d colName total pg ≫= doc_routes E N idxPath.

(** The calls made between two worlds. *)
Definition new_calls (w w' : World) : list Event := drop (length (log w)) (log w').

(** ** DumpDB: the backup of a workspace *)

(** The calls DumpDB makes outside the workspace: [os.MkdirAll(dir, perm)] and
    [clientDB.Dump(dest)]. *)
Inductive FsCall : Type :=
| FsMkdirAll (dir : string) (perm : Z)
| FsDump (clientDB : nat) (dest : string).

(** The destination of a backup: the directories made, what was dumped into
    which directory, and every call of the run in the order made, the calls to
    the shard stores among them. *)
Record Backup := mkBackup {
  bk_dirs : gset string;
  bk_dumps : gmap string DB;
  bk_trace : list (Event + FsCall)
}.

(** The collaborators of DumpDB besides those of the client.  [fs_fault n c]
    lets the call [c], made after [n] calls of the run, fail with an I/O
    error; [path_Join] is [path.Join]. *)
Record FsCollab := mkFsCollab {
  fs_fault : nat → FsCall → option error;
  path_Join : string → string → string
}.

(** The monad of the client, run beside a backup. *)
Definition MD (A : Type) : Type := World * Backup → Res A * (World * Backup).

Definition retD {A} (a : A) : MD A := λ s, (Ok a, s).
Definition bindD {A B} (m : MD A) (k : A → MD B) : MD B := λ s,
  match m s with
  | (Ok a, s') => k a s'
  | (Fail e, s') => (Fail e, s')
  | (Panic, s') => (Panic, s')
  end.
Definition getD : MD (World * Backup) := λ s, (Ok s, s).

Definition add_trace (t : list (Event + FsCall)) (b : Backup) : Backup :=
  mkBackup (bk_dirs b) (bk_dumps b) (bk_trace b ++ t).

(** A computation of the client: the calls it makes go to the trace too. *)
Definition liftD {A} (m : M A) : MD A := λ '(w, b),
  let '(r, w') := m w in (r, (w', add_trace (inl <$> new_calls w w') b)).

Fixpoint forMD_ {A} (l : list A) (body : A → MD unit) : MD unit :=
  match l with
  | [] => retD tt
  | x :: l' => bindD (body x) (λ _, forMD_ l' body)
  end.

(** [0700]. *)
Definition perm_0700 : Z := 448%Z.

Section DumpDB.

Variable E : Collab.
Variable F : FsCollab.

#[local] Instance MD_ret : MRet MD := @retD.
#[local] Instance MD_bind : MBind MD := λ A B k m, bindD m k.

(** A call outside the workspace: it is added to the trace; it fails on an
    I/O fault and then has no effect.  [effect] is what it does to the backup;
    it has none on a handle that is not open, which is a nil dereference. *)
Definition fs_call (c : FsCall) (effect : World → Backup → option Backup) : MD unit :=
  λ '(w, b),
    let b1 := add_trace [inr c] b in
    match fs_fault F (length (bk_trace b)) c with
    | Some e => (Fail e, (w, b1))
    | None =>
        match effect w b1 with
        | Some b2 => (Ok tt, (w, b2))
        | None => (Panic, (w, b1))
        end
    end.

(** [os.MkdirAll] of the Go library: it makes the directory, and is content
    with one that is there. *)
Definition MkdirAll (dir : string) (perm : Z) : MD unit :=
  fs_call (FsMkdirAll dir perm)
    (λ _ b, Some (mkBackup ({[dir]} ∪ bk_dirs b) (bk_dumps b) (bk_trace b))).

(** Modelled from the spec, section 6: [dump(destDir) -> ok|error], the copy
    of an open shard store into a directory.  The store is read only. *)
Definition Dump (clientDB : nat) (dest : string) : MD unit :=
  fs_call (FsDump clientDB dest)
    (λ w b, db ← disk w !! clientDB;
            Some (mkBackup (bk_dirs b) (<[dest := db]> (bk_dumps b)) (bk_trace b))).

(** Modelled from the spec: [reqMaintAccess], as for the other operations. *)
Definition reqMaintAccessD (f : MD unit) : MD unit := f.

(** Copy database into destination directory (for backup). *)
Definition DumpDB (destDir : string) : MD unit :=
  reqMaintAccessD (
    s ← getD;
    forMD_ (seq 0 (nProcs s.1)) (λ i,
      let destDirPerRank := path_Join F destDir (Itoa (Z.of_nat i)) in
      MkdirAll destDirPerRank perm_0700 ;;
      clientDB ← liftD (OpenDB E i);
      Dump clientDB destDirPerRank ;;
      liftD (Close E clientDB))).

End DumpDB.

(** ** Collaborators and workspaces to run the client on *)

Local Open Scope Z_scope.

Definition GetIn_field (doc : Value) (path : list string) : list Value :=
  match path, doc with
  | [k], VMap kvs => (filter (λ kv, kv.1 = k) kvs).*2
  | _, _ => []
  end.

Definition Sprint_plain (v : Value) : string :=
  match v with
  | VStr s => s
  | VNum n => Itoa n
  | _ => ""
  end.

(** A hash for the examples: the sum of the bytes. *)
Fixpoint byte_sum (s : string) : Z :=
  match s with
  | EmptyString => 0
  | String c s' => Z.of_nat (nat_of_ascii c) + byte_sum s'
  end.

(** A schema the servers may load: the collections of shard 0, numbered in
    the order of their names. *)
Definition schema_of_disk (d : list DB) : Schema :=
  let db : DB := default ∅ (d !! 0%nat) in
  let names := sort_Strings (range_keys db) in
  let ids := imap (λ i name, (name, Z.of_nat i)) names in
  let idxs := λ name, default [] (col_indexes <$> db !! name) in
  mkSchema (list_to_map ids)
           (list_to_map ((λ '(name, i), (i, idxs name)) <$> ids))
           (list_to_map ((λ '(name, i),
              (i, list_to_set (String.concat "!" <$> idxs name))) <$> ids)).

Definition htid_of (s : Schema) (colName : string) (idxPath : list string) : Z :=
  match colNameLookup s !! colName with
  | None => -1
  | Some colID =>
      if decide (idxPath ∈ default [] (indexPaths s !! colID))
      then 10 * colID + 1 else -1
  end.

Definition docs_of (d : list DB) (colName : string) : list (Z * Value) :=
  d ≫= λ db, default [] (col_docs <$> db !! colName).

(** A scan that deals the documents out to the pages in turn. *)
Definition page_of (d : list DB) (colName : string) (page total : Z) (tolerant : bool)
  : list (Z * Value) :=
  (filter (λ p, Z.of_nat p.1 mod total = page) (imap pair (docs_of d colName))).*2.

(** Collaborators that behave, but for the I/O faults [f]. *)
Definition env_with (f : nat → Event → option error) : Collab :=
  mkCollab f (λ _, 1700000000000000000) (λ _ d, schema_of_disk d)
    (λ d c, Z.of_nat (length (docs_of d c))) page_of
    GetIn_field Sprint_plain byte_sum htid_of "!".

Definition env_ok : Collab := env_with (λ _ _, None).

(** The close of shard 1 fails. *)
Definition env_close1 : Collab :=
  env_with (λ _ ev, match ev with EvClose 1 => Some "close: input/output error" | _ => None end).

Definition shard_c (docID : Z) : DB :=
  {[ "c" := mkCol [["a"]]
              [(docID, VMap [("a", VStr "x"); ("b", VNum docID); ("n", VNil)])] ]}.

(** Three shards, each with the collection "c", indexed on "a". *)
Definition ws3 : World :=
  mkWorld 1 [shard_c 10; shard_c 11; shard_c 12] []
    (schema_of_disk [shard_c 10; shard_c 11; shard_c 12]) [].

(** Shard 1 has no collection "c". *)
Definition ws_gap : World :=
  mkWorld 1 [shard_c 10; ∅; shard_c 12] []
    (schema_of_disk [shard_c 10; ∅; shard_c 12]) [].

(** Shard 0 has no collection "c"; the schema cache still lists it. *)
Definition ws_gap0 : World :=
  mkWorld 1 [∅; shard_c 11; shard_c 12] []
    (schema_of_disk [shard_c 10; shard_c 11; shard_c 12]) [].

(** Shard 2 has no collection "c". *)
Definition ws_gap2 : World :=
  mkWorld 1 [shard_c 10; shard_c 11; ∅] []
    (schema_of_disk [shard_c 10; shard_c 11; ∅]) [].

(** The servers keep answering a reload with the schema they had loaded
    before: what the client has just created is not in it. *)
Definition env_stale : Collab :=
  mkCollab (λ _ _, None) (λ _, 1700000000000000000)
    (λ _ _, schema_of_disk [shard_c 10; shard_c 11; shard_c 12])
    (λ d c, Z.of_nat (length (docs_of d c))) page_of
    GetIn_field Sprint_plain byte_sum htid_of "!".

(** Every recovery insert fails. *)
Definition env_no_insert : Collab :=
  env_with (λ _ ev, match ev with
                    | EvInsertRecovery _ _ _ => Some "insert: connection reset"
                    | _ => None
                    end).

(** The name Scrub gives its temporary collection for "c" in [ws3]. *)
Definition tmp3 : string := tmp_name "c" (UnixNano env_ok (length (log ws3))).

(** [ws3] after the create phase of a scrub of "c". *)
Definition ws3_created (E : Collab) : World :=
  (forAllDBsDo E (Scrub_create_action E tmp3 [["a"]])
     (set_log (log ws3 ++ [EvNow]) ws3)).2.

(** The servers report 25,000 documents for every collection. *)
Definition env_25000 : Collab :=
  mkCollab (λ _ _, None) (λ _, 1700000000000000000) (λ _ d, schema_of_disk d)
    (λ _ _, 25000) page_of GetIn_field Sprint_plain byte_sum htid_of "!".

(** A destination where nothing fails; [path.Join] of two clean names. *)
Definition fs_ok : FsCollab :=
  mkFsCollab (λ _ _, None) (λ dir name, dir +:+ "/" +:+ name).

(** The dump of shard 1 fails. *)
Definition fs_dump1 : FsCollab :=
  mkFsCollab (λ _ c, match c with
                     | FsDump 1 _ => Some "dump: no space left on device"
                     | _ => None
                     end)
    (λ dir name, dir +:+ "/" +:+ name).

(** An empty destination. *)
Definition bk0 : Backup := mkBackup ∅ ∅ [].

(** [ws3] with a schema cache that lists a collection with three indexes. *)
Definition ws_users : World :=
  set_schema (mkSchema {[ "users" := 2%Z ]} ∅
                {[ 2%Z := {[ "name"; "address!city"; "address!zip" ]} ]}) ws3.

(** A client with no shard at all. *)
Definition ws_none : World := mkWorld 1 [] [] (schema_of_disk []) [].

(** Servers that list "c" with an index on "a" and serve one document of it,
    whatever the shard directories hold. *)
Definition env_one_doc : Collab :=
  mkCollab (λ _ _, None) (λ _, 1700000000000000000%Z)
    (λ _ _, schema_of_disk [shard_c 10])
    (λ _ _, 1%Z)
    (λ _ _ page _ _, if decide (page = 0%Z) then [(1%Z, VMap [("a", VStr "x")])] else [])
    GetIn_field Sprint_plain byte_sum htid_of "!".

Local Close Scope Z_scope.

(** * Verification *)

(** ** Running the monad *)

Lemma run_bind {A B} (m : M A) (k : A → M B) w :
  (m ≫= k) w =
  match m w with
  | (Ok a, w') => k a w'
  | (Fail e, w') => (Fail e, w')
  | (Panic, w') => (Panic, w')
  end.
Proof. reflexivity. Qed.

Lemma bind_Ok_inv {A B} (m : M A) (k : A → M B) w b w' :
  (m ≫= k) w = (Ok b, w') → ∃ a w1, m w = (Ok a, w1) ∧ k a w1 = (Ok b, w').
Proof.
  rewrite run_bind. destruct (m w) as [[a|e|] w1]; intros H; try discriminate.
  eauto.
Qed.

Lemma bind_inv {A B} (m : M A) (k : A → M B) w r w' :
  (m ≫= k) w = (r, w') →
  (∃ a w1, m w = (Ok a, w1) ∧ k a w1 = (r, w')) ∨
  (∃ e, m w = (Fail e, w') ∧ r = Fail e) ∨
  (m w = (Panic, w') ∧ r = Panic).
Proof.
  rewrite run_bind. destruct (m w) as [[a|e|] w1]; intros H.
  - left. eauto.
  - right. left. exists e. by inversion H.
  - right. right. by inversion H.
Qed.

(** The loop rule: [I] holds of the elements done so far and the world, [Q] of
    a run that stopped early. *)
Lemma forM_rule {A} (I : list A → World → Prop) (Q : Res unit → World → Prop)
    (body : A → M unit) (l : list A) :
  (∀ done x rest w1 r1 w2,
     l = done ++ x :: rest → I done w1 → body x w1 = (r1, w2) →
     match r1 with Ok _ => I (done ++ [x]) w2 | _ => Q r1 w2 end) →
  ∀ w r w', I [] w → forM_ l body w = (r, w') →
  match r with Ok _ => I l w' | _ => Q r w' end.
Proof.
  intros Hstep.
  assert (Hgen : ∀ rest done w r w', l = done ++ rest → I done w →
            forM_ rest body w = (r, w') →
            match r with Ok _ => I l w' | _ => Q r w' end).
  { induction rest as [|x rest IH]; intros done w r w' Hl HI H; simpl in H.
    - injection H as <- <-. by rewrite Hl, app_nil_r.
    - apply bind_inv in H as [([] & w1 & Hb & H)|[(e & Hb & ->)|[Hb ->]]].
      + apply (IH (done ++ [x]) w1); [by rewrite <- app_assoc| |done].
        apply (Hstep done x rest w (Ok tt) w1); auto.
      + apply (Hstep done x rest w (Fail e) w'); auto.
      + apply (Hstep done x rest w Panic w'); auto. }
  intros w r w' HI H. by apply (Hgen l [] w).
Qed.

Lemma bind_assoc_run {A B C} (m : M A) (k : A → M B) (h : B → M C) w :
  ((m ≫= k) ≫= h) w = (m ≫= (λ a, k a ≫= h)) w.
Proof. rewrite !run_bind. by destruct (m w) as [[a|e|] w1]. Qed.

Lemma bind_cong_run {A B} (m : M A) (k k' : A → M B) w :
  (∀ a w1, m w = (Ok a, w1) → k a w1 = k' a w1) →
  (m ≫= k) w = (m ≫= k') w.
Proof.
  intros H. rewrite !run_bind. destruct (m w) as [[a|e|] w1]; auto.
Qed.

Lemma forM_app {A} (l1 l2 : list A) (body : A → M unit) w :
  forM_ (l1 ++ l2) body w =
  match forM_ l1 body w with
  | (Ok _, w1) => forM_ l2 body w1
  | (Fail e, w1) => (Fail e, w1)
  | (Panic, w1) => (Panic, w1)
  end.
Proof.
  revert w. induction l1 as [|x l1 IH]; intros w; simpl; [done|].
  rewrite !run_bind. destruct (body x w) as [[[]|e|] w1]; auto.
Qed.

(** A relation between the worlds before and after holds of every run. *)
Definition preserves {A} (R : relation World) (m : M A) : Prop :=
  ∀ w r w', m w = (r, w') → R w w'.

Section Preserves.
Context (R : relation World) `{!PreOrder R}.

Lemma preserves_ret {A} (a : A) : preserves R (mret a : M A).
Proof. intros w r w' [= _ <-]. reflexivity. Qed.

Lemma preserves_fail {A} e : preserves R (fail e : M A).
Proof. intros w r w' [= _ <-]. reflexivity. Qed.

Lemma preserves_panic {A} : preserves R (panic : M A).
Proof. intros w r w' [= _ <-]. reflexivity. Qed.

Lemma preserves_get : preserves R get.
Proof. intros w r w' [= _ <-]. reflexivity. Qed.

Lemma preserves_bind {A B} (m : M A) (k : A → M B) :
  preserves R m → (∀ a, preserves R (k a)) → preserves R (m ≫= k).
Proof.
  intros Hm Hk w r w' H. apply bind_inv in H as [(a & w1 & H1 & H2)|[(e & H1 & _)|[H1 _]]].
  - etrans; [by eapply Hm | by eapply Hk].
  - by eapply Hm.
  - by eapply Hm.
Qed.

Lemma preserves_forM {A} (l : list A) (body : A → M unit) :
  (∀ x, preserves R (body x)) → preserves R (forM_ l body).
Proof.
  intros Hb. induction l as [|x l IH]; simpl.
  - apply (preserves_ret tt).
  - apply preserves_bind; auto.
Qed.
End Preserves.

(** ** The primitives, run *)

Section Primitives.

Variable E : Collab.

Lemma io_run ev w :
  io E ev w =
  match fault E (length (log w)) ev with
  | Some e => (Fail e, set_log (log w ++ [ev]) w)
  | None => (Ok (length (log w)), set_log (log w ++ [ev]) w)
  end.
Proof. reflexivity. Qed.

Lemma store_op_run i ev f w :
  store_op E i ev f w =
  let w1 := set_log (log w ++ [ev]) w in
  match fault E (length (log w)) ev with
  | Some e => (Fail e, w1)
  | None =>
      match disk w !! i with
      | None => (Panic, w1)
      | Some db =>
          match f db with
          | inl e => (Fail e, w1)
          | inr db' => (Ok tt, set_disk (<[i:=db']> (disk w)) w1)
          end
      end
  end.
Proof.
  unfold store_op. rewrite run_bind, io_run.
  destruct (fault E _ ev); [done|]. rewrite run_bind. simpl.
  destruct (disk w !! i) as [db|]; [|done]. by destruct (f db).
Qed.

Lemma OpenDB_run i w :
  OpenDB E i w =
  let w1 := set_log (log w ++ [EvOpenDB i]) w in
  match fault E (length (log w)) (EvOpenDB i) with
  | Some e => (Fail e, w1)
  | None =>
      match disk w !! i with
      | None => (Fail ("open " +:+ Itoa (Z.of_nat i) +:+ ": no such shard"), w1)
      | Some _ => (Ok i, set_handles (handles w ++ [i]) w1)
      end
  end.
Proof.
  unfold OpenDB. rewrite run_bind, io_run.
  destruct (fault E _ _); [done|]. rewrite run_bind. simpl.
  by destruct (disk w !! i).
Qed.

Lemma Close_run i w :
  Close E i w =
  let w1 := set_log (log w ++ [EvClose i]) w in
  match fault E (length (log w)) (EvClose i) with
  | Some e => (Fail e, w1)
  | None => (Ok tt, set_handles (remove_last i (handles w)) w1)
  end.
Proof.
  unfold Close. rewrite run_bind, io_run.
  by destruct (fault E _ _).
Qed.

Lemma Use_run i name w :
  Use i name w =
  (Ok (match disk w !! i ≫= (.!! name) with
       | Some _ => Some (i, name)
       | None => None
       end), w).
Proof.
  unfold Use. rewrite run_bind. simpl. by destruct (disk w !! i ≫= _).
Qed.

#[global] Instance touches_only_preorder i : PreOrder (touches_only i).
Proof.
  split.
  - intros w. repeat split; auto. exists []. split; [by rewrite app_nil_r | constructor].
  - intros w1 w2 w3 (Hi1 & Hs1 & Hl1 & Hd1 & evs1 & Hg1 & Ho1)
                    (Hi2 & Hs2 & Hl2 & Hd2 & evs2 & Hg2 & Ho2).
    repeat split; try congruence.
    + intros j Hj. rewrite Hd2, Hd1; auto.
    + exists (evs1 ++ evs2). split.
      * by rewrite Hg2, Hg1, app_assoc.
      * by apply Forall_app.
Qed.

Lemma touches_only_log_disk i w ev d :
  ev_shard ev = Some i → length d = length (disk w) →
  (∀ j, j ≠ i → d !! j = disk w !! j) →
  touches_only i w (set_disk d (set_log (log w ++ [ev]) w)).
Proof.
  intros Hev Hlen Hd. repeat split; auto.
  exists [ev]. split; [done|]. by constructor.
Qed.

Lemma touches_only_log i w ev :
  ev_shard ev = Some i → touches_only i w (set_log (log w ++ [ev]) w).
Proof.
  intros Hev. repeat split; auto.
  exists [ev]. split; [done|]. by constructor.
Qed.

Lemma touches_only_handles i w h :
  touches_only i w (set_handles h w).
Proof.
  repeat split; auto. exists []. split; [by rewrite app_nil_r | constructor].
Qed.

Lemma store_op_local i ev f :
  ev_shard ev = Some i → preserves (touches_only i) (store_op E i ev f).
Proof.
  intros Hev w r w'. rewrite store_op_run. cbv zeta.
  destruct (fault E _ ev).
  { intros [= _ <-]. by apply touches_only_log. }
  destruct (disk w !! i) as [db|] eqn:Hdb.
  2:{ intros [= _ <-]. by apply touches_only_log. }
  destruct (f db) as [e|db'].
  { intros [= _ <-]. by apply touches_only_log. }
  intros [= _ <-].
  apply touches_only_log_disk; auto.
  - by rewrite length_insert.
  - intros j Hj. by rewrite list_lookup_insert_ne.
Qed.

Lemma OpenDB_local i : preserves (touches_only i) (OpenDB E i).
Proof.
  intros w r w'. rewrite OpenDB_run. cbv zeta.
  destruct (fault E _ _).
  { intros [= _ <-]. by apply touches_only_log. }
  destruct (disk w !! i).
  2:{ intros [= _ <-]. by apply touches_only_log. }
  intros [= _ <-]. etrans; [by apply (touches_only_log i w (EvOpenDB i))|].
  apply touches_only_handles.
Qed.

Lemma Close_local i : preserves (touches_only i) (Close E i).
Proof.
  intros w r w'. rewrite Close_run. cbv zeta.
  destruct (fault E _ _).
  { intros [= _ <-]. by apply touches_only_log. }
  intros [= _ <-]. etrans; [by apply (touches_only_log i w (EvClose i))|].
  apply touches_only_handles.
Qed.

Lemma Use_local i j name : preserves (touches_only i) (Use j name).
Proof. intros w r w'. rewrite Use_run. intros [= _ <-]. reflexivity. Qed.

Lemma OpenDB_Ok_inv i w j w' :
  OpenDB E i w = (Ok j, w') →
  j = i ∧ disk w' = disk w ∧ is_Some (disk w !! i) ∧
  log w' = log w ++ [EvOpenDB i] ∧ handles w' = handles w ++ [i].
Proof.
  rewrite OpenDB_run. cbv zeta. destruct (fault E _ _); [done|].
  destruct (disk w !! i); [|done]. intros [= <- <-]. eauto.
Qed.

Lemma OpenDB_not_Panic i w w' : OpenDB E i w ≠ (Panic, w').
Proof.
  rewrite OpenDB_run. cbv zeta. destruct (fault E _ _); [done|].
  by destruct (disk w !! i).
Qed.

Lemma OpenDB_Fail_inv i w e w' :
  OpenDB E i w = (Fail e, w') →
  disk w' = disk w ∧ handles w' = handles w ∧ log w' = log w ++ [EvOpenDB i].
Proof.
  rewrite OpenDB_run. cbv zeta. destruct (fault E _ _).
  { by intros [= _ <-]. }
  destruct (disk w !! i); [done|]. by intros [= _ <-].
Qed.

Lemma Close_inv i w r w' :
  Close E i w = (r, w') →
  disk w' = disk w ∧ log w' = log w ++ [EvClose i] ∧
  ((r = Ok tt ∧ handles w' = remove_last i (handles w)) ∨
   (∃ e, r = Fail e ∧ handles w' = handles w)).
Proof.
  rewrite Close_run. cbv zeta. destruct (fault E _ _) as [e|].
  - intros [= <- <-]. repeat split; eauto.
  - intros [= <- <-]. repeat split; eauto.
Qed.

End Primitives.

(** ** Uniform shard application *)

Section RoundsFacts.

Variable E : Collab.
Variable fun_ : nat → M unit.
Hypothesis fun_local : shard_local fun_.

Lemma round_inv i w r w' :
  round E fun_ i w = (r, w') →
  (r = Ok tt ∧ ∃ w1 w2, OpenDB E i w = (Ok i, w1) ∧ fun_ i w1 = (Ok tt, w2) ∧
                         Close E i w2 = (Ok tt, w')) ∨
  (r ≠ Ok tt ∧ failing_call E fun_ i w r w').
Proof.
  unfold round. intros H.
  apply bind_inv in H as [(j & w1 & Ho & H)|[(e & Ho & ->)|[Ho _]]].
  - destruct (OpenDB_Ok_inv _ _ _ _ _ Ho) as (-> & Hd & _).
    apply bind_inv in H as [([] & w2 & Hf & Hc)|[(e & Hf & ->)|[Hf ->]]].
    + destruct (Close_inv _ _ _ _ _ Hc) as (Hd2 & _ & [[-> _]|(e & -> & _)]).
      * left. split; [done|]. eauto.
      * right. split; [done|]. right. right. exists w1, w2, e. eauto.
    + right. split; [done|]. right. left. exists w1. eauto.
    + right. split; [done|]. right. left. exists w1. eauto.
  - right. split; [done|]. left. exists e.
    destruct (OpenDB_Fail_inv _ _ _ _ _ Ho) as (Hd & _). eauto.
  - by apply OpenDB_not_Panic in Ho.
Qed.

Lemma round_local i : preserves (touches_only i) (round E fun_ i).
Proof.
  intros w r w' H. unfold round in H.
  apply bind_inv in H as [(j & w1 & Ho & H)|[(e & Ho & _)|[Ho _]]].
  - destruct (OpenDB_Ok_inv _ _ _ _ _ Ho) as (-> & _).
    etrans; [by eapply OpenDB_local|].
    apply bind_inv in H as [([] & w2 & Hf & Hc)|[(e & Hf & _)|[Hf _]]].
    + etrans; [by eapply fun_local|]. by eapply Close_local.
    + by eapply fun_local.
    + by eapply fun_local.
  - by eapply OpenDB_local.
  - by eapply OpenDB_local.
Qed.

Lemma round_Ok_log i w w' :
  round E fun_ i w = (Ok tt, w') →
  ∃ mid, log w' = log w ++ EvOpenDB i :: mid ++ [EvClose i] ∧ on_shard i mid.
Proof.
  intros H. apply round_inv in H as [[_ (w1 & w2 & Ho & Hf & Hc)]|[? _]]; [|done].
  destruct (OpenDB_Ok_inv _ _ _ _ _ Ho) as (_ & _ & _ & Hl1 & _).
  destruct (fun_local _ _ _ _ Hf) as (_ & _ & _ & _ & mid & Hl2 & Hmid).
  destruct (Close_inv _ _ _ _ _ Hc) as (_ & Hl3 & _).
  exists mid. split; [|done].
  rewrite Hl3, Hl2, Hl1. by rewrite <- !app_assoc.
Qed.

Lemma rounds_done_cons i wi w1 k wk :
  round E fun_ i wi = (Ok tt, w1) →
  rounds_done E fun_ (S i) w1 k wk → rounds_done E fun_ i wi k wk.
Proof.
  intros Hr. induction 1 as [|k wk wk' _ IH Hk].
  - eapply rounds_snoc; [constructor | done].
  - eapply rounds_snoc; eauto.
Qed.

Lemma rounds_done_split i w k wk :
  rounds_done E fun_ 0 w k wk → i < k →
  ∃ wi wi', rounds_done E fun_ 0 w i wi ∧ round E fun_ i wi = (Ok tt, wi') ∧
            rounds_done E fun_ (S i) wi' k wk.
Proof.
  induction 1 as [|k wk wk' Hd IH Hk]; intros Hi; [lia|].
  destruct (decide (i = k)) as [->|Hne].
  - exists wk, wk'. repeat split; auto. constructor.
  - destruct IH as (wi & wi' & H1 & H2 & H3); [lia|].
    exists wi, wi'. repeat split; auto. eapply rounds_snoc; eauto.
Qed.

Lemma rounds_done_frame i wi k wk :
  rounds_done E fun_ i wi k wk →
  i ≤ k ∧ length (disk wk) = length (disk wi) ∧
  (∀ j, j < i ∨ k ≤ j → disk wk !! j = disk wi !! j) ∧
  ∃ blocks, log wk = log wi ++ concat blocks ∧ length blocks = k - i ∧
    ∀ n b, blocks !! n = Some b →
      ∃ mid, b = EvOpenDB (i + n) :: mid ++ [EvClose (i + n)] ∧
             on_shard (i + n) mid.
Proof.
  induction 1 as [|k wk wk' Hd (Hle & Hlen & Hfr & blocks & Hlog & Hbl & Hblk) Hk].
  - repeat split; auto. exists []. repeat split.
    + simpl. by rewrite app_nil_r.
    + simpl. lia.
    + intros n b Hn. by rewrite lookup_nil in Hn.
  - destruct (round_local _ _ _ _ Hk) as (_ & _ & Hlen' & Hd' & _).
    destruct (round_Ok_log _ _ _ Hk) as (mid & Hlog' & Hmid).
    repeat split.
    + lia.
    + congruence.
    + intros j Hj. rewrite Hd' by lia. apply Hfr. lia.
    + exists (blocks ++ [EvOpenDB k :: mid ++ [EvClose k]]). repeat split.
      * rewrite Hlog', Hlog, concat_app. simpl. by rewrite app_nil_r, <- app_assoc.
      * rewrite length_app. simpl. lia.
      * intros n b Hn. apply lookup_app_Some in Hn as [Hn|[Hge Hn]]; [by apply Hblk|].
        apply list_lookup_singleton_Some in Hn as [Hn <-].
        replace (i + n) with k by lia. eauto.
Qed.

Lemma rounds_loop n : ∀ i wi r w',
  forM_ (seq i n) (round E fun_) wi = (r, w') →
  ∃ k wk, i ≤ k ≤ i + n ∧ rounds_done E fun_ i wi k wk ∧
    ((r = Ok tt ∧ k = i + n ∧ w' = wk) ∨
     (k < i + n ∧ r ≠ Ok tt ∧ round E fun_ k wk = (r, w'))).
Proof.
  induction n as [|n IH]; intros i wi r w' H; simpl in H.
  - injection H as <- <-. exists i, wi. split; [lia|]. split; [constructor|].
    left. repeat split; auto.
  - apply bind_inv in H as [([] & w1 & Hr & H)|[(e & Hr & ->)|[Hr ->]]].
    + destruct (IH _ _ _ _ H) as (k & wk & Hk & Hd & Hout).
      exists k, wk. split; [lia|]. split; [by eapply rounds_done_cons|].
      destruct Hout as [(-> & -> & ->)|(? & ? & ?)].
      * left. repeat split; auto.
      * right. repeat split; auto. lia.
    + exists i, wi. split; [lia|]. split; [constructor|].
      right. repeat split; auto. lia.
    + exists i, wi. split; [lia|]. split; [constructor|].
      right. repeat split; auto. lia.
Qed.

Lemma forAllDBsDo_applied w r w' :
  forAllDBsDo E fun_ w = (r, w') → applied_in_order E fun_ w r w'.
Proof.
  unfold forAllDBsDo. rewrite run_bind. simpl. intros H.
  change (forM_ (seq 0 (nProcs w)) (round E fun_) w = (r, w')) in H.
  destruct (rounds_loop _ _ _ _ _ H) as (k & wk & Hk & Hd & Hout).
  destruct (rounds_done_frame _ _ _ _ Hd) as (_ & Hlen & Hfr & blocks & Hlog & Hbl & Hblk).
  assert (Hw' : touches_only k wk w').
  { destruct Hout as [(_ & _ & ->)|(_ & _ & Hr)]; [reflexivity|].
    by eapply round_local. }
  destruct Hw' as (_ & _ & _ & Hdk & rest & Hlog' & Hrest).
  exists k, wk. split; [simpl in Hk; lia|]. split; [done|]. split.
  { destruct Hout as [(-> & -> & ->)|(Hlt & Hne & Hr)]; [left; auto|].
    right. split; [simpl in Hlt; lia|].
    apply round_inv in Hr as [[-> _]|[_ Hf]]; done. }
  split.
  { intros i Hi. destruct (rounds_done_split _ _ _ _ Hd Hi) as (wi & wi' & H1 & H2 & H3).
    apply round_inv in H2 as [[_ (w1 & w2 & Ho & Hf & Hc)]|[? _]]; [|done].
    destruct (OpenDB_Ok_inv _ _ _ _ _ Ho) as (_ & Hd1 & _).
    destruct (Close_inv _ _ _ _ _ Hc) as (Hd2 & _).
    exists wi, w1, w2, wi'. repeat split; auto.
    - destruct (rounds_done_frame _ _ _ _ H1) as (_ & _ & Hfr1 & _).
      rewrite Hd1. apply Hfr1. lia.
    - destruct (rounds_done_frame _ _ _ _ H3) as (_ & _ & Hfr3 & _).
      rewrite Hdk by lia. rewrite <- Hd2. apply Hfr3. lia. }
  split; [apply Hfr; lia|]. split.
  { intros i Hi. rewrite Hdk by lia. apply Hfr. lia. }
  exists (concat blocks ++ rest). split; [by rewrite Hlog', Hlog, app_assoc|].
  exists blocks, rest. split; [done|]. split; [lia|]. split; [done|].
  intros i b Hb. apply Hblk in Hb. by simpl in Hb.
Qed.

End RoundsFacts.

Section UniformApplication.

Variable E : Collab.

Lemma store_op_shard_local ev f :
  (∀ i, ev_shard (ev i) = Some i) → shard_local (λ i, store_op E i (ev i) f).
Proof. intros Hev i w r w' H. by eapply store_op_local. Qed.

Lemma BPIndex_local i col idxPath :
  (∀ j name, col = Some (j, name) → j = i) →
  preserves (touches_only i) (BPIndex E col idxPath).
Proof.
  intros Hcol. destruct col as [[j name]|]; simpl.
  - rewrite (Hcol j name eq_refl). by apply store_op_local.
  - apply preserves_panic, _.
Qed.

Lemma Use_result i name w col w' :
  Use i name w = (Ok col, w') →
  w' = w ∧ (col = None ∨ col = Some (i, name)).
Proof.
  rewrite Use_run. intros [= <- <-]. split; [done|].
  destruct (disk w !! i ≫= _); auto.
Qed.

Lemma uniform_action_local fun_ : uniform_action E fun_ → shard_local fun_.
Proof.
  destruct 1 as [c|o n|c|tmp idxs|c tmp].
  - by apply store_op_shard_local.
  - by apply store_op_shard_local.
  - by apply store_op_shard_local.
  - intros i. unfold Scrub_create_action. apply preserves_bind; [apply _| |].
    + by apply store_op_local.
    + intros _. apply preserves_forM; [apply _|]. intros p w r w' H.
      apply bind_inv in H as [(col & w1 & Hu & H)|[(e & Hu & _)|[Hu _]]].
      * apply Use_result in Hu as [-> Hcol]. revert H. apply BPIndex_local.
        intros j name ->. by destruct Hcol as [|[= -> _]].
      * by eapply Use_local.
      * by eapply Use_local.
  - intros i. unfold Scrub_swap_action. apply preserves_bind; [apply _| |].
    + by apply store_op_local.
    + intros _. by apply store_op_local.
Qed.

(** C1, as the code has it.  Every operation that goes through [forAllDBsDo]
    (Create, Rename, Truncate, the create and the swap phase of Scrub) handles
    the shards one after the other in index order, each shard opened, acted
    upon and closed before the next is touched, and returns at once the first
    error of an open, an action or a close, passed on as the failing call
    returned it.  The shards before the failing one keep what their own action
    left, the shards after it are untouched.  The failing shard itself is
    unchanged when its open failed, holds what its action did up to the error
    when the action failed, and holds the whole applied change when its close
    failed. *)
Theorem forAllDBsDo_first_error fun_ w r w' :
  uniform_action E fun_ →
  forAllDBsDo E fun_ w = (r, w') →
  applied_in_order E fun_ w r w'.
Proof.
  intros Hact. apply forAllDBsDo_applied. by apply uniform_action_local.
Qed.

End UniformApplication.

Lemma forAllDBsDo_first_error_witness :
  applied_in_order env_close1 (λ clientDB, Truncate_db env_close1 clientDB "c") ws3
    (Truncate env_close1 "c" ws3).1 (Truncate env_close1 "c" ws3).2.
Proof.
  apply (forAllDBsDo_first_error env_close1 _ ws3).
  - apply act_Truncate.
  - vm_compute. reflexivity.
Defined.

(** C1 as stated fails: "c" is truncated on three shards and the close of
    shard 1 fails.  The operation returns that error, yet shard 1, the shard
    at the failure point, has lost its documents like shard 0.  Nor does the
    error tell the shard: where "c" is missing on shard 1 and where it is
    missing on shard 2, Truncate stops at a different shard and returns the
    same error. *)
Lemma Truncate_close_failure_keeps_change :
  (∃ w', Truncate env_close1 "c" ws3 = (Fail "close: input/output error", w') ∧
         last (log w') = Some (EvClose 1) ∧
         disk ws3 !! 1 = Some (shard_c 11) ∧
         disk w' !! 1 = Some {[ "c" := mkCol [["a"]] [] ]} ∧
         disk w' !! 1 ≠ disk ws3 !! 1 ∧
         disk w' !! 2 = disk ws3 !! 2) ∧
  (∃ w1 w2,
     Truncate env_ok "c" ws_gap = (Fail "Collection c does not exist", w1) ∧
     last (log w1) = Some (EvTruncate 1 "c") ∧
     Truncate env_ok "c" ws_gap2 = (Fail "Collection c does not exist", w2) ∧
     last (log w2) = Some (EvTruncate 2 "c")).
Proof.
  split.
  - eexists. split; [vm_compute; reflexivity|].
    repeat split; try (vm_compute; reflexivity).
    vm_compute. discriminate.
  - eexists. eexists. split; [vm_compute; reflexivity|].
    split; [vm_compute; reflexivity|].
    split; vm_compute; reflexivity.
Qed.

(** ** Unindex *)

(** An event that is none of those listed. *)
Ltac not_listed H :=
  repeat (apply elem_of_cons in H as [H|H]; [discriminate H|]);
  apply elem_of_nil in H.

Lemma seq_split_at n done x rest :
  seq 0 n = done ++ x :: rest → x = length done ∧ x < n ∧ done = seq 0 x.
Proof.
  intros H.
  assert (Hx : seq 0 n !! length done = Some x).
  { rewrite H. by rewrite list_lookup_middle. }
  apply lookup_seq in Hx as [Hx Hlt]. simpl in Hx. subst x.
  split; [done|]. split; [done|].
  assert (Ht : take (length done) (seq 0 n) = done).
  { rewrite H. by rewrite take_app_length. }
  rewrite <- Ht at 1. rewrite take_seq. f_equal. lia.
Qed.

Lemma remove_last_snoc i h : remove_last i (h ++ [i]) = h.
Proof.
  induction h as [|j h IH]; simpl.
  - destruct (decide (i ∈ [])) as [Hin|_]; [by apply elem_of_nil in Hin|].
    by destruct (decide (i = i)).
  - destruct (decide (i ∈ h ++ [i])) as [_|Hnin]; [by rewrite IH|].
    exfalso. apply Hnin, elem_of_app. right. by apply list_elem_of_singleton.
Qed.

Section UnindexFacts.

Variable E : Collab.
Variables (colName : string) (idxPath : list string).

Lemma Unindex_unfold w :
  Unindex E colName idxPath w =
  forM_ (seq 0 (nProcs w)) (Unindex_turn E colName idxPath) w.
Proof. reflexivity. Qed.

(** What one turn of the loop can do. *)
Lemma Unindex_turn_inv k w1 r w2 :
  Unindex_turn E colName idxPath k w1 = (r, w2) →
  (∃ e, r = Fail e ∧ log w2 = log w1 ++ [EvOpenDB k] ∧
        disk w2 = disk w1 ∧ handles w2 = handles w1) ∨
  (r = Ok tt ∧ ¬ has_col colName (disk w1) k ∧
     log w2 = log w1 ++ [EvOpenDB k] ∧
     disk w2 = disk w1 ∧ handles w2 = handles w1 ++ [k]) ∨
  (r ≠ Ok tt ∧ has_col colName (disk w1) k ∧
     log w2 = log w1 ++ [EvOpenDB k; EvUnindex k colName idxPath] ∧
     disk w2 = disk w1) ∨
  (has_col colName (disk w1) k ∧
     log w2 = log w1 ++ [EvOpenDB k; EvUnindex k colName idxPath; EvClose k] ∧
     length (disk w2) = length (disk w1) ∧
     (∀ j, j ≠ k → disk w2 !! j = disk w1 !! j) ∧
     (disk w2 !! k = unindexed colName idxPath <$> disk w1 !! k) ∧
     ((r = Ok tt ∧ handles w2 = handles w1) ∨ ∃ e, r = Fail e)).
Proof.
  unfold Unindex_turn. rewrite run_bind, OpenDB_run. cbv zeta.
  destruct (fault E _ _) as [e|].
  { intros [= <- <-]. left. exists e. auto. }
  destruct (disk w1 !! k) as [db|] eqn:Hdb.
  2:{ intros [= <- <-]. left. eexists. auto. }
  rewrite run_bind, Use_run. simpl. rewrite Hdb. simpl.
  destruct (db !! colName) as [c|] eqn:Hc.
  2:{ intros [= <- <-]. right. left. repeat split; auto.
      unfold has_col. rewrite Hdb. simpl. rewrite Hc. by intros [? ?]. }
  assert (Hhas : has_col colName (disk w1) k).
  { unfold has_col. rewrite Hdb. simpl. by rewrite Hc. }
  rewrite run_bind, Use_run. simpl. rewrite Hdb. simpl. rewrite Hc.
  rewrite run_bind. simpl. rewrite store_op_run. cbv zeta. simpl.
  destruct (fault E _ _) as [e|].
  { intros [= <- <-]. right. right. left. simpl.
    repeat split; auto. by rewrite <- app_assoc. }
  rewrite Hdb. unfold col_unindex. rewrite Hc.
  destruct (decide (idxPath ∈ col_indexes c)) as [Hin|Hnin].
  2:{ intros [= <- <-]. right. right. left. simpl.
      repeat split; auto. by rewrite <- app_assoc. }
  rewrite Close_run. cbv zeta. simpl.
  assert (Hun : <[colName:=mkCol (filter (λ p, p ≠ idxPath) (col_indexes c)) (col_docs c)]> db
                = unindexed colName idxPath db).
  { unfold unindexed. by rewrite Hc. }
  destruct (fault E _ _) as [e|]; intros [= <- <-]; right; right; right; simpl.
  - split; [done|]. split; [by rewrite <- !app_assoc|].
    split; [by rewrite length_insert|].
    split; [intros j Hj; by rewrite list_lookup_insert_ne|].
    split; [|eauto].
    rewrite list_lookup_insert_eq by (by eapply lookup_lt_Some). by rewrite Hun.
  - split; [done|]. split; [by rewrite <- !app_assoc|].
    split; [by rewrite length_insert|].
    split; [intros j Hj; by rewrite list_lookup_insert_ne|].
    split.
    + rewrite list_lookup_insert_eq by (by eapply lookup_lt_Some). by rewrite Hun.
    + left. split; [done|]. by rewrite remove_last_snoc.
Qed.

End UnindexFacts.

Section UnindexRuns.

Variable E : Collab.
Variables (colName : string) (idxPath : list string).

Lemma has_col_lookup (d : list DB) k db :
  d !! k = Some db → (has_col colName d k ↔ is_Some (db !! colName)).
Proof. intros H. unfold has_col. by rewrite H. Qed.

Lemma has_col_same (d1 d2 : list DB) k :
  d1 !! k = d2 !! k → (has_col colName d1 k ↔ has_col colName d2 k).
Proof. unfold has_col. by intros ->. Qed.

Lemma Unindex_calls_same (d1 d2 : list DB) k :
  d1 !! k = d2 !! k →
  Unindex_calls colName idxPath d1 k = Unindex_calls colName idxPath d2 k.
Proof.
  intros H. unfold Unindex_calls. apply has_col_same in H.
  destruct (decide (has_col colName d1 k)) as [H1|H1];
    destruct (decide (has_col colName d2 k)) as [H2|H2]; auto; tauto.
Qed.

(** One turn where nothing fails. *)
Lemma Unindex_turn_ok k w1 db :
  no_faults E →
  disk w1 !! k = Some db →
  (∀ c, db !! colName = Some c → idxPath ∈ col_indexes c) →
  ∃ w2, Unindex_turn E colName idxPath k w1 = (Ok tt, w2) ∧
        schema w2 = schema w1 ∧
        disk w2 = <[k := unindexed colName idxPath db]> (disk w1) ∧
        log w2 = log w1 ++ Unindex_calls colName idxPath (disk w1) k.
Proof.
  intros Hnf Hdb Hidx.
  unfold Unindex_turn. rewrite run_bind, OpenDB_run. cbv zeta.
  rewrite Hnf, Hdb. rewrite run_bind, Use_run. simpl. rewrite Hdb. simpl.
  unfold Unindex_calls, unindexed.
  destruct (db !! colName) as [c|] eqn:Hc.
  - rewrite decide_True by (eapply has_col_lookup; eauto).
    rewrite run_bind, Use_run. simpl. rewrite Hdb. simpl. rewrite Hc.
    rewrite run_bind. simpl. rewrite store_op_run. cbv zeta. simpl.
    rewrite Hnf, Hdb. unfold col_unindex. rewrite Hc.
    rewrite decide_True by auto.
    rewrite Close_run. cbv zeta. rewrite Hnf. simpl.
    eexists. split; [done|]. simpl. split; [done|]. split; [done|].
    by rewrite <- !app_assoc.
  - rewrite decide_False.
    2:{ intros Hh. eapply has_col_lookup in Hh; eauto. rewrite Hc in Hh. by destruct Hh. }
    eexists. split; [done|]. simpl. split; [done|]. split; [|done].
    by rewrite list_insert_id.
Qed.

(** Index, for contrast: it stops at a first shard that has no such
    collection. *)
Lemma Index_stops_at_absent_first_shard idxPath' w db0 :
  fault E (length (log w)) (EvOpenDB 0) = None →
  disk w !! 0 = Some db0 → db0 !! colName = None →
  Index E colName idxPath' w =
    (Fail "Collection does not exist",
     set_handles (handles w ++ [0]) (set_log (log w ++ [EvOpenDB 0]) w)).
Proof.
  intros Hf Hdb Hnone.
  change (Index E colName idxPath' w)
    with ((forM_ (seq 0 (nProcs w)) (Index_turn E colName idxPath') ;;
           Index_reindex E colName idxPath') w).
  unfold nProcs. destruct (disk w) as [|d0 d] eqn:Hdisk; [done|].
  injection Hdb as ->. cbn [length seq forM_]. rewrite !run_bind.
  unfold Index_turn at 1. rewrite run_bind, OpenDB_run. cbv zeta.
  rewrite Hf, Hdisk. cbn [lookup list_lookup].
  rewrite run_bind, Use_run. simpl. rewrite Hdisk. simpl. by rewrite Hnone.
Qed.

(** Unindex where nothing fails. *)
Lemma Unindex_no_fault_run w :
  no_faults E →
  (∀ i db c, disk w !! i = Some db → db !! colName = Some c →
             idxPath ∈ col_indexes c) →
  ∃ w', Unindex E colName idxPath w = (Ok tt, w') ∧
        disk w' = unindexed colName idxPath <$> disk w ∧
        log w' = log w ++ Unindex_all_calls colName idxPath (disk w) ∧
        schema w' = schema w.
Proof.
  intros Hnf Hidx.
  rewrite Unindex_unfold. unfold Unindex_all_calls, nProcs in *.
  destruct (forM_ (seq 0 (length (disk w))) (Unindex_turn E colName idxPath) w)
    as [r w'] eqn:Hrun.
  pose (I := λ (done : list nat) (w1 : World),
    schema w1 = schema w ∧ length (disk w1) = length (disk w) ∧
    (∀ j, disk w1 !! j = if decide (j < length done)
                         then unindexed colName idxPath <$> disk w !! j
                         else disk w !! j) ∧
    log w1 = log w ++ (done ≫= Unindex_calls colName idxPath (disk w))).
  assert (H : match r with Ok _ => I (seq 0 (length (disk w))) w' | _ => False end).
  { apply (forM_rule I (λ _ _, False) (Unindex_turn E colName idxPath)
             (seq 0 (length (disk w)))) with (w := w) (w' := w'); [| |done].
    2:{ repeat split; auto. simpl. by rewrite app_nil_r. }
    clear r w' Hrun. intros done x rest w1 r1 w2 Hl (Hs & Hlen & Hd & Hlog) Hturn.
    apply seq_split_at in Hl as (-> & Hlt & _).
    assert (Hdk : disk w1 !! length done = disk w !! length done).
    { rewrite Hd. by rewrite decide_False by lia. }
    destruct (lookup_lt_is_Some_2 (disk w) (length done)) as [db Hdb]; [done|].
    destruct (Unindex_turn_ok (length done) w1 db Hnf) as (w2' & Hrun2 & Hs2 & Hd2 & Hl2).
    { by rewrite Hdk. }
    { intros c. by apply (Hidx (length done)). }
    rewrite Hrun2 in Hturn. injection Hturn as <- <-.
    split; [congruence|]. split; [by rewrite Hd2, length_insert|]. split.
    - intros j. rewrite Hd2, length_app. simpl.
      destruct (decide (j = length done)) as [->|Hne].
      + rewrite list_lookup_insert_eq by lia.
        rewrite decide_True by lia. by rewrite Hdb.
      + rewrite list_lookup_insert_ne by done. rewrite Hd.
        destruct (decide (j < length done)); [by rewrite decide_True by lia|].
        by rewrite decide_False by lia.
    - rewrite Hl2, Hlog, bind_app, <- app_assoc. simpl. rewrite app_nil_r.
      by rewrite (Unindex_calls_same _ _ _ Hdk). }
  destruct r as [[]| |]; [|done|done].
  destruct H as (Hs & Hlen & Hd & Hlog).
  exists w'. split; [done|]. split; [|done].
  apply list_eq. intros j. rewrite Hd, list_lookup_fmap, length_seq.
  destruct (decide (j < length (disk w))); [done|].
  rewrite lookup_ge_None_2; [done|]. lia.
Qed.

Lemma Unindex_all_calls_no_reload (d : list DB) :
  EvReload ∉ Unindex_all_calls colName idxPath d.
Proof.
  intros Hin. apply list_elem_of_bind in Hin as (i & Hin & _).
  unfold Unindex_calls in Hin. destruct (decide _); by not_listed Hin.
Qed.

(** C5.  Unindex goes through the shards in index order.  Where a shard has no
    collection of that name the turn ends after the open and the loop goes on
    with the next shard; where it has one, the index is removed and the shard
    closed.  So with no I/O fault, and the path indexed wherever the collection
    is, Unindex succeeds whichever shards lack the collection, where Index
    stops with an error at a first shard that lacks it.  No reload is requested
    and the schema cache is as before. *)
Theorem Unindex_skips_absent_shards w :
  no_faults E →
  (∀ i db c, disk w !! i = Some db → db !! colName = Some c →
             idxPath ∈ col_indexes c) →
  ∃ w', Unindex E colName idxPath w = (Ok tt, w') ∧
        disk w' = unindexed colName idxPath <$> disk w ∧
        log w' = log w ++ Unindex_all_calls colName idxPath (disk w) ∧
        (EvReload ∉ Unindex_all_calls colName idxPath (disk w)) ∧
        schema w' = schema w ∧
        (¬ has_col colName (disk w) 0 → 0 < nProcs w →
         ∀ idxPath', (Index E colName idxPath' w).1 = Fail "Collection does not exist").
Proof.
  intros Hnf Hidx.
  destruct (Unindex_no_fault_run w Hnf Hidx) as (w' & Hrun & Hd & Hl & Hs).
  exists w'. split; [done|]. split; [done|]. split; [done|].
  split; [apply Unindex_all_calls_no_reload|]. split; [done|].
  intros Hno HN idxPath'.
  destruct (lookup_lt_is_Some_2 (disk w) 0 HN) as [db0 Hdb0].
  rewrite (Index_stops_at_absent_first_shard idxPath' w db0); auto.
  destruct (db0 !! colName) eqn:Hc; [|done]. destruct Hno.
  eapply has_col_lookup; eauto.
Qed.

End UnindexRuns.

Lemma Unindex_skips_absent_shards_witness :
  ∃ w', Unindex env_ok "c" ["a"] ws_gap0 = (Ok tt, w') ∧
        disk w' = unindexed "c" ["a"] <$> disk ws_gap0 ∧
        log w' = log ws_gap0 ++ Unindex_all_calls "c" ["a"] (disk ws_gap0) ∧
        (EvReload ∉ Unindex_all_calls "c" ["a"] (disk ws_gap0)) ∧
        schema w' = schema ws_gap0 ∧
        (¬ has_col "c" (disk ws_gap0) 0 → 0 < nProcs ws_gap0 →
         ∀ idxPath', (Index env_ok "c" idxPath' ws_gap0).1 =
                     Fail "Collection does not exist").
Proof.
  apply (Unindex_skips_absent_shards env_ok "c" ["a"] ws_gap0).
  - intros n ev. reflexivity.
  - intros [|[|[|i]]] db c Hdb Hc; simpl in Hdb; try discriminate;
      injection Hdb as <-; vm_compute in Hc; try discriminate;
      injection Hc as <-; simpl; apply list_elem_of_singleton; reflexivity.
Defined.

(** In [ws_gap0] shard 0 has no collection "c": Unindex opens it, leaves it
    and goes on to unindex shards 1 and 2. *)
Example Unindex_ws_gap0 :
  Unindex_all_calls "c" ["a"] (disk ws_gap0) =
    [EvOpenDB 0;
     EvOpenDB 1; EvUnindex 1 "c" ["a"]; EvClose 1;
     EvOpenDB 2; EvUnindex 2 "c" ["a"]; EvClose 2] ∧
  handles (Unindex env_ok "c" ["a"] ws_gap0).2 = [0].
Proof. vm_compute. auto. Qed.

Section UnindexHandles.

Variable E : Collab.
Variables (colName : string) (idxPath : list string).

(** A shard is closed only after its index was removed. *)
Definition closes_after_unindex (w : World) (evs : list Event) : Prop :=
  ∀ i, EvClose i ∈ evs →
       has_col colName (disk w) i ∧ EvUnindex i colName idxPath ∈ evs.

Lemma closes_after_unindex_app w evs new :
  closes_after_unindex w evs → closes_after_unindex w new →
  closes_after_unindex w (evs ++ new).
Proof.
  intros H1 H2 i Hin. apply elem_of_app in Hin as [Hin|Hin].
  - destruct (H1 i Hin). split; [done|]. apply elem_of_app. by left.
  - destruct (H2 i Hin). split; [done|]. apply elem_of_app. by right.
Qed.

(** C10.  Unindex closes a shard only in the turn that removed the index
    there.  On a shard without the collection the turn ends with the handle
    still open, so when Unindex returns without error the handles of all such
    shards are left open, none of them closed. *)
Theorem Unindex_leaves_skipped_handles_open w r w' :
  Unindex E colName idxPath w = (r, w') →
  ∃ evs, log w' = log w ++ evs ∧
    closes_after_unindex w evs ∧
    (r = Ok tt →
       handles w' = handles w ++
         filter (λ i, ¬ has_col colName (disk w) i) (seq 0 (nProcs w)) ∧
       ∀ i, i < nProcs w → ¬ has_col colName (disk w) i →
            EvOpenDB i ∈ evs ∧ EvClose i ∉ evs).
Proof.
  rewrite Unindex_unfold. unfold nProcs. intros Hrun.
  pose (I := λ (done : list nat) (w1 : World),
    (∀ j, length done ≤ j → disk w1 !! j = disk w !! j) ∧
    ∃ evs, log w1 = log w ++ evs ∧ closes_after_unindex w evs ∧
      handles w1 = handles w ++ filter (λ i, ¬ has_col colName (disk w) i) done ∧
      ∀ i, i ∈ done → ¬ has_col colName (disk w) i → EvOpenDB i ∈ evs).
  pose (Q := λ (_ : Res unit) (w2 : World),
    ∃ evs, log w2 = log w ++ evs ∧ closes_after_unindex w evs).
  assert (H : match r with Ok _ => I (seq 0 (length (disk w))) w' | _ => Q r w' end).
  { apply (forM_rule I Q (Unindex_turn E colName idxPath)
             (seq 0 (length (disk w)))) with (w := w) (w' := w'); [| |done].
    2:{ split; [done|]. exists []. rewrite app_nil_r.
        split; [done|]. split; [intros i Hi; by apply elem_of_nil in Hi|].
        split; [by rewrite app_nil_r|]. intros i Hi. by apply elem_of_nil in Hi. }
    clear r w' Hrun.
    intros done x rest w1 r1 w2 Hl (Hd & evs & Hlog & HP & Hh & Ho) Hturn.
    apply seq_split_at in Hl as (-> & Hlt & _).
    assert (Hdk : disk w1 !! length done = disk w !! length done) by (by apply Hd).
    apply Unindex_turn_inv in Hturn
      as [(e & -> & Hl2 & Hd2 & Hh2)|[(-> & Hno & Hl2 & Hd2 & Hh2)|
          [(Hne & Hhas & Hl2 & Hd2)|(Hhas & Hl2 & Hlen2 & Hd2 & Hdk2 & Hr)]]].
    - exists (evs ++ [EvOpenDB (length done)]). split; [by rewrite Hl2, Hlog, app_assoc|].
      apply closes_after_unindex_app; [done|]. intros i Hi. by not_listed Hi.
    - split.
      { intros j Hj. rewrite Hd2. apply Hd. rewrite length_app in Hj. simpl in Hj. lia. }
      exists (evs ++ [EvOpenDB (length done)]). split; [by rewrite Hl2, Hlog, app_assoc|].
      split; [apply closes_after_unindex_app; [done|]; intros i Hi; by not_listed Hi|].
      rewrite (has_col_same _ _ _ _ Hdk) in Hno. split.
      + rewrite Hh2, Hh, filter_app, <- app_assoc. f_equal.
        rewrite filter_cons_True by done. done.
      + intros i Hi Hni. apply elem_of_app. apply elem_of_app in Hi as [Hi|Hi].
        * left. by apply Ho.
        * right. apply list_elem_of_singleton in Hi as ->. by apply list_elem_of_singleton.
    - assert (HQ : Q r1 w2).
      { exists (evs ++ [EvOpenDB (length done); EvUnindex (length done) colName idxPath]).
        split; [by rewrite Hl2, Hlog, app_assoc|].
        apply closes_after_unindex_app; [done|]. intros i Hi. by not_listed Hi. }
      destruct r1 as [[]| |]; done.
    - rewrite (has_col_same _ _ _ _ Hdk) in Hhas.
      assert (HP2 : closes_after_unindex w
                (evs ++ [EvOpenDB (length done); EvUnindex (length done) colName idxPath;
                         EvClose (length done)])).
      { apply closes_after_unindex_app; [done|]. intros i Hi.
        apply elem_of_cons in Hi as [Hi|Hi]; [discriminate|].
        apply elem_of_cons in Hi as [Hi|Hi]; [discriminate|].
        apply list_elem_of_singleton in Hi. injection Hi as ->.
        split; [done|]. apply elem_of_cons. right. apply elem_of_cons. by left. }
      destruct Hr as [[-> Hh2]|[e ->]].
      + split.
        { intros j Hj. rewrite length_app in Hj. simpl in Hj.
          rewrite Hd2 by lia. apply Hd. lia. }
        eexists. split; [by rewrite Hl2, Hlog, app_assoc|]. split; [done|]. split.
        * rewrite Hh2, Hh, filter_app. rewrite filter_cons_False by (by intros ?).
          by rewrite filter_nil, app_nil_r.
        * intros i Hi Hni. apply elem_of_app. apply elem_of_app in Hi as [Hi|Hi].
          -- left. by apply Ho.
          -- apply list_elem_of_singleton in Hi as ->. done.
      + eexists. split; [by rewrite Hl2, Hlog, app_assoc|]. done. }
  destruct r as [[]|e|].
  - destruct H as (_ & evs & Hlog & HP & Hh & Ho).
    exists evs. split; [done|]. split; [done|]. intros _. split; [done|].
    intros i Hi Hni. split.
    + apply Ho; [|done]. apply elem_of_seq. lia.
    + intros Hc. by apply HP in Hc as [? _].
  - destruct H as (evs & Hlog & HP). exists evs. split; [done|]. split; [done|].
    intros [=].
  - destruct H as (evs & Hlog & HP). exists evs. split; [done|]. split; [done|].
    intros [=].
Qed.

End UnindexHandles.

Lemma Unindex_leaves_skipped_handles_open_witness :
  ∃ evs, log (Unindex env_ok "c" ["a"] ws_gap).2 = log ws_gap ++ evs ∧
    closes_after_unindex "c" ["a"] ws_gap evs ∧
    ((Unindex env_ok "c" ["a"] ws_gap).1 = Ok tt →
       handles (Unindex env_ok "c" ["a"] ws_gap).2 = handles ws_gap ++
         filter (λ i, ¬ has_col "c" (disk ws_gap) i) (seq 0 (nProcs ws_gap)) ∧
       ∀ i, i < nProcs ws_gap → ¬ has_col "c" (disk ws_gap) i →
            EvOpenDB i ∈ evs ∧ EvClose i ∉ evs).
Proof.
  apply (Unindex_leaves_skipped_handles_open env_ok "c" ["a"] ws_gap).
  vm_compute. reflexivity.
Defined.

(** ** The phases, put together *)

Lemma foldl_snoc_id {A} (l acc : list A) :
  foldl (λ acc x, acc ++ [x]) acc l = acc ++ l.
Proof.
  revert acc. induction l as [|x l IH]; intros acc; simpl.
  - by rewrite app_nil_r.
  - by rewrite IH, <- app_assoc.
Qed.

Section Unfold.

Variable E : Collab.

Lemma Index_unfold colName idxPath w :
  Index E colName idxPath w =
  (forM_ (seq 0 (nProcs w)) (Index_turn E colName idxPath) ;;
   Index_reindex E colName idxPath) w.
Proof. reflexivity. Qed.

Lemma Scrub_unfold colName w :
  Scrub E colName w =
  match colNameLookup (schema w) !! colName with
  | None => (Fail "Collection does not exist", w)
  | Some colID =>
      (now ← Now E;
       forAllDBsDo E (Scrub_create_action E (tmp_name colName now)
                        (default [] (indexPaths (schema w) !! colID))) ;;
       Scrub_reload_migrate E colName (tmp_name colName now) ;;
       Scrub_swap E colName (tmp_name colName now)) w
  end.
Proof.
  unfold Scrub, reqMaintAccess. rewrite (run_bind get). unfold get at 1. cbv beta iota.
  destruct (colNameLookup (schema w) !! colName) as [colID|]; [|done].
  rewrite (foldl_snoc_id _ []). cbn [app].
  apply bind_cong_run. intros now w0 _. cbv beta zeta.
  unfold Scrub_swap.
  apply bind_cong_run. intros [] w1 _. cbv beta.
  unfold Scrub_reload_migrate. rewrite bind_assoc_run.
  apply bind_cong_run. intros [] w2 _. cbv beta.
  rewrite bind_assoc_run, !(run_bind get). unfold get. cbv beta iota.
  destruct (colNameLookup (schema w2) !! _); [|done].
  unfold Scrub_migrate. by rewrite bind_assoc_run.
Qed.

End Unfold.

(** ** Calls to the servers *)

(** [w'] differs from [w] by calls that satisfy [P], none of which touched the
    shard directories or the open handles. *)
Definition calls_only (P : Event → Prop) (w w' : World) : Prop :=
  id w' = id w ∧ disk w' = disk w ∧ handles w' = handles w ∧
  ∃ evs, log w' = log w ++ evs ∧ Forall P evs.

#[global] Instance calls_only_preorder P : PreOrder (calls_only P).
Proof.
  split.
  - intros w. repeat split; auto. exists []. split; [by rewrite app_nil_r | constructor].
  - intros w1 w2 w3 (Hi1 & Hd1 & Hh1 & evs1 & Hg1 & Ho1)
                    (Hi2 & Hd2 & Hh2 & evs2 & Hg2 & Ho2).
    repeat split; try congruence.
    exists (evs1 ++ evs2). split.
    + by rewrite Hg2, Hg1, app_assoc.
    + by apply Forall_app.
Qed.

Lemma calls_only_weaken (P P' : Event → Prop) w w' :
  (∀ ev, P ev → P' ev) → calls_only P w w' → calls_only P' w w'.
Proof.
  intros HP (Hi & Hd & Hh & evs & Hl & Hf). repeat split; auto.
  exists evs. split; [done|]. eapply Forall_impl; eauto.
Qed.

Section Wire.

Variable E : Collab.
Variable P : Event → Prop.

Lemma calls_only_log ev w : P ev → calls_only P w (set_log (log w ++ [ev]) w).
Proof.
  intros HP. repeat split; auto. exists [ev]. split; [done|]. by constructor.
Qed.

Lemma calls_only_schema s w : calls_only P w (set_schema s w).
Proof.
  repeat split; auto. exists []. split; [by rewrite app_nil_r | constructor].
Qed.

Lemma tick_calls ev : P ev → preserves (calls_only P) (tick ev).
Proof. intros HP w r w' [= _ <-]. by apply calls_only_log. Qed.

Lemma io_calls ev : P ev → preserves (calls_only P) (io E ev).
Proof.
  intros HP w r w'. rewrite io_run.
  destruct (fault E _ _); intros [= _ <-]; by apply calls_only_log.
Qed.

Lemma modify_schema_calls s : preserves (calls_only P) (modify (set_schema s)).
Proof. intros w r w' [= _ <-]. apply calls_only_schema. Qed.

Lemma reloadServer_calls : P EvReload → preserves (calls_only P) (reloadServer E).
Proof.
  intros HP. unfold reloadServer. apply preserves_bind; [apply _|by apply io_calls|].
  intros n. apply preserves_bind; [apply _|apply preserves_get, _|].
  intros w. apply modify_schema_calls.
Qed.

Lemma approxDocCount_calls colName :
  P (EvApproxDocCount colName) → preserves (calls_only P) (approxDocCount E colName).
Proof.
  intros HP. unfold approxDocCount. apply preserves_bind; [apply _|by apply io_calls|].
  intros n. apply preserves_bind; [apply _|apply preserves_get, _|].
  intros w. apply preserves_ret, _.
Qed.

Lemma getDocPage_calls colName page total tolerant :
  P (EvGetDocPage colName page total tolerant) →
  preserves (calls_only P) (getDocPage E colName page total tolerant).
Proof.
  intros HP. unfold getDocPage. apply preserves_bind; [apply _|by apply io_calls|].
  intros n. apply preserves_bind; [apply _|apply preserves_get, _|].
  intros w. apply preserves_ret, _.
Qed.

Lemma insertRecovery_calls colID docID doc :
  P (EvInsertRecovery colID docID doc) →
  preserves (calls_only P) (insertRecovery E colID docID doc).
Proof.
  intros HP. unfold insertRecovery. apply preserves_bind; [apply _|by apply io_calls|].
  intros n. apply preserves_ret, _.
Qed.

Lemma sendCmd_calls shard retry op params :
  P (EvSendCmd shard retry op params) →
  preserves (calls_only P) (sendCmd E shard retry op params).
Proof.
  intros HP. unfold sendCmd. apply preserves_bind; [apply _|by apply io_calls|].
  intros n. apply preserves_ret, _.
Qed.

End Wire.

(** A call that goes to the shard servers, not to a shard store. *)
Definition to_servers (ev : Event) : Prop := ev_shard ev = None.

Section ServerPhases.

Variable E : Collab.

Lemma Index_doc_calls htIDBytes idxPath n d :
  preserves (calls_only to_servers) (Index_doc E htIDBytes idxPath n d).
Proof.
  destruct d as [docID doc]. unfold Index_doc.
  apply preserves_forM; [apply _|]. intros val.
  destruct (is_nil val); [apply preserves_ret, _|].
  destruct (decide (n = 0%Z)); [apply preserves_panic, _|].
  by apply sendCmd_calls.
Qed.

Lemma Index_pages_calls colName idxPath newHTID n :
  preserves (calls_only to_servers) (Index_pages E colName idxPath newHTID n).
Proof.
  unfold Index_pages. apply preserves_bind; [apply _|by apply approxDocCount_calls|].
  intros docCount. apply preserves_forM; [apply _|]. intros page.
  apply preserves_bind; [apply _|by apply getDocPage_calls|].
  intros docs. apply preserves_forM; [apply _|]. intros d. apply Index_doc_calls.
Qed.

Lemma Index_reindex_calls colName idxPath :
  preserves (calls_only to_servers) (Index_reindex E colName idxPath).
Proof.
  unfold Index_reindex. apply preserves_bind; [apply _|by apply reloadServer_calls|].
  intros _. apply preserves_bind; [apply _|apply preserves_get, _|].
  intros w. destruct (decide _); [apply preserves_fail, _|]. apply Index_pages_calls.
Qed.

Lemma Scrub_migrate_calls colName tmpColID :
  preserves (calls_only to_servers) (Scrub_migrate E colName tmpColID).
Proof.
  unfold Scrub_migrate. apply preserves_bind; [apply _|by apply approxDocCount_calls|].
  intros docCount. apply preserves_forM; [apply _|]. intros page.
  apply preserves_bind; [apply _|by apply getDocPage_calls|].
  intros docs. apply preserves_forM; [apply _|]. intros [docID doc].
  by apply insertRecovery_calls.
Qed.

Lemma Scrub_reload_migrate_calls colName tmpColName :
  preserves (calls_only to_servers) (Scrub_reload_migrate E colName tmpColName).
Proof.
  unfold Scrub_reload_migrate.
  apply preserves_bind; [apply _|by apply reloadServer_calls|].
  intros _. apply preserves_bind; [apply _|apply preserves_get, _|].
  intros w. destruct (colNameLookup _ !! _); [|apply preserves_fail, _].
  apply Scrub_migrate_calls.
Qed.

End ServerPhases.

(** ** Index: the loop over the shards *)

Section IndexChecks.

Variable E : Collab.
Variables (colName : string) (idxPath : list string).

(** The index is built only on shards that have the collection. *)
Definition index_where_col (w : World) (evs : list Event) : Prop :=
  ∀ i, EvBPIndex i colName idxPath ∈ evs → has_col colName (disk w) i.

Lemma index_where_col_app w evs new :
  index_where_col w evs → index_where_col w new → index_where_col w (evs ++ new).
Proof.
  intros H1 H2 i Hin. apply elem_of_app in Hin as [Hin|Hin]; auto.
Qed.

Lemma index_where_col_servers w evs :
  Forall to_servers evs → index_where_col w evs.
Proof.
  intros Hf i Hin. rewrite Forall_forall in Hf. by apply Hf in Hin.
Qed.

(** What one turn of the loop can do. *)
Lemma Index_turn_inv k w1 r w2 :
  Index_turn E colName idxPath k w1 = (r, w2) →
  (∃ e, r = Fail e ∧ log w2 = log w1 ++ [EvOpenDB k] ∧ disk w2 = disk w1 ∧
        (fault E (length (log w1)) (EvOpenDB k) = None →
         is_Some (disk w1 !! k) →
         ¬ has_col colName (disk w1) k ∧ e = "Collection does not exist" ∧
         handles w2 = handles w1 ++ [k])) ∨
  (r ≠ Ok tt ∧ has_col colName (disk w1) k ∧
     log w2 = log w1 ++ [EvOpenDB k; EvBPIndex k colName idxPath] ∧
     disk w2 = disk w1) ∨
  (has_col colName (disk w1) k ∧
     log w2 = log w1 ++ [EvOpenDB k; EvBPIndex k colName idxPath; EvClose k] ∧
     length (disk w2) = length (disk w1) ∧
     (∀ j, j ≠ k → disk w2 !! j = disk w1 !! j) ∧
     ((r = Ok tt ∧ handles w2 = handles w1) ∨ ∃ e, r = Fail e)).
Proof.
  unfold Index_turn. rewrite run_bind, OpenDB_run. cbv zeta.
  destruct (fault E _ _) as [e|].
  { intros [= <- <-]. left. exists e. split; [done|]. split; [done|]. split; [done|].
    intros [=]. }
  destruct (disk w1 !! k) as [db|] eqn:Hdb.
  2:{ intros [= <- <-]. left. eexists. split; [done|]. split; [done|]. split; [done|].
      by intros _ [? ?]. }
  rewrite run_bind, Use_run. simpl. rewrite Hdb. simpl.
  destruct (db !! colName) as [c|] eqn:Hc.
  2:{ intros [= <- <-]. left. eexists. split; [done|]. split; [done|]. split; [done|].
      intros _ _. split; [|done].
      unfold has_col. rewrite Hdb. simpl. rewrite Hc. by intros [? ?]. }
  assert (Hhas : has_col colName (disk w1) k).
  { unfold has_col. rewrite Hdb. simpl. by rewrite Hc. }
  rewrite run_bind, Use_run. simpl. rewrite Hdb. simpl. rewrite Hc.
  rewrite run_bind. simpl. rewrite store_op_run. cbv zeta. simpl.
  destruct (fault E _ _) as [e|].
  { intros [= <- <-]. right. left. simpl.
    repeat split; auto. by rewrite <- app_assoc. }
  rewrite Hdb. destruct (col_index colName idxPath db) as [e|db'].
  { intros [= <- <-]. right. left. simpl.
    repeat split; auto. by rewrite <- app_assoc. }
  rewrite Close_run. cbv zeta. simpl.
  destruct (fault E _ _) as [e|]; intros [= <- <-]; right; right; simpl.
  - split; [done|]. split; [by rewrite <- !app_assoc|].
    split; [by rewrite length_insert|].
    split; [intros j Hj; by rewrite list_lookup_insert_ne|]. eauto.
  - split; [done|]. split; [by rewrite <- !app_assoc|].
    split; [by rewrite length_insert|].
    split; [intros j Hj; by rewrite list_lookup_insert_ne|].
    left. split; [done|]. by rewrite remove_last_snoc.
Qed.

(** C6.  In every turn of its loop Index looks the collection up on the shard
    it has just opened before it builds the index there, so the index is built
    only on shards that have the collection.  When the first shard opens and
    has no such collection, Index returns the error "Collection does not exist"
    after that one open: no index is built on any shard, no shard is changed. *)
Theorem Index_checks_collection w r w' :
  Index E colName idxPath w = (r, w') →
  ∃ evs, log w' = log w ++ evs ∧
    index_where_col w evs ∧
    (is_Some (disk w !! 0) → ¬ has_col colName (disk w) 0 →
     fault E (length (log w)) (EvOpenDB 0) = None →
     r = Fail "Collection does not exist" ∧ evs = [EvOpenDB 0] ∧
     disk w' = disk w ∧ ∀ i name path, EvBPIndex i name path ∉ evs).
Proof.
  rewrite Index_unfold. unfold nProcs. intros Hrun.
  pose (guard := is_Some (disk w !! 0) ∧ ¬ has_col colName (disk w) 0 ∧
                 fault E (length (log w)) (EvOpenDB 0) = None).
  pose (I := λ (done : list nat) (w1 : World),
    (∀ j, length done ≤ j → disk w1 !! j = disk w !! j) ∧
    ∃ evs, log w1 = log w ++ evs ∧ index_where_col w evs ∧
           (done = [] → evs = [] ∧ disk w1 = disk w) ∧
           (done ≠ [] → ¬ guard)).
  pose (Q := λ (r : Res unit) (w2 : World),
    ∃ evs, log w2 = log w ++ evs ∧ index_where_col w evs ∧
      (guard → r = Fail "Collection does not exist" ∧ evs = [EvOpenDB 0] ∧
               disk w2 = disk w)).
  assert (Hloop : ∀ r1 w1,
    forM_ (seq 0 (length (disk w))) (Index_turn E colName idxPath) w = (r1, w1) →
    match r1 with Ok _ => I (seq 0 (length (disk w))) w1 | _ => Q r1 w1 end).
  { intros r1 w1 H.
    apply (forM_rule I Q (Index_turn E colName idxPath)
             (seq 0 (length (disk w)))) with (w := w) (w' := w1); [| |done].
    2:{ split; [done|]. exists []. rewrite app_nil_r. split; [done|].
        split; [intros i Hi; by apply elem_of_nil in Hi|]. split; done. }
    clear. intros done x rest w1 r1 w2 Hl (Hd & evs & Hlog & HP & Hnil & Hcons) Hturn.
    apply seq_split_at in Hl as (-> & Hlt & _).
    assert (Hdk : disk w1 !! length done = disk w !! length done) by (by apply Hd).
    assert (Hnew : ∀ new : list Event,
              (∀ i, EvBPIndex i colName idxPath ∈ new →
                    i = length done ∧ has_col colName (disk w1) (length done)) →
              index_where_col w (evs ++ new)).
    { intros new Hnew. apply index_where_col_app; [done|]. intros i Hi.
      apply Hnew in Hi as [-> Hi]. by apply (has_col_same _ _ _ _ Hdk). }
    assert (Hg : done ≠ [] → ¬ guard) by done.
    apply Index_turn_inv in Hturn
      as [(e & -> & Hl2 & Hd2 & Hwhy)|[(Hne & Hhas & Hl2 & Hd2)|
          (Hhas & Hl2 & Hlen2 & Hd2 & Hr)]].
    - exists (evs ++ [EvOpenDB (length done)]). split; [by rewrite Hl2, Hlog, app_assoc|].
      split; [apply Hnew; intros i Hi; by not_listed Hi|].
      intros Hgd. destruct done as [|d0 done]; [|by destruct Hg].
      destruct (Hnil eq_refl) as [-> Hdw]. destruct Hgd as (Hs & Hno & Hf).
      rewrite Hlog, app_nil_r in Hwhy. rewrite Hdw in Hwhy.
      destruct (Hwhy Hf Hs) as (_ & -> & _). split; [done|]. split; [done|]. congruence.
    - assert (HQ : Q r1 w2).
      { exists (evs ++ [EvOpenDB (length done); EvBPIndex (length done) colName idxPath]).
        split; [by rewrite Hl2, Hlog, app_assoc|]. split.
        - apply Hnew. intros i Hi.
          apply elem_of_cons in Hi as [Hi|Hi]; [discriminate|].
          apply list_elem_of_singleton in Hi. by injection Hi as ->.
        - intros Hgd. destruct done as [|d0 done]; [|by destruct Hg].
          destruct Hgd as (_ & Hno & _). destruct Hno.
          by apply (has_col_same _ _ _ _ Hdk). }
      destruct r1 as [[]| |]; done.
    - assert (HP2 : index_where_col w
                (evs ++ [EvOpenDB (length done); EvBPIndex (length done) colName idxPath;
                         EvClose (length done)])).
      { apply Hnew. intros i Hi.
        apply elem_of_cons in Hi as [Hi|Hi]; [discriminate|].
        apply elem_of_cons in Hi as [Hi|Hi]; [by injection Hi as ->|].
        by not_listed Hi. }
      assert (Hng : ¬ guard).
      { intros Hgd. destruct done as [|d0 done]; [|by destruct Hg].
        destruct Hgd as (_ & Hno & _). destruct Hno.
        by apply (has_col_same _ _ _ _ Hdk). }
      destruct Hr as [[-> Hh2]|[e ->]].
      + split.
        { intros j Hj. rewrite length_app in Hj. simpl in Hj.
          rewrite Hd2 by lia. apply Hd. lia. }
        eexists. split; [by rewrite Hl2, Hlog, app_assoc|]. split; [done|].
        split; [|done]. intros Heq. by destruct done.
      + eexists. split; [by rewrite Hl2, Hlog, app_assoc|]. split; [done|]. done. }
  assert (Hfin : ∀ evs w2, log w2 = log w ++ evs → index_where_col w evs →
            (guard → r = Fail "Collection does not exist" ∧ evs = [EvOpenDB 0] ∧
                     disk w2 = disk w) →
            w2 = w' →
            ∃ evs, log w' = log w ++ evs ∧ index_where_col w evs ∧
              (is_Some (disk w !! 0) → ¬ has_col colName (disk w) 0 →
               fault E (length (log w)) (EvOpenDB 0) = None →
               r = Fail "Collection does not exist" ∧ evs = [EvOpenDB 0] ∧
               disk w' = disk w ∧ ∀ i name path, EvBPIndex i name path ∉ evs)).
  { intros evs w2 Hlog HP Hgd <-. exists evs. split; [done|]. split; [done|].
    intros H1 H2 H3. destruct Hgd as (Hr & He & Hd); [by repeat split|].
    split; [done|]. split; [done|]. split; [done|].
    intros i name path Hi. rewrite He in Hi. by not_listed Hi. }
  apply bind_inv in Hrun as [([] & w1 & Hl & Hre)|[(e & Hl & ->)|[Hl ->]]].
  - destruct (Hloop _ _ Hl) as (Hd & evs & Hlog & HP & Hnil & Hcons).
    destruct (Index_reindex_calls _ _ _ _ _ _ Hre) as (_ & Hd2 & _ & evs2 & Hlog2 & Hsrv).
    apply (Hfin (evs ++ evs2) w'); [by rewrite Hlog2, Hlog, app_assoc| | |done].
    + apply index_where_col_app; [done|]. by apply index_where_col_servers.
    + intros Hgd. exfalso. destruct (disk w) as [|db0 d] eqn:Hdisk.
      * destruct Hgd as ([? Hs] & _). by rewrite lookup_nil in Hs.
      * by apply Hcons.
  - destruct (Hloop _ _ Hl) as (evs & Hlog & HP & Hgd). by apply (Hfin evs w').
  - destruct (Hloop _ _ Hl) as (evs & Hlog & HP & Hgd). by apply (Hfin evs w').
Qed.

End IndexChecks.

Lemma Index_checks_collection_witness :
  (Index env_ok "c" ["z"] ws_gap0).1 = Fail "Collection does not exist" ∧
  log (Index env_ok "c" ["z"] ws_gap0).2 = [EvOpenDB 0] ∧
  disk (Index env_ok "c" ["z"] ws_gap0).2 = disk ws_gap0.
Proof.
  destruct (Index_checks_collection env_ok "c" ["z"] ws_gap0
              (Index env_ok "c" ["z"] ws_gap0).1 (Index env_ok "c" ["z"] ws_gap0).2)
    as (evs & Hlog & _ & Hfirst).
  - vm_compute. reflexivity.
  - destruct Hfirst as (Hr & Hevs & Hd & _).
    + eexists. reflexivity.
    + vm_compute. intros [c Hc]. discriminate Hc.
    + reflexivity.
    + split; [exact Hr|]. split; [|exact Hd].
      rewrite Hlog, Hevs. reflexivity.
Defined.

(** ** Calls of a kind *)

(** The calls made from [w] to [w'] all satisfy [P]. *)
Definition log_only (P : Event → Prop) (w w' : World) : Prop :=
  ∃ evs, log w' = log w ++ evs ∧ Forall P evs.

#[global] Instance log_only_preorder P : PreOrder (log_only P).
Proof.
  split.
  - intros w. exists []. split; [by rewrite app_nil_r | constructor].
  - intros w1 w2 w3 (evs1 & Hg1 & Ho1) (evs2 & Hg2 & Ho2).
    exists (evs1 ++ evs2). split.
    + by rewrite Hg2, Hg1, app_assoc.
    + by apply Forall_app.
Qed.

Section LogOnly.

Variable E : Collab.
Variable P : Event → Prop.

Lemma store_op_log i ev f : P ev → preserves (log_only P) (store_op E i ev f).
Proof.
  intros HP w r w'. rewrite store_op_run. cbv zeta.
  assert (H1 : log_only P w (set_log (log w ++ [ev]) w)).
  { exists [ev]. split; [done|]. by constructor. }
  destruct (fault E _ ev); [by intros [= _ <-]|].
  destruct (disk w !! i) as [db|]; [|by intros [= _ <-]].
  destruct (f db) as [e|db']; by intros [= _ <-].
Qed.

Lemma OpenDB_log i : P (EvOpenDB i) → preserves (log_only P) (OpenDB E i).
Proof.
  intros HP w r w'. rewrite OpenDB_run. cbv zeta.
  assert (H1 : log_only P w (set_log (log w ++ [EvOpenDB i]) w)).
  { exists [EvOpenDB i]. split; [done|]. by constructor. }
  destruct (fault E _ _); [by intros [= _ <-]|].
  destruct (disk w !! i) as [db|]; by intros [= _ <-].
Qed.

Lemma Close_log i : P (EvClose i) → preserves (log_only P) (Close E i).
Proof.
  intros HP w r w'. rewrite Close_run. cbv zeta.
  assert (H1 : log_only P w (set_log (log w ++ [EvClose i]) w)).
  { exists [EvClose i]. split; [done|]. by constructor. }
  destruct (fault E _ _); by intros [= _ <-].
Qed.

Lemma Use_log i name : preserves (log_only P) (Use i name).
Proof. intros w r w'. rewrite Use_run. intros [= _ <-]. reflexivity. Qed.

Lemma forAllDBsDo_log fun_ :
  (∀ i, P (EvOpenDB i)) → (∀ i, P (EvClose i)) →
  (∀ i, preserves (log_only P) (fun_ i)) →
  preserves (log_only P) (forAllDBsDo E fun_).
Proof.
  intros Ho Hc Hf. unfold forAllDBsDo.
  apply preserves_bind; [apply _|apply preserves_get, _|]. intros w.
  apply preserves_forM; [apply _|]. intros i.
  apply preserves_bind; [apply _|by apply OpenDB_log|]. intros j.
  apply preserves_bind; [apply _|by apply Hf|]. intros _. by apply Close_log.
Qed.

Lemma calls_only_log_only w w' : calls_only P w w' → log_only P w w'.
Proof. by intros (_ & _ & _ & H). Qed.

End LogOnly.

(** ** Reload *)

(** The calls of Index's loop over the shards. *)
Definition index_call (colName : string) (idxPath : list string) (ev : Event) : Prop :=
  match ev with
  | EvOpenDB _ | EvClose _ => True
  | EvBPIndex _ name path => name = colName ∧ path = idxPath
  | _ => False
  end.

(** The calls of Scrub's first uniform application. *)
Definition create_call (tmpColName : string) (ev : Event) : Prop :=
  match ev with
  | EvOpenDB _ | EvClose _ => True
  | EvCreate _ name | EvBPIndex _ name _ => name = tmpColName
  | _ => False
  end.

Section Reload.

Variable E : Collab.

Lemma reloadServer_run w :
  reloadServer E w =
  match fault E (length (log w)) EvReload with
  | Some e => (Fail e, set_log (log w ++ [EvReload]) w)
  | None => (Ok tt, set_schema (srv_schema E (length (log w)) (disk w))
                      (set_log (log w ++ [EvReload]) w))
  end.
Proof.
  unfold reloadServer. rewrite run_bind, io_run. by destruct (fault E _ _).
Qed.

Lemma Index_turn_log colName idxPath i :
  preserves (log_only (index_call colName idxPath)) (Index_turn E colName idxPath i).
Proof.
  unfold Index_turn. apply preserves_bind; [apply _|by apply OpenDB_log|]. intros j.
  apply preserves_bind; [apply _|apply Use_log|]. intros col.
  destruct col; [|apply preserves_fail, _].
  intros w r w' H. apply bind_inv in H as [(col & w1 & Hu & H)|[(e & Hu & _)|[Hu _]]];
    [|by eapply Use_log..].
  apply Use_result in Hu as [-> Hcol]. revert H.
  apply preserves_bind; [apply _| |intros _; by apply Close_log].
  destruct Hcol as [-> | ->]; [apply preserves_panic, _|]. by apply store_op_log.
Qed.

Lemma Scrub_create_action_log tmpColName idxs i :
  preserves (log_only (create_call tmpColName)) (Scrub_create_action E tmpColName idxs i).
Proof.
  unfold Scrub_create_action. apply preserves_bind; [apply _|by apply store_op_log|].
  intros _. apply preserves_forM; [apply _|]. intros p w r w' H.
  apply bind_inv in H as [(col & w1 & Hu & H)|[(e & Hu & _)|[Hu _]]];
    [|by eapply Use_log..].
  apply Use_result in Hu as [-> Hcol]. revert H.
  destruct Hcol as [-> | ->]; [apply preserves_panic, _|]. by apply store_op_log.
Qed.

(** C7.  After its loop over the shards Index reloads the schema once; when
    the reloaded cache has no hash-table id for the collection and path, Index
    returns the error "New hash table is missing?!": the reload is its last
    call and no command was sent.  After it has created the temporary
    collection Scrub reloads the schema once; when the reloaded cache has no id
    for the temporary collection, Scrub returns the error "TmpCol went
    missing?!": the reload is its last call, no document was inserted, nothing
    dropped or renamed.  Neither asks for a second reload. *)
Theorem reload_must_show_what_was_created :
  (∀ colName idxPath w w1,
     forM_ (seq 0 (nProcs w)) (Index_turn E colName idxPath) w = (Ok tt, w1) →
     fault E (length (log w1)) EvReload = None →
     GetHTIDByPath E (srv_schema E (length (log w1)) (disk w1)) colName idxPath
       = (-1)%Z →
     ∃ w' evs,
       Index E colName idxPath w = (Fail "New hash table is missing?!", w') ∧
       log w' = log w ++ evs ++ [EvReload] ∧
       Forall (index_call colName idxPath) evs ∧ disk w' = disk w1) ∧
  (∀ colName colID w w1,
     colNameLookup (schema w) !! colName = Some colID →
     forAllDBsDo E
       (Scrub_create_action E (tmp_name colName (UnixNano E (length (log w))))
          (default [] (indexPaths (schema w) !! colID)))
       (set_log (log w ++ [EvNow]) w) = (Ok tt, w1) →
     fault E (length (log w1)) EvReload = None →
     colNameLookup (srv_schema E (length (log w1)) (disk w1))
       !! tmp_name colName (UnixNano E (length (log w))) = None →
     ∃ w' evs,
       Scrub E colName w = (Fail "TmpCol went missing?!", w') ∧
       log w' = log w ++ [EvNow] ++ evs ++ [EvReload] ∧
       Forall (create_call (tmp_name colName (UnixNano E (length (log w))))) evs ∧
       disk w' = disk w1).
Proof.
  split.
  - intros colName idxPath w w1 Hloop Hf Hht.
    assert (Hlog : log_only (index_call colName idxPath) w w1).
    { revert Hloop. apply preserves_forM; [apply _|]. apply Index_turn_log. }
    destruct Hlog as (evs & Hlog & Hevs).
    eexists. exists evs. rewrite Index_unfold, run_bind, Hloop.
    unfold Index_reindex. rewrite run_bind, reloadServer_run, Hf.
    rewrite run_bind. simpl. rewrite Hht. simpl.
    split; [done|]. split; [|done]. simpl. by rewrite Hlog, <- app_assoc.
  - intros colName colID w w1 Hc Hcreate Hf Htmp.
    assert (Hlog : log_only (create_call (tmp_name colName (UnixNano E (length (log w)))))
                     (set_log (log w ++ [EvNow]) w) w1).
    { revert Hcreate. apply forAllDBsDo_log; [done|done|].
      intros i. apply Scrub_create_action_log. }
    destruct Hlog as (evs & Hlog & Hevs).
    eexists. exists evs. rewrite Scrub_unfold, Hc.
    rewrite run_bind. unfold Now at 1. rewrite run_bind. simpl.
    rewrite run_bind, Hcreate. rewrite run_bind.
    unfold Scrub_reload_migrate. rewrite run_bind, reloadServer_run, Hf.
    rewrite run_bind. simpl. rewrite Htmp. simpl.
    split; [done|]. split; [|done]. simpl. rewrite Hlog. simpl.
    by rewrite <- !app_assoc.
Qed.

End Reload.

Lemma reload_must_show_what_was_created_witness :
  (∃ w' evs,
     Index env_stale "c" ["z"] ws3 = (Fail "New hash table is missing?!", w') ∧
     log w' = log ws3 ++ evs ++ [EvReload] ∧
     Forall (index_call "c" ["z"]) evs ∧
     disk w' = disk (forM_ (seq 0 (nProcs ws3)) (Index_turn env_stale "c" ["z"]) ws3).2) ∧
  (∃ w' evs,
     Scrub env_stale "c" ws3 = (Fail "TmpCol went missing?!", w') ∧
     log w' = log ws3 ++ [EvNow] ++ evs ++ [EvReload] ∧
     Forall (create_call (tmp_name "c" (UnixNano env_stale (length (log ws3))))) evs ∧
     disk w' = disk (forAllDBsDo env_stale
                       (Scrub_create_action env_stale
                          (tmp_name "c" (UnixNano env_stale (length (log ws3)))) [["a"]])
                       (set_log (log ws3 ++ [EvNow]) ws3)).2).
Proof.
  split.
  - apply (proj1 (reload_must_show_what_was_created env_stale) "c" ["z"] ws3).
    + vm_compute. reflexivity.
    + reflexivity.
    + vm_compute. reflexivity.
  - apply (proj2 (reload_must_show_what_was_created env_stale) "c" 0%Z ws3).
    + vm_compute. reflexivity.
    + vm_compute. reflexivity.
    + reflexivity.
    + vm_compute. reflexivity.
Defined.

(** ** Scrub: the temporary collection *)

Lemma string_length_app (s1 s2 : string) :
  String.length (s1 +:+ s2) = String.length s1 + String.length s2.
Proof. induction s1 as [|c s1 IH]; simpl; [done|]. by rewrite IH. Qed.

Lemma tmp_name_fresh colName now : tmp_name colName now ≠ colName.
Proof.
  intros H. apply (f_equal String.length) in H. unfold tmp_name in H.
  rewrite !string_length_app in H. simpl in H. lia.
Qed.

Section ScrubCreate.

Variable E : Collab.

Lemma store_op_Ok_inv i ev f w w' :
  store_op E i ev f w = (Ok tt, w') →
  ∃ db db', disk w !! i = Some db ∧ f db = inr db' ∧
            disk w' = <[i := db']> (disk w) ∧ log w' = log w ++ [ev].
Proof.
  rewrite store_op_run. cbv zeta. destruct (fault E _ _); [done|].
  destruct (disk w !! i) as [db|]; [|done].
  destruct (f db) as [e|db'] eqn:Hf; [done|]. intros [= <-]. eauto 10.
Qed.

(** Where the action of the create phase succeeds, the shard has gained the
    temporary collection, empty, with the snapshotted index paths; what else
    the shard holds is as before. *)
Lemma Scrub_create_action_Ok tmpColName idxs i w1 w2 db :
  Scrub_create_action E tmpColName idxs i w1 = (Ok tt, w2) →
  disk w1 !! i = Some db →
  db !! tmpColName = None ∧
  disk w2 !! i = Some (<[tmpColName := mkCol idxs []]> db).
Proof.
  unfold Scrub_create_action. intros H Hdb.
  apply bind_Ok_inv in H as ([] & w1' & Hc & Hloop).
  apply store_op_Ok_inv in Hc as (db0 & db' & Hdb0 & Hf & Hd & _).
  rewrite Hdb in Hdb0. injection Hdb0 as <-.
  unfold db_create in Hf. destruct (db !! tmpColName) eqn:Hnone; [done|].
  injection Hf as <-. split; [done|].
  pose (I := λ (done : list (list string)) (w : World),
    disk w !! i = Some (<[tmpColName := mkCol done []]> db)).
  assert (H : I idxs w2).
  { refine (forM_rule I (λ _ _, True) _ idxs _ w1' (Ok tt) w2 _ Hloop).
    2:{ unfold I. rewrite Hd. apply list_lookup_insert_eq. by eapply lookup_lt_Some. }
    intros done p rest wa r wb _ HI Hb.
    destruct r as [[]| |]; [|done|done].
    apply bind_Ok_inv in Hb as (col & wa' & Hu & Hb).
    rewrite Use_run in Hu. injection Hu as <- <-.
    unfold I in HI. rewrite HI in Hb. simpl in Hb. rewrite lookup_insert_eq in Hb.
    simpl in Hb. apply store_op_Ok_inv in Hb as (dba & dbb & Hdba & Hf & Hdb' & _).
    rewrite HI in Hdba. injection Hdba as <-.
    unfold col_index in Hf. rewrite lookup_insert_eq in Hf. simpl in Hf.
    destruct (decide (p ∈ done)); [done|]. injection Hf as <-.
    unfold I. rewrite Hdb'. rewrite list_lookup_insert_eq by (by eapply lookup_lt_Some).
    by rewrite insert_insert_eq. }
  exact H.
Qed.

End ScrubCreate.

Section ScrubFailure.

Variable E : Collab.

Lemma Scrub_create_Ok tmpColName idxs w0 w1 :
  forAllDBsDo E (Scrub_create_action E tmpColName idxs) w0 = (Ok tt, w1) →
  ∀ i db, disk w0 !! i = Some db →
    db !! tmpColName = None ∧
    disk w1 !! i = Some (<[tmpColName := mkCol idxs []]> db).
Proof.
  intros Hrun i db Hdb.
  apply forAllDBsDo_applied in Hrun;
    [|apply (uniform_action_local E), act_Scrub_create].
  destruct Hrun as (k & wk & _ & _ & Hout & Hbefore & _).
  assert (Hk : k = nProcs w0).
  { destruct Hout as [(_ & -> & _)|(_ & [(e & _ & [=] & _)|[(? & _ & _ & _ & Hne)|
                                          (? & ? & e & _ & _ & _ & [=] & _)]])]; done. }
  destruct (Hbefore i) as (wi & wa & wb & wi' & _ & _ & Hact & _ & Hda & Hdb').
  { rewrite Hk. by eapply lookup_lt_Some. }
  rewrite Hdb'. apply (Scrub_create_action_Ok E _ _ _ wa); [done|]. by rewrite Hda.
Qed.

(** C9.  When the create phase of Scrub has succeeded on every shard and the
    scrub then fails before the swap (in the reload, the look-up of the
    temporary collection, the document count, a page fetch or a recovery
    insert), Scrub returns that error with no further call to a shard store.
    Every shard is as the create phase left it: it still holds the temporary
    collection with the recreated index paths, and every other collection,
    the original one among them, is as it was before Scrub.  No call of the run
    drops or renames anything. *)
Theorem Scrub_failure_before_swap_keeps_both colName colID w w1 r w' :
  colNameLookup (schema w) !! colName = Some colID →
  forAllDBsDo E
    (Scrub_create_action E (tmp_name colName (UnixNano E (length (log w))))
       (default [] (indexPaths (schema w) !! colID)))
    (set_log (log w ++ [EvNow]) w) = (Ok tt, w1) →
  Scrub_reload_migrate E colName (tmp_name colName (UnixNano E (length (log w)))) w1
    = (r, w') →
  r ≠ Ok tt →
  Scrub E colName w = (r, w') ∧
  (∀ i db, disk w !! i = Some db →
     ∃ db', disk w' !! i = Some db' ∧
       db' !! colName = db !! colName ∧
       db' !! tmp_name colName (UnixNano E (length (log w))) =
         Some (mkCol (default [] (indexPaths (schema w) !! colID)) []) ∧
       ∀ name, name ≠ tmp_name colName (UnixNano E (length (log w))) →
               db' !! name = db !! name) ∧
  ∃ evs, log w' = log w ++ evs ∧
    Forall (λ ev, create_call (tmp_name colName (UnixNano E (length (log w)))) ev ∨
                  to_servers ev) evs ∧
    (∀ i name, EvDrop i name ∉ evs) ∧
    (∀ i oldName newName, EvRename i oldName newName ∉ evs).
Proof.
  intros Hc Hcreate Hmig Hr.
  set (tmp := tmp_name colName (UnixNano E (length (log w)))) in *.
  set (idxs := default [] (indexPaths (schema w) !! colID)) in *.
  split; [|split].
  - rewrite Scrub_unfold, Hc. rewrite run_bind. unfold Now at 1. rewrite run_bind. simpl.
    fold tmp idxs. rewrite run_bind, Hcreate, run_bind, Hmig.
    destruct r as [[]|e|]; done.
  - intros i db Hdb.
    destruct (Scrub_create_Ok _ _ _ _ Hcreate i db Hdb) as [Hnone Hd1].
    destruct (Scrub_reload_migrate_calls _ _ _ _ _ _ Hmig) as (_ & Hd2 & _).
    exists (<[tmp := mkCol idxs []]> db). rewrite Hd2. split; [done|].
    split; [|split].
    + apply lookup_insert_ne, tmp_name_fresh.
    + apply lookup_insert_eq.
    + intros name Hne. by apply lookup_insert_ne.
  - assert (H1 : log_only (λ ev, create_call tmp ev ∨ to_servers ev)
                   (set_log (log w ++ [EvNow]) w) w1).
    { revert Hcreate. apply forAllDBsDo_log; [by left|by left|].
      intros i wa ra wb Hact. apply Scrub_create_action_log in Hact.
      destruct Hact as (evs & Hl & Hf). exists evs. split; [done|].
      eapply Forall_impl; [exact Hf|]. by left. }
    destruct H1 as (evs1 & Hl1 & Hf1).
    destruct (Scrub_reload_migrate_calls _ _ _ _ _ _ Hmig) as (_ & _ & _ & evs2 & Hl2 & Hf2).
    assert (Hall : Forall (λ ev, create_call tmp ev ∨ to_servers ev)
                     (EvNow :: evs1 ++ evs2)).
    { constructor; [by right|]. apply Forall_app. split; [done|].
      eapply Forall_impl; [exact Hf2|]. by right. }
    exists (EvNow :: evs1 ++ evs2). split.
    { rewrite Hl2, Hl1. simpl. by rewrite <- !app_assoc. }
    split; [done|]. rewrite Forall_forall in Hall. split.
    + intros i name Hin. by destruct (Hall _ Hin).
    + intros i o n Hin. by destruct (Hall _ Hin).
Qed.

End ScrubFailure.

Lemma Scrub_failure_before_swap_keeps_both_witness :
  let tmp := tmp_name "c" (UnixNano env_no_insert (length (log ws3))) in
  let idxs := default [] (indexPaths (schema ws3) !! 0%Z) in
  let r := (Scrub_reload_migrate env_no_insert "c" tmp (ws3_created env_no_insert)).1 in
  let w' := (Scrub_reload_migrate env_no_insert "c" tmp (ws3_created env_no_insert)).2 in
  Scrub env_no_insert "c" ws3 = (r, w') ∧
  (∀ i db, disk ws3 !! i = Some db →
     ∃ db', disk w' !! i = Some db' ∧
       db' !! "c" = db !! "c" ∧
       db' !! tmp = Some (mkCol idxs []) ∧
       ∀ name, name ≠ tmp → db' !! name = db !! name) ∧
  ∃ evs, log w' = log ws3 ++ evs ∧
    Forall (λ ev, create_call tmp ev ∨ to_servers ev) evs ∧
    (∀ i name, EvDrop i name ∉ evs) ∧
    (∀ i oldName newName, EvRename i oldName newName ∉ evs).
Proof.
  apply (Scrub_failure_before_swap_keeps_both env_no_insert "c" 0%Z ws3
           (ws3_created env_no_insert)).
  - vm_compute. reflexivity.
  - vm_compute. reflexivity.
  - vm_compute. reflexivity.
  - vm_compute. discriminate.
Defined.

(** ** Scrub: the calls of a run that succeeds *)

Section ScrubCalls.

Variable E : Collab.

(** The log of a uniform application that succeeds, given the calls the
    action makes on a shard when it succeeds. *)
Lemma forAllDBsDo_Ok_log fun_ (acts : nat → list Event) w w' :
  shard_local fun_ →
  (∀ i w1 w2, fun_ i w1 = (Ok tt, w2) → log w2 = log w1 ++ acts i) →
  forAllDBsDo E fun_ w = (Ok tt, w') →
  length (disk w') = length (disk w) ∧
  log w' = log w ++ (seq 0 (nProcs w) ≫= λ i, EvOpenDB i :: acts i ++ [EvClose i]).
Proof.
  intros Hloc Hacts. unfold forAllDBsDo. rewrite run_bind. simpl.
  change (forM_ (seq 0 (nProcs w)) (round E fun_) w = (Ok tt, w') → ?G)
    with (forM_ (seq 0 (nProcs w)) (round E fun_) w = (Ok tt, w') → G).
  intros Hrun.
  pose (I := λ (done : list nat) (w1 : World),
    length (disk w1) = length (disk w) ∧
    log w1 = log w ++ (done ≫= λ i, EvOpenDB i :: acts i ++ [EvClose i])).
  refine (forM_rule I (λ _ _, True) _ _ _ w (Ok tt) w' _ Hrun).
  2:{ split; [done|]. simpl. by rewrite app_nil_r. }
  intros done x rest w1 r1 w2 _ (Hlen & Hlog) Hround.
  destruct r1 as [[]| |]; [|done|done].
  destruct (round_local E fun_ Hloc _ _ _ _ Hround) as (_ & _ & Hlen2 & _).
  apply round_inv in Hround as [[_ (wa & wb & Ho & Hf & Hc)]|[? _]]; [|done].
  destruct (OpenDB_Ok_inv _ _ _ _ _ Ho) as (_ & _ & _ & Hl1 & _).
  apply Hacts in Hf. destruct (Close_inv _ _ _ _ _ Hc) as (_ & Hl3 & _).
  split; [congruence|].
  rewrite Hl3, Hf, Hl1, Hlog, bind_app. simpl.
  by rewrite app_nil_r, <- !app_assoc.
Qed.

Lemma Scrub_create_action_Ok_log tmpColName idxs i w1 w2 :
  Scrub_create_action E tmpColName idxs i w1 = (Ok tt, w2) →
  log w2 = log w1 ++ EvCreate i tmpColName :: (EvBPIndex i tmpColName <$> idxs).
Proof.
  unfold Scrub_create_action. intros H.
  apply bind_Ok_inv in H as ([] & w1' & Hc & Hloop).
  apply store_op_Ok_inv in Hc as (_ & _ & _ & _ & _ & Hl1).
  pose (I := λ (done : list (list string)) (w : World),
    log w = log w1' ++ (EvBPIndex i tmpColName <$> done)).
  assert (H : I idxs w2).
  { refine (forM_rule I (λ _ _, True) _ idxs _ w1' (Ok tt) w2 _ Hloop).
    2:{ unfold I. simpl. by rewrite app_nil_r. }
    intros done p rest wa r wb _ HI Hb.
    destruct r as [[]| |]; [|done|done].
    apply bind_Ok_inv in Hb as (col & wa' & Hu & Hb).
    apply Use_result in Hu as [-> [-> | ->]]; [done|]. simpl in Hb.
    apply store_op_Ok_inv in Hb as (_ & _ & _ & _ & _ & Hl).
    unfold I in *. rewrite Hl, HI, fmap_app. simpl. by rewrite <- app_assoc. }
  unfold I in H. rewrite H, Hl1. by rewrite <- app_assoc.
Qed.

Lemma Scrub_swap_action_Ok_log colName tmpColName i w1 w2 :
  Scrub_swap_action E colName tmpColName i w1 = (Ok tt, w2) →
  log w2 = log w1 ++ [EvDrop i colName; EvRename i tmpColName colName].
Proof.
  unfold Scrub_swap_action. intros H.
  apply bind_Ok_inv in H as ([] & w1' & Hd & Hr).
  apply store_op_Ok_inv in Hd as (_ & _ & _ & _ & _ & Hl1).
  apply store_op_Ok_inv in Hr as (_ & _ & _ & _ & _ & Hl2).
  rewrite Hl2, Hl1. by rewrite <- app_assoc.
Qed.

(** C3, as the code has it.  Scrub names its temporary collection
    scrub-<original>-<nanosecond timestamp>.  In one uniform application it
    opens each shard, creates the temporary collection there, recreates every
    snapshotted index path on it in the order of the snapshot, and closes the
    shard, before it goes on to the next shard.  After the reload and the
    migration, which call the servers only, a second uniform application drops
    the original collection and then renames the temporary collection to the
    original name, shard by shard; a reload ends the run. *)
Theorem Scrub_calls_in_order colName w w' :
  Scrub E colName w = (Ok tt, w') →
  let tmp := "scrub-" +:+ colName +:+ "-" +:+ Itoa (UnixNano E (length (log w))) in
  let idxs := default [] (colNameLookup (schema w) !! colName ≫=
                          λ colID, indexPaths (schema w) !! colID) in
  ∃ mid, Forall to_servers mid ∧
    log w' = log w ++ [EvNow] ++
             (seq 0 (nProcs w) ≫= Scrub_create_calls tmp idxs) ++ mid ++
             (seq 0 (nProcs w) ≫= Scrub_swap_calls colName tmp) ++ [EvReload].
Proof.
  rewrite Scrub_unfold.
  destruct (colNameLookup (schema w) !! colName) as [colID|] eqn:Hc; [|done].
  simpl. fold (tmp_name colName (UnixNano E (length (log w)))).
  set (tmp := tmp_name colName (UnixNano E (length (log w)))).
  set (idxs := default [] (indexPaths (schema w) !! colID)).
  intros H. apply bind_Ok_inv in H as (now & w0 & Hnow & H).
  injection Hnow as <- <-. fold tmp in H.
  apply bind_Ok_inv in H as ([] & w1 & Hcreate & H).
  apply bind_Ok_inv in H as ([] & w2 & Hmig & Hswap).
  unfold Scrub_swap in Hswap.
  apply bind_Ok_inv in Hswap as ([] & w3 & Hswap & Hre).
  apply forAllDBsDo_Ok_log
    with (acts := λ i, EvCreate i tmp :: (EvBPIndex i tmp <$> idxs)) in Hcreate
    as [Hlen1 Hl1].
  2:{ apply (uniform_action_local E), act_Scrub_create. }
  2:{ intros i. apply Scrub_create_action_Ok_log. }
  destruct (Scrub_reload_migrate_calls _ _ _ _ _ _ Hmig) as (_ & Hd2 & _ & mid & Hl2 & Hmid).
  apply forAllDBsDo_Ok_log
    with (acts := λ i, [EvDrop i colName; EvRename i tmp colName]) in Hswap
    as [_ Hl3].
  2:{ apply (uniform_action_local E), act_Scrub_swap. }
  2:{ intros i. apply Scrub_swap_action_Ok_log. }
  rewrite reloadServer_run in Hre. destruct (fault E _ _); [done|].
  injection Hre as <-. exists mid. split; [done|]. simpl.
  rewrite Hl3, Hl2, Hl1. simpl. unfold nProcs in *. rewrite Hd2, Hlen1. simpl.
  by rewrite <- !app_assoc.
Qed.

End ScrubCalls.

Lemma Scrub_calls_in_order_witness :
  let tmp := "scrub-" +:+ "c" +:+ "-" +:+ Itoa (UnixNano env_ok (length (log ws3))) in
  let idxs := default [] (colNameLookup (schema ws3) !! "c" ≫=
                          λ colID, indexPaths (schema ws3) !! colID) in
  ∃ mid, Forall to_servers mid ∧
    log (Scrub env_ok "c" ws3).2 = log ws3 ++ [EvNow] ++
             (seq 0 (nProcs ws3) ≫= Scrub_create_calls tmp idxs) ++ mid ++
             (seq 0 (nProcs ws3) ≫= Scrub_swap_calls "c" tmp) ++ [EvReload].
Proof.
  apply (Scrub_calls_in_order env_ok "c" ws3).
  vm_compute. reflexivity.
Defined.

(** C3 as stated fails: with three shards and one index path Scrub indexes the
    temporary collection of shard 0 before that collection exists on shard 1.
    Had every index path a uniform application of its own, the nine calls that
    create the collection on all shards would come first. *)
Lemma Scrub_create_is_not_per_path :
  ∃ w', Scrub env_ok "c" ws3 = (Ok tt, w') ∧
    take 13 (log w') =
      [EvNow;
       EvOpenDB 0; EvCreate 0 tmp3; EvBPIndex 0 tmp3 ["a"]; EvClose 0;
       EvOpenDB 1; EvCreate 1 tmp3; EvBPIndex 1 tmp3 ["a"]; EvClose 1;
       EvOpenDB 2; EvCreate 2 tmp3; EvBPIndex 2 tmp3 ["a"]; EvClose 2] ∧
    log (Scrub_create_per_path env_ok tmp3 [["a"]] (set_log [EvNow] ws3)).2 =
      [EvNow;
       EvOpenDB 0; EvCreate 0 tmp3; EvClose 0;
       EvOpenDB 1; EvCreate 1 tmp3; EvClose 1;
       EvOpenDB 2; EvCreate 2 tmp3; EvClose 2;
       EvOpenDB 0; EvBPIndex 0 tmp3 ["a"]; EvClose 0;
       EvOpenDB 1; EvBPIndex 1 tmp3 ["a"]; EvClose 1;
       EvOpenDB 2; EvBPIndex 2 tmp3 ["a"]; EvClose 2] ∧
    take 13 (log w') ≠
      take 13 (log (Scrub_create_per_path env_ok tmp3 [["a"]] (set_log [EvNow] ws3)).2).
Proof.
  eexists. split; [vm_compute; reflexivity|].
  split; [vm_compute; reflexivity|]. split; [vm_compute; reflexivity|].
  vm_compute. discriminate.
Qed.

(** ** Fixed-width integers *)

Lemma be_value_snoc bs b : be_value (bs ++ [b]) = (be_value bs * 256 + b)%Z.
Proof. unfold be_value. by rewrite foldl_app. Qed.

Lemma be_value_be_bytes n x :
  be_value (be_bytes n x) = (x mod 256 ^ Z.of_nat n)%Z.
Proof.
  revert x. induction n as [|n IH]; intros x.
  - simpl. by rewrite Z.mod_1_r.
  - cbn [be_bytes]. rewrite be_value_snoc, IH.
    rewrite Nat2Z.inj_succ, Z.pow_succ_r by lia.
    assert (0 < 256 ^ Z.of_nat n)%Z by (apply Z.pow_pos_nonneg; lia).
    rewrite (Z.rem_mul_r x 256 (256 ^ Z.of_nat n)) by lia. lia.
Qed.

Lemma Buint64_value x : be_value (Buint64 x) = uint64 x.
Proof.
  unfold Buint64, uint64. rewrite be_value_be_bytes.
  change (256 ^ Z.of_nat 8)%Z with (2 ^ 64)%Z. apply Z.mod_mod. lia.
Qed.

Lemma Bint32_value x : be_value (Bint32 x) = (x mod 2 ^ 32)%Z.
Proof.
  unfold Bint32. rewrite be_value_be_bytes.
  change (256 ^ Z.of_nat 4)%Z with (2 ^ 32)%Z. apply Z.mod_mod. lia.
Qed.

Lemma uint64_range x : (0 ≤ uint64 x < 2 ^ 64)%Z.
Proof. unfold uint64. apply Z.mod_pos_bound. lia. Qed.

Lemma uint64_small x : (0 ≤ x < 2 ^ 64)%Z → uint64 x = x.
Proof. intros H. unfold uint64. by apply Z.mod_small. Qed.

Lemma int64_small x : (0 ≤ x < 2 ^ 63)%Z → int64 x = x.
Proof. intros H. unfold int64. rewrite Z.mod_small; lia. Qed.

(** [docCount/10000 + 1] does not wrap around. *)
Lemma totalPages_no_wrap x :
  uint64 (uint64 x / 10000 + 1) = totalPages (uint64 x).
Proof.
  unfold totalPages. apply uint64_small.
  pose proof (uint64_range x) as Hr.
  change (2 ^ 64)%Z with 18446744073709551616%Z in *.
  assert (0 ≤ uint64 x / 10000 ≤ 1844674407370955)%Z; [|lia].
  split; [apply Z.div_pos; lia|].
  change 1844674407370955%Z with (18446744073709551615 / 10000)%Z.
  apply Z.div_le_mono; lia.
Qed.

(** ** Paging through a collection *)

Section Paging.

Variable E : Collab.

Lemma approxDocCount_Ok_inv colName w docCount w' :
  approxDocCount E colName w = (Ok docCount, w') →
  docCount = uint64 (srv_docCount E (disk w) colName) ∧
  disk w' = disk w ∧ schema w' = schema w ∧
  log w' = log w ++ [EvApproxDocCount colName].
Proof.
  unfold approxDocCount. rewrite run_bind, io_run.
  destruct (fault E _ _); [done|]. simpl. by intros [= <- <-].
Qed.

Lemma getDocPage_Ok_inv colName page total tolerant w docs w' :
  getDocPage E colName page total tolerant w = (Ok docs, w') →
  docs = srv_docPage E (disk w) colName page total tolerant ∧
  disk w' = disk w ∧ schema w' = schema w ∧
  log w' = log w ++ [EvGetDocPage colName page total tolerant].
Proof.
  unfold getDocPage. rewrite run_bind, io_run.
  destruct (fault E _ _); [done|]. simpl. by intros [= <- <-].
Qed.

(** A call to the servers that is no reload leaves the schema cache alone. *)
Definition same_schema (w w' : World) : Prop := schema w' = schema w.

#[local] Instance same_schema_preorder : PreOrder same_schema.
Proof. split; [by intros w|]. intros w1 w2 w3 H1 H2. unfold same_schema in *. congruence. Qed.

Lemma io_then_schema {A} ev (k : nat → M A) :
  (∀ n w, (k n w).2 = w) → preserves same_schema (io E ev ≫= k).
Proof.
  intros Hk w r w'. rewrite run_bind, io_run.
  destruct (fault E _ _); [by intros [= _ <-]|].
  intros H. apply (f_equal snd) in H. simpl in H. rewrite Hk in H. by subst w'.
Qed.

Lemma Index_pages_schema colName idxPath htid n :
  preserves same_schema (Index_pages E colName idxPath htid n).
Proof.
  unfold Index_pages. apply preserves_bind; [apply _|by apply io_then_schema|].
  intros docCount. apply preserves_forM; [apply _|]. intros page.
  apply preserves_bind; [apply _|by apply io_then_schema|].
  intros docs. apply preserves_forM; [apply _|]. intros [docID doc].
  apply preserves_forM; [apply _|]. intros val.
  destruct (is_nil val); [apply preserves_ret, _|].
  destruct (decide _); [apply preserves_panic, _|]. by apply io_then_schema.
Qed.

(** The loop over the pages, where [body] handles a document by calls to the
    servers, [per_doc] when it succeeds. *)
Lemma page_loop_Ok_log colName total (body : Z * Value → M unit)
    (per_doc : Z * Value → list Event) w1 w2 :
  (∀ d, preserves (calls_only to_servers) (body d)) →
  (∀ d wa wb, body d wa = (Ok tt, wb) → log wb = log wa ++ per_doc d) →
  forM_ (pages total) (λ page,
    docs ← getDocPage E colName page total true;
    forM_ docs body) w1 = (Ok tt, w2) →
  disk w2 = disk w1 ∧
  log w2 = log w1 ++ scan_calls E colName total per_doc (disk w1).
Proof.
  intros Hsrv Hdoc Hrun. unfold scan_calls.
  pose (I := λ (done : list Z) (w : World),
    disk w = disk w1 ∧
    log w = log w1 ++ (done ≫= λ pg,
      EvGetDocPage colName pg total true ::
        (page_docs E (disk w1) colName total pg ≫= per_doc))).
  refine (forM_rule I (λ _ _, True) _ _ _ w1 (Ok tt) w2 _ Hrun).
  2:{ split; [done|]. simpl. by rewrite app_nil_r. }
  intros done pg rest wa r wb _ (Hd & Hl) Hb.
  destruct r as [[]| |]; [|done|done].
  apply bind_Ok_inv in Hb as (docs & wa' & Hget & Hdocs).
  apply getDocPage_Ok_inv in Hget as (-> & Hd' & _ & Hl').
  pose (J := λ (done' : list (Z * Value)) (w : World),
    disk w = disk w1 ∧ log w = log wa' ++ (done' ≫= per_doc)).
  assert (HJ : J (srv_docPage E (disk wa) colName pg total true) wb).
  { refine (forM_rule J (λ _ _, True) _ _ _ wa' (Ok tt) wb _ Hdocs).
    2:{ split; [congruence|]. simpl. by rewrite app_nil_r. }
    intros done' d rest' wc r wd _ (Hdc & Hlc) Hbd.
    destruct r as [[]| |]; [|done|done].
    destruct (Hsrv _ _ _ _ Hbd) as (_ & Hdd & _).
    split; [congruence|]. rewrite (Hdoc _ _ _ Hbd), Hlc, bind_app. simpl.
    by rewrite app_nil_r, <- app_assoc. }
  destruct HJ as (Hdb & Hlb). split; [done|].
  rewrite Hlb, Hl', Hl, bind_app. simpl. rewrite app_nil_r, Hd.
  by rewrite <- !app_assoc.
Qed.

Lemma Scrub_migrate_Ok_log colName tmpColID w1 w2 :
  Scrub_migrate E colName tmpColID w1 = (Ok tt, w2) →
  log w2 = log w1 ++ EvApproxDocCount colName ::
    scan_calls E colName (totalPages (uint64 (srv_docCount E (disk w1) colName)))
      (doc_insert tmpColID) (disk w1).
Proof.
  unfold Scrub_migrate. intros H.
  apply bind_Ok_inv in H as (docCount & w1' & Hcount & Hloop).
  apply approxDocCount_Ok_inv in Hcount as (-> & Hd & _ & Hl).
  rewrite totalPages_no_wrap in Hloop.
  apply page_loop_Ok_log with (per_doc := doc_insert tmpColID) in Hloop as [_ Hl2].
  - rewrite Hl2, Hl, Hd. by rewrite <- app_assoc.
  - intros [docID doc]. by apply insertRecovery_calls.
  - intros [docID doc] wa wb Hi. unfold insertRecovery in Hi.
    apply bind_Ok_inv in Hi as (n & wa' & Hio & Hret). injection Hret as <-.
    rewrite io_run in Hio. destruct (fault E _ _); [done|]. by injection Hio as _ <-.
Qed.

(** The commands for one document, as [Index] words them. *)
Lemma Index_doc_Ok_log htid idxPath N d wa wb :
  0 < N → (Z.of_nat N < 2 ^ 63)%Z →
  Index_doc E (Bint32 htid) idxPath (uint64 (Z.of_nat N)) d wa = (Ok tt, wb) →
  log wb = log wa ++ doc_puts E N htid idxPath d.
Proof.
  intros HN0 HN. destruct d as [docID doc]. unfold Index_doc, doc_puts. simpl.
  rewrite uint64_small by lia. intros Hrun.
  pose (I := λ (done : list Value) (w : World),
    log w = log wa ++
      (put_cmd E N htid docID <$> filter (λ val, is_nil val = false) done)).
  refine (forM_rule I (λ _ _, True) _ _ _ wa (Ok tt) wb _ Hrun).
  2:{ unfold I. simpl. by rewrite app_nil_r. }
  intros done val rest wc r wd _ HI Hb. destruct r as [[]| |]; [|done|done].
  unfold I in *. rewrite filter_app.
  destruct (is_nil val) eqn:Hnil.
  - injection Hb as <-. rewrite filter_cons_False by (by rewrite Hnil).
    by rewrite filter_nil, app_nil_r.
  - rewrite filter_cons_True by done. rewrite filter_nil, fmap_app. simpl.
    destruct (decide (Z.of_nat N = 0%Z)); [lia|].
    unfold sendCmd in Hb. apply bind_Ok_inv in Hb as (n' & wc' & Hio & Hret).
    injection Hret as <-. rewrite io_run in Hio.
    destruct (fault E _ _); [done|]. injection Hio as _ <-. simpl.
    rewrite HI, <- app_assoc. unfold put_cmd, route. fold (hash_of E val).
    rewrite int64_small; [done|].
    pose proof (Z.mod_pos_bound (hash_of E val) (Z.of_nat N)). lia.
Qed.

Lemma Index_pages_Ok_log colName idxPath htid N w1 w2 :
  0 < N → (Z.of_nat N < 2 ^ 63)%Z →
  Index_pages E colName idxPath htid (uint64 (Z.of_nat N)) w1 = (Ok tt, w2) →
  disk w2 = disk w1 ∧ schema w2 = schema w1 ∧
  log w2 = log w1 ++ EvApproxDocCount colName ::
    scan_calls E colName (totalPages (uint64 (srv_docCount E (disk w1) colName)))
      (doc_puts E N htid idxPath) (disk w1).
Proof.
  intros HN0 HN. unfold Index_pages. intros H.
  pose proof (Index_pages_schema _ _ _ _ _ _ _ H) as Hs.
  apply bind_Ok_inv in H as (docCount & w1' & Hcount & Hloop).
  apply approxDocCount_Ok_inv in Hcount as (-> & Hd & _ & Hl).
  rewrite totalPages_no_wrap in Hloop.
  apply page_loop_Ok_log with (per_doc := doc_puts E N htid idxPath) in Hloop as [Hd2 Hl2].
  - split; [congruence|]. split; [done|]. rewrite Hl2, Hl, Hd. by rewrite <- app_assoc.
  - intros d. apply Index_doc_calls.
  - intros d wa wb. by apply Index_doc_Ok_log.
Qed.

End Paging.

(** ** Index: the documents are put into the new index *)

Lemma new_calls_app w w' evs : log w' = log w ++ evs → new_calls w w' = evs.
Proof. intros H. unfold new_calls. by rewrite H, drop_app_length. Qed.

Lemma omap_bind_list {A B C} (f : B → option C) (g : A → list B) (l : list A) :
  omap f (l ≫= g) = l ≫= λ x, omap f (g x).
Proof.
  induction l as [|x l IH]; [done|]. csimpl. by rewrite omap_app, IH.
Qed.

Lemma routed_index_calls colName idxPath evs :
  Forall (index_call colName idxPath) evs → omap routed evs = [].
Proof.
  induction 1 as [|ev evs Hev _ IH]; [done|].
  destruct ev; try done; csimpl; exact IH.
Qed.

Section IndexRouting.

Variable E : Collab.

Lemma routed_doc_puts N htid idxPath d :
  omap routed (doc_puts E N htid idxPath d) = doc_routes E N idxPath d.
Proof.
  unfold doc_puts, doc_routes.
  induction (filter _ (GetIn E d.2 idxPath)) as [|val l IH]; [done|].
  csimpl. by f_equal.
Qed.

Lemma routed_scan_calls N htid colName idxPath total d :
  omap routed (scan_calls E colName total (doc_puts E N htid idxPath) d) =
  scan_routes E N colName idxPath total d.
Proof.
  unfold scan_calls, scan_routes. rewrite omap_bind_list.
  apply list_bind_ext; [|done]. intros pg. simpl. rewrite omap_bind_list.
  apply list_bind_ext; [|done]. intros doc. apply routed_doc_puts.
Qed.

Lemma Index_loop_length colName idxPath w w1 r :
  forM_ (seq 0 (nProcs w)) (Index_turn E colName idxPath) w = (r, w1) →
  length (disk w1) = length (disk w).
Proof.
  intros Hrun.
  pose (I := λ (_ : list nat) (w2 : World), length (disk w2) = length (disk w)).
  assert (H : match r with Ok _ => I (seq 0 (nProcs w)) w1 | _ => I [] w1 end).
  { refine (forM_rule I (λ _ w2, I [] w2) _ _ _ w r w1 _ Hrun); [|done].
    intros done x rest wa ra wb _ HI Hturn. unfold I in *.
    assert (length (disk wb) = length (disk wa)); [|destruct ra; congruence].
    apply Index_turn_inv in Hturn
      as [(e & _ & _ & Hd & _)|[(_ & _ & _ & Hd)|(_ & _ & Hlen & _)]]; congruence. }
  by destruct r.
Qed.

(** The log of an Index that succeeds. *)
Lemma Index_Ok_log colName idxPath w w' :
  Index E colName idxPath w = (Ok tt, w') →
  0 < nProcs w → (Z.of_nat (nProcs w) < 2 ^ 63)%Z →
  ∃ evs, Forall (index_call colName idxPath) evs ∧
    log w' = log w ++ evs ++ EvReload :: EvApproxDocCount colName ::
      scan_calls E colName
        (totalPages (uint64 (srv_docCount E (disk w') colName)))
        (doc_puts E (nProcs w) (GetHTIDByPath E (schema w') colName idxPath) idxPath)
        (disk w').
Proof.
  rewrite Index_unfold. intros H HN0 HN.
  apply bind_Ok_inv in H as ([] & w1 & Hloop & Hre).
  pose proof (Index_loop_length _ _ _ _ _ Hloop) as Hlen.
  assert (Hlog : log_only (index_call colName idxPath) w w1).
  { revert Hloop. apply preserves_forM; [apply _|]. apply Index_turn_log. }
  destruct Hlog as (evs & Hlog & Hevs). exists evs. split; [done|].
  unfold Index_reindex in Hre. apply bind_Ok_inv in Hre as ([] & w2 & Hrel & Hre).
  rewrite reloadServer_run in Hrel. destruct (fault E _ _); [done|].
  injection Hrel as <-. rewrite run_bind in Hre. simpl in Hre.
  destruct (decide _) as [|Hht]; [done|].
  unfold nProcs in Hre at 1. simpl in Hre. rewrite Hlen in Hre. fold (nProcs w) in Hre.
  apply Index_pages_Ok_log in Hre as (Hd & Hs & Hl); [|done..].
  simpl in Hd, Hs, Hl. rewrite Hd, Hs. simpl. rewrite Hl, Hlog.
  by rewrite <- !app_assoc.
Qed.

(** C2.  When Index succeeds on [N] shards, the calls that follow its reload
    are the count, then page after page the fetch of the page and, for every
    document of the page and every leaf value under the path that is not nil,
    one hash-table put: sent to shard [hash mod N], carrying the hash-table id
    of the reloaded schema, the hash of the value and the document id, each
    big-endian.  Nil values get no command.  Where a put goes depends on the
    value, the hash function and [N] alone: a second Index over the same
    documents on as many shards routes every value and document id alike. *)
Theorem Index_routes_by_hash colName idxPath w w' :
  Index E colName idxPath w = (Ok tt, w') →
  0 < nProcs w → (Z.of_nat (nProcs w) < 2 ^ 63)%Z →
  let N := nProcs w in
  let htid := GetHTIDByPath E (schema w') colName idxPath in
  let total := totalPages (uint64 (srv_docCount E (disk w') colName)) in
  (∃ evs, Forall (index_call colName idxPath) evs ∧
     new_calls w w' = evs ++ EvReload :: EvApproxDocCount colName ::
       scan_calls E colName total (doc_puts E N htid idxPath) (disk w')) ∧
  (∀ docID val,
     put_cmd E N htid docID val =
       EvSendCmd (hash_of E val mod Z.of_nat N)%Z false C_HT_PUT
         [Bint32 htid; Buint64 (hash_of E val); Buint64 docID] ∧
     (0 ≤ hash_of E val mod Z.of_nat N < Z.of_nat N)%Z ∧
     be_value (Bint32 htid) = (htid mod 2 ^ 32)%Z ∧
     be_value (Buint64 (hash_of E val)) = hash_of E val ∧
     be_value (Buint64 docID) = uint64 docID) ∧
  omap routed (new_calls w w') = scan_routes E N colName idxPath total (disk w') ∧
  (∀ v v',
     Index E colName idxPath v = (Ok tt, v') →
     nProcs v = nProcs w →
     srv_docCount E (disk v') colName = srv_docCount E (disk w') colName →
     (∀ pg, page_docs E (disk v') colName total pg =
            page_docs E (disk w') colName total pg) →
     omap routed (new_calls v v') = omap routed (new_calls w w')).
Proof.
  intros Hrun HN0 HN N htid total.
  assert (Hroutes : ∀ v v', Index E colName idxPath v = (Ok tt, v') →
            0 < nProcs v → (Z.of_nat (nProcs v) < 2 ^ 63)%Z →
            omap routed (new_calls v v') =
            scan_routes E (nProcs v) colName idxPath
              (totalPages (uint64 (srv_docCount E (disk v') colName))) (disk v')).
  { intros v v' Hv Hv0 HvN.
    destruct (Index_Ok_log _ _ _ _ Hv Hv0 HvN) as (evs & Hevs & Hlog).
    rewrite (new_calls_app _ _ _ Hlog), omap_app. simpl.
    by rewrite (routed_index_calls _ _ _ Hevs), routed_scan_calls. }
  split; [|split; [|split]].
  - destruct (Index_Ok_log _ _ _ _ Hrun HN0 HN) as (evs & Hevs & Hlog).
    exists evs. split; [done|]. by apply new_calls_app.
  - intros docID val. split; [done|]. split.
    { apply Z.mod_pos_bound. unfold N. lia. }
    split; [apply Bint32_value|]. split; [|apply Buint64_value].
    rewrite Buint64_value. apply uint64_small, uint64_range.
  - by apply Hroutes.
  - intros v v' Hv HvN Hcount Hpages.
    rewrite (Hroutes v v' Hv), (Hroutes w w' Hrun); try done; try (rewrite HvN; done).
    rewrite HvN, Hcount. fold total N. unfold scan_routes.
    apply list_bind_ext; [|done]. intros pg. by rewrite Hpages.
Qed.

End IndexRouting.

Lemma Index_routes_by_hash_witness :
  let w' := (Index env_ok "c" ["b"] ws3).2 in
  let N := nProcs ws3 in
  let htid := GetHTIDByPath env_ok (schema w') "c" ["b"] in
  let total := totalPages (uint64 (srv_docCount env_ok (disk w') "c")) in
  (∃ evs, Forall (index_call "c" ["b"]) evs ∧
     new_calls ws3 w' = evs ++ EvReload :: EvApproxDocCount "c" ::
       scan_calls env_ok "c" total (doc_puts env_ok N htid ["b"]) (disk w')) ∧
  (∀ docID val,
     put_cmd env_ok N htid docID val =
       EvSendCmd (hash_of env_ok val mod Z.of_nat N)%Z false C_HT_PUT
         [Bint32 htid; Buint64 (hash_of env_ok val); Buint64 docID] ∧
     (0 ≤ hash_of env_ok val mod Z.of_nat N < Z.of_nat N)%Z ∧
     be_value (Bint32 htid) = (htid mod 2 ^ 32)%Z ∧
     be_value (Buint64 (hash_of env_ok val)) = hash_of env_ok val ∧
     be_value (Buint64 docID) = uint64 docID) ∧
  omap routed (new_calls ws3 w') = scan_routes env_ok N "c" ["b"] total (disk w') ∧
  (∀ v v',
     Index env_ok "c" ["b"] v = (Ok tt, v') →
     nProcs v = nProcs ws3 →
     srv_docCount env_ok (disk v') "c" = srv_docCount env_ok (disk w') "c" →
     (∀ pg, page_docs env_ok (disk v') "c" total pg =
            page_docs env_ok (disk w') "c" total pg) →
     omap routed (new_calls v v') = omap routed (new_calls ws3 w')).
Proof.
  apply (Index_routes_by_hash env_ok "c" ["b"] ws3).
  - vm_compute. reflexivity.
  - vm_compute. lia.
  - vm_compute. reflexivity.
Defined.

(** In [ws3] the documents 10, 11 and 12 hold the numbers 10, 11 and 12 under
    "b"; their decimal digits sum to 97, 98 and 99, which three shards route to
    shards 1, 2 and 0.  Under "n" they hold nil: nothing is sent. *)
Example Index_ws3_puts :
  omap routed (new_calls ws3 (Index env_ok "c" ["b"] ws3).2) =
    [(1%Z, Buint64 97, Buint64 10); (2%Z, Buint64 98, Buint64 11);
     (0%Z, Buint64 99, Buint64 12)] ∧
  (Index env_ok "c" ["n"] ws3).1 = Ok tt ∧
  omap routed (new_calls ws3 (Index env_ok "c" ["n"] ws3).2) = [].
Proof. vm_compute. auto. Qed.

(** ** Pages *)

Section Pages.

Variable E : Collab.

Lemma inserted_scan_calls tmpColID colName total d :
  omap inserted_id (scan_calls E colName total (doc_insert tmpColID) d) =
  (pages total ≫= page_docs E d colName total).*1.
Proof.
  unfold scan_calls.
  induction (pages total) as [|pg l IH]; [done|]. csimpl.
  rewrite fmap_app, <- IH.
  change (omap inserted_id
            ((page_docs E d colName total pg ≫= doc_insert tmpColID) ++
             (l ≫= λ pg0, EvGetDocPage colName pg0 total true ::
                          (page_docs E d colName total pg0 ≫= doc_insert tmpColID))) =
          (page_docs E d colName total pg).*1 ++
          omap inserted_id
            (l ≫= λ pg0, EvGetDocPage colName pg0 total true ::
                         (page_docs E d colName total pg0 ≫= doc_insert tmpColID))).
  rewrite omap_app. f_equal.
  induction (page_docs E d colName total pg) as [|[docID doc] docs IHd]; [done|].
  csimpl. by f_equal.
Qed.

Lemma pages_25000 : pages (totalPages 25000) = [0; 1; 2]%Z.
Proof. reflexivity. Qed.

(** C4.  The migration of Scrub and the re-indexing of Index ask for the
    approximate document count and page through the collection alike: with
    [total = count/10000 + 1], integer division, they fetch the pages
    [0, 1, ..., total-1] in this order, each once, in tolerant mode, and handle
    every document of a page when the page has come.  A count of 25,000 gives
    the three pages 0, 1, 2.  Scrub inserts the documents the pages serve, one
    insert each, in the order served: where the scan serves every document id
    once over all pages, every id is inserted once. *)
Theorem pages_visited_in_order :
  (∀ colName tmpColID w1 w2,
     Scrub_migrate E colName tmpColID w1 = (Ok tt, w2) →
     let total := totalPages (uint64 (srv_docCount E (disk w1) colName)) in
     new_calls w1 w2 = EvApproxDocCount colName ::
       scan_calls E colName total (doc_insert tmpColID) (disk w1) ∧
     omap inserted_id (new_calls w1 w2) =
       (pages total ≫= page_docs E (disk w1) colName total).*1 ∧
     (∀ ids, (pages total ≫= page_docs E (disk w1) colName total).*1 ≡ₚ ids →
             NoDup ids →
             omap inserted_id (new_calls w1 w2) ≡ₚ ids ∧
             NoDup (omap inserted_id (new_calls w1 w2))) ∧
     (srv_docCount E (disk w1) colName = 25000%Z → pages total = [0; 1; 2]%Z)) ∧
  (∀ colName idxPath htid N w1 w2,
     0 < N → (Z.of_nat N < 2 ^ 63)%Z →
     Index_pages E colName idxPath htid (uint64 (Z.of_nat N)) w1 = (Ok tt, w2) →
     let total := totalPages (uint64 (srv_docCount E (disk w1) colName)) in
     new_calls w1 w2 = EvApproxDocCount colName ::
       scan_calls E colName total (doc_puts E N htid idxPath) (disk w1) ∧
     (srv_docCount E (disk w1) colName = 25000%Z → pages total = [0; 1; 2]%Z)) ∧
  (∀ total, length (pages total) = Z.to_nat total ∧
            ∀ i, i < Z.to_nat total → pages total !! i = Some (Z.of_nat i)).
Proof.
  split; [|split].
  3:{ intros total. unfold pages. rewrite length_fmap, length_seq. split; [done|].
      intros i Hi. by rewrite list_lookup_fmap, lookup_seq_lt. }
  - intros colName tmpColID w1 w2 Hrun total.
    apply Scrub_migrate_Ok_log in Hrun. apply new_calls_app in Hrun. fold total in Hrun.
    assert (Hids : omap inserted_id (new_calls w1 w2) =
                   (pages total ≫= page_docs E (disk w1) colName total).*1).
    { rewrite Hrun. csimpl. apply inserted_scan_calls. }
    split; [done|]. split; [done|]. split.
    + intros ids Hperm Hnd. rewrite Hids. split; [done|]. by rewrite Hperm.
    + intros H25. unfold total. rewrite H25. reflexivity.
  - intros colName idxPath htid N w1 w2 HN0 HN Hrun total.
    apply Index_pages_Ok_log in Hrun as (_ & _ & Hlog); [|done..].
    apply new_calls_app in Hlog. split; [done|].
    intros H25. unfold total. rewrite H25. reflexivity.
Qed.

End Pages.

Lemma pages_visited_in_order_witness :
  (let total := totalPages (uint64 (srv_docCount env_25000 (disk ws3) "c")) in
   let w2 := (Scrub_migrate env_25000 "c" 1 ws3).2 in
   new_calls ws3 w2 = EvApproxDocCount "c" ::
     scan_calls env_25000 "c" total (doc_insert 1) (disk ws3) ∧
   omap inserted_id (new_calls ws3 w2) =
     (pages total ≫= page_docs env_25000 (disk ws3) "c" total).*1 ∧
   (∀ ids, (pages total ≫= page_docs env_25000 (disk ws3) "c" total).*1 ≡ₚ ids →
           NoDup ids →
           omap inserted_id (new_calls ws3 w2) ≡ₚ ids ∧
           NoDup (omap inserted_id (new_calls ws3 w2))) ∧
   (srv_docCount env_25000 (disk ws3) "c" = 25000%Z → pages total = [0; 1; 2]%Z)) ∧
  (let total := totalPages (uint64 (srv_docCount env_25000 (disk ws3) "c")) in
   let w2 := (Index_pages env_25000 "c" ["b"] 1 (uint64 (Z.of_nat 3)) ws3).2 in
   new_calls ws3 w2 = EvApproxDocCount "c" ::
     scan_calls env_25000 "c" total (doc_puts env_25000 3 1 ["b"]) (disk ws3) ∧
   (srv_docCount env_25000 (disk ws3) "c" = 25000%Z → pages total = [0; 1; 2]%Z)).
Proof.
  split.
  - apply (proj1 (pages_visited_in_order env_25000) "c" 1%Z ws3).
    vm_compute. reflexivity.
  - apply (proj1 (proj2 (pages_visited_in_order env_25000)) "c" ["b"] 1%Z 3 ws3).
    + lia.
    + vm_compute. reflexivity.
    + vm_compute. reflexivity.
Defined.

(** With a count of 25,000 the three documents of [ws3] come on pages 0, 1
    and 2, and each is inserted once. *)
Example Scrub_migrate_25000 :
  new_calls ws3 (Scrub_migrate env_25000 "c" 1 ws3).2 =
    [EvApproxDocCount "c";
     EvGetDocPage "c" 0 3 true;
     EvInsertRecovery 1 10 (VMap [("a", VStr "x"); ("b", VNum 10); ("n", VNil)]);
     EvGetDocPage "c" 1 3 true;
     EvInsertRecovery 1 11 (VMap [("a", VStr "x"); ("b", VNum 11); ("n", VNil)]);
     EvGetDocPage "c" 2 3 true;
     EvInsertRecovery 1 12 (VMap [("a", VStr "x"); ("b", VNum 12); ("n", VNil)])].
Proof. vm_compute. reflexivity. Qed.

(** ** The read accessors *)

Lemma ascii_compare_N a b :
  Ascii.compare a b = N.compare (N_of_ascii a) (N_of_ascii b).
Proof. reflexivity. Qed.

Lemma string_compare_lt_trans s1 : ∀ s2 s3,
  String.compare s1 s2 = Lt → String.compare s2 s3 = Lt → String.compare s1 s3 = Lt.
Proof.
  induction s1 as [|a s1 IH]; intros [|b s2] [|d s3]; simpl; try congruence.
  rewrite !ascii_compare_N.
  destruct (N.compare_spec (N_of_ascii a) (N_of_ascii b)) as [Hab|Hab|Hab];
    destruct (N.compare_spec (N_of_ascii b) (N_of_ascii d)) as [Hbd|Hbd|Hbd];
    intros H1 H2; try discriminate.
  - rewrite Hab, Hbd, N.compare_refl. by apply (IH s2).
  - replace (N_of_ascii a ?= N_of_ascii d)%N with Lt; [done|].
    symmetry. apply N.compare_lt_iff. lia.
  - replace (N_of_ascii a ?= N_of_ascii d)%N with Lt; [done|].
    symmetry. apply N.compare_lt_iff. lia.
  - replace (N_of_ascii a ?= N_of_ascii d)%N with Lt; [done|].
    symmetry. apply N.compare_lt_iff. lia.
Qed.

#[global] Instance str_le_total : Total str_le.
Proof. intros s1 s2. apply String.leb_total. Qed.

#[global] Instance str_le_antisymm : AntiSymm (=) str_le.
Proof. intros s1 s2. apply String.leb_antisym. Qed.

#[global] Instance str_le_trans : Transitive str_le.
Proof.
  intros s1 s2 s3. unfold str_le, String.leb.
  destruct (String.compare s1 s2) eqn:H12; [|
    destruct (String.compare s2 s3) eqn:H23 |done].
  - apply String.compare_eq_iff in H12 as ->. done.
  - apply String.compare_eq_iff in H23 as <-. by rewrite H12.
  - by rewrite (string_compare_lt_trans _ _ _ H12 H23).
  - done.
Qed.

Lemma sort_Strings_sorted l : Sorted str_le (sort_Strings l).
Proof. apply Sorted_merge_sort, _. Qed.

Lemma sort_Strings_perm l : sort_Strings l ≡ₚ l.
Proof. apply merge_sort_Permutation. Qed.

(** The order in which a map is ranged over does not show in the result. *)
Lemma sort_Strings_order l1 l2 : l1 ≡ₚ l2 → sort_Strings l1 = sort_Strings l2.
Proof.
  intros H. apply (Sorted_unique str_le); try apply sort_Strings_sorted.
  by rewrite !sort_Strings_perm.
Qed.

(** [paths[i] = f(aPath)] over all [i] fills the slice with the images. *)
Lemma foldl_insert_imap {A B} (f : A → B) (l : list A) : ∀ (acc : list B) k,
  length acc = k + length l →
  foldl (λ acc '(i, x), <[i := f x]> acc) acc (imap (λ i x, (k + i, x)) l) =
  take k acc ++ (f <$> l).
Proof.
  induction l as [|x l IH]; intros acc k Hlen.
  - simpl in *. rewrite app_nil_r, take_ge; [done|lia].
  - rewrite imap_cons. cbn [foldl]. rewrite Nat.add_0_r.
    rewrite (imap_ext _ (λ i x, (S k + i, x))) by (intros; simpl; f_equal; lia).
    cbn [length] in Hlen.
    rewrite IH by (rewrite length_insert; lia).
    rewrite (take_S_r _ _ (f x)) by (apply list_lookup_insert_eq; lia).
    rewrite take_insert_ge by lia. rewrite fmap_cons. by rewrite <- app_assoc.
Qed.

Lemma AllIndexes_fill (sep : string) (jointPath : list string) :
  foldl (λ paths '(i, aPath), <[i := strings_Split aPath sep]> paths)
    (replicate (length jointPath) []) (imap pair jointPath) =
  (λ aPath, strings_Split aPath sep) <$> jointPath.
Proof.
  rewrite (foldl_insert_imap (λ aPath, strings_Split aPath sep) jointPath _ 0).
  - by rewrite take_0.
  - by rewrite length_replicate.
Qed.

Section Accessors.

Variable E : Collab.

(** The liveness check of a read accessor: the ping, and the notice when the
    ping failed. *)
Definition ping_calls (w : World) (what : string) : list Event :=
  match fault E (length (log w)) EvPing with
  | None => [EvPing]
  | Some e =>
      [EvPing;
       EvNotice ("Client " +:+ Itoa (id w) +:+ ": failed to ping before returning "
                 +:+ what +:+ " - " +:+ e)]
  end.

Ltac run_accessor :=
  repeat first
    [ rewrite run_bind
    | progress cbn -[foldl sort_Strings range_keys elements append Itoa] ].

Lemma AllCols_run w :
  AllCols E w =
  (Ok (sort_Strings (range_keys (colNameLookup (schema w)))),
   set_log (log w ++ ping_calls w "collection names") w).
Proof.
  unfold AllCols, Ping, io_err, Noticef, ping_calls. run_accessor.
  destruct (fault E (length (log w)) EvPing) as [e|]; run_accessor;
    rewrite (foldl_snoc_id _ []); cbn [app]; [|done].
  unfold set_log. cbn -[append Itoa sort_Strings range_keys].
  by rewrite <- app_assoc.
Qed.

Lemma AllIndexesJointPaths_run colName w :
  AllIndexesJointPaths E colName w =
  (match colNameLookup (schema w) !! colName with
   | None => Fail ("Collection " +:+ colName +:+ " does not exist")
   | Some colID =>
       Ok (sort_Strings (elements (default ∅ (indexPathsJoint (schema w) !! colID))))
   end,
   set_log (log w ++ ping_calls w "index paths") w).
Proof.
  unfold AllIndexesJointPaths, Ping, io_err, Noticef, ping_calls. run_accessor.
  destruct (fault E (length (log w)) EvPing) as [e|]; run_accessor;
    destruct (colNameLookup (schema w) !! colName) as [colID|]; run_accessor;
    rewrite ?(foldl_snoc_id _ []); cbn [app]; try done;
    unfold set_log; cbn -[append Itoa sort_Strings elements];
    by rewrite <- app_assoc.
Qed.

Lemma AllIndexes_run colName w :
  AllIndexes E colName w =
  (match colNameLookup (schema w) !! colName with
   | None => Fail ("Collection " +:+ colName +:+ " does not exist")
   | Some colID =>
       Ok ((λ aPath, strings_Split aPath (INDEX_PATH_SEP E)) <$>
             sort_Strings (elements (default ∅ (indexPathsJoint (schema w) !! colID))))
   end,
   set_log (log w ++ ping_calls w "index paths") w).
Proof.
  unfold AllIndexes. rewrite run_bind, AllIndexesJointPaths_run.
  destruct (colNameLookup (schema w) !! colName) as [colID|]; [|done].
  simpl. by rewrite AllIndexes_fill.
Qed.

(** C8.  AllCols and AllIndexesJointPaths ping first; a failed ping is noted
    in the log and changes nothing else: the accessor serves the cached view.
    AllCols returns the collection names of the schema cache, sorted byte-wise
    and without duplicates, whatever the order in which the map was ranged
    over.  For a collection of the cache AllIndexesJointPaths returns its
    joined index paths, sorted and without duplicates, and AllIndexes the same
    paths, in the same order, each split at the separator; for a name that is
    not in the cache both return an error. *)
Theorem accessors_serve_sorted_cache w :
  let names := sort_Strings (range_keys (colNameLookup (schema w))) in
  AllCols E w = (Ok names, set_log (log w ++ ping_calls w "collection names") w) ∧
  Sorted str_le names ∧ NoDup names ∧
  (∀ name, name ∈ names ↔ is_Some (colNameLookup (schema w) !! name)) ∧
  (∀ keys, keys ≡ₚ range_keys (colNameLookup (schema w)) →
           sort_Strings keys = names) ∧
  ∀ colName,
    match colNameLookup (schema w) !! colName with
    | None =>
        AllIndexesJointPaths E colName w =
          (Fail ("Collection " +:+ colName +:+ " does not exist"),
           set_log (log w ++ ping_calls w "index paths") w) ∧
        (AllIndexes E colName w).1 =
          Fail ("Collection " +:+ colName +:+ " does not exist")
    | Some colID =>
        let joint := default ∅ (indexPathsJoint (schema w) !! colID) in
        let paths := sort_Strings (elements joint) in
        AllIndexesJointPaths E colName w =
          (Ok paths, set_log (log w ++ ping_calls w "index paths") w) ∧
        Sorted str_le paths ∧ NoDup paths ∧
        (∀ path, path ∈ paths ↔ path ∈ joint) ∧
        (∀ keys, keys ≡ₚ elements joint → sort_Strings keys = paths) ∧
        AllIndexes E colName w =
          (Ok ((λ aPath, strings_Split aPath (INDEX_PATH_SEP E)) <$> paths),
           set_log (log w ++ ping_calls w "index paths") w)
    end.
Proof.
  intros names. split; [apply AllCols_run|].
  split; [apply sort_Strings_sorted|]. split; [|split; [|split]].
  - unfold names. rewrite sort_Strings_perm. apply NoDup_fst_map_to_list.
  - intros name. unfold names. rewrite sort_Strings_perm. unfold range_keys.
    rewrite list_elem_of_fmap. split.
    + intros ([k v] & -> & Hin). apply elem_of_map_to_list in Hin. by exists v.
    + intros [v Hv]. exists (name, v). split; [done|]. by apply elem_of_map_to_list.
  - intros keys Hperm. by apply sort_Strings_order.
  - intros colName. pose proof (AllIndexesJointPaths_run colName w) as Hj.
    pose proof (AllIndexes_run colName w) as Ha.
    destruct (colNameLookup (schema w) !! colName) as [colID|].
    + split; [done|]. split; [apply sort_Strings_sorted|]. split; [|split; [|split]].
      * rewrite sort_Strings_perm. apply NoDup_elements.
      * intros path. rewrite sort_Strings_perm. apply elem_of_elements.
      * intros keys Hperm. by apply sort_Strings_order.
      * done.
    + split; [done|]. by rewrite Ha.
Qed.

End Accessors.

(** A failed ping: the names are served all the same. *)
Example AllCols_ping_fails :
  let E := env_with (λ _ ev, match ev with EvPing => Some "timeout" | _ => None end) in
  let w := set_schema (mkSchema {[ "users" := 2%Z; "Orders" := 1%Z; "items" := 3%Z ]}
                         ∅ {[ 2%Z := {[ "name"; "address!city"; "address!zip" ]} ]}) ws3 in
  AllCols E w =
    (Ok ["Orders"; "items"; "users"],
     set_log [EvPing; EvNotice
       "Client 1: failed to ping before returning collection names - timeout"] w) ∧
  (AllIndexesJointPaths E "users" w).1 = Ok ["address!city"; "address!zip"; "name"] ∧
  (AllIndexes E "users" w).1 = Ok [["address"; "city"]; ["address"; "zip"]; ["name"]] ∧
  (AllIndexes E "items" w).1 = Ok [] ∧
  (AllIndexes E "none" w).1 = Fail "Collection none does not exist".
Proof. vm_compute. auto 10. Qed.

(** * Further properties of the code *)

(** ** Operations that call the shard stores only *)

(** A call made on a store handle. *)
Definition store_call (ev : Event) : Prop := is_Some (ev_shard ev).

(** [w'] differs from [w] by calls to the shard stores and by what they did to
    the shard directories: the client, its schema cache and the shard count
    are the same. *)
Definition stores_only (w w' : World) : Prop :=
  id w' = id w ∧ schema w' = schema w ∧ length (disk w') = length (disk w) ∧
  ∃ evs, log w' = log w ++ evs ∧ Forall store_call evs.

#[global] Instance stores_only_preorder : PreOrder stores_only.
Proof.
  split.
  - intros w. repeat split; auto. exists []. split; [by rewrite app_nil_r|constructor].
  - intros w1 w2 w3 (Hi1 & Hs1 & Hl1 & evs1 & He1 & Hf1)
      (Hi2 & Hs2 & Hl2 & evs2 & He2 & Hf2).
    repeat split; try congruence. exists (evs1 ++ evs2). split.
    + by rewrite He2, He1, app_assoc.
    + by apply Forall_app.
Qed.

Lemma touches_only_stores_only i w w' : touches_only i w w' → stores_only w w'.
Proof.
  intros (Hi & Hs & Hl & _ & evs & He & Hon). repeat split; auto.
  exists evs. split; [done|]. eapply Forall_impl; [exact Hon|].
  intros ev Hev. unfold store_call. by rewrite Hev.
Qed.

Lemma preserves_stores_only {A} i (m : M A) :
  preserves (touches_only i) m → preserves stores_only m.
Proof. intros H w r w' Hm. eapply touches_only_stores_only, H, Hm. Qed.

Lemma run_pair {A} (m : M A) w : m w = ((m w).1, (m w).2).
Proof. by destruct (m w). Qed.

Section StoresOnly.

Variable E : Collab.

Lemma col_op_stores (op : option (nat * string) → list string → M unit) col idxPath :
  op = BPIndex E ∨ op = Unindex_col E → preserves stores_only (op col idxPath).
Proof.
  intros [-> | ->]; destruct col as [[i name]|]; simpl;
    try (apply preserves_panic, _);
    by apply (preserves_stores_only i), store_op_local.
Qed.

Lemma round_stores fun_ i :
  (∀ j, preserves stores_only (fun_ j)) → preserves stores_only (round E fun_ i).
Proof.
  intros Hf. unfold round. apply preserves_bind; [apply _| |].
  - apply (preserves_stores_only i), OpenDB_local.
  - intros j. apply preserves_bind; [apply _|apply Hf|].
    intros _. apply (preserves_stores_only j), Close_local.
Qed.

Lemma forAllDBsDo_stores fun_ :
  (∀ j, preserves stores_only (fun_ j)) → preserves stores_only (forAllDBsDo E fun_).
Proof.
  intros Hf. unfold forAllDBsDo. apply preserves_bind; [apply _|apply preserves_get, _|].
  intros w0. apply preserves_forM; [apply _|]. intros i. by apply (round_stores fun_ i).
Qed.

Lemma store_op_stores i ev f :
  ev_shard ev = Some i → preserves stores_only (store_op E i ev f).
Proof. intros Hev. by apply (preserves_stores_only i), store_op_local. Qed.

Lemma checked_turn_stores (op : option (nat * string) → list string → M unit)
    (absent : M unit) colName idxPath i :
  op = BPIndex E ∨ op = Unindex_col E →
  preserves stores_only absent →
  preserves stores_only
    (clientDB ← OpenDB E i;
     col ← Use clientDB colName;
     match col with
     | None => absent
     | Some _ =>
         col ← Use clientDB colName;
         op col idxPath ;;
         Close E clientDB
     end).
Proof.
  intros Hop Habs. apply preserves_bind; [apply _| |].
  - apply (preserves_stores_only i), OpenDB_local.
  - intros j. apply preserves_bind; [apply _| |].
    + apply (preserves_stores_only j), Use_local.
    + intros [c|]; [|done]. apply preserves_bind; [apply _| |].
      * apply (preserves_stores_only j), Use_local.
      * intros col. apply preserves_bind; [apply _|by apply col_op_stores|].
        intros _. apply (preserves_stores_only j), Close_local.
Qed.

(** X1.  Create, Rename, Truncate, Drop and Unindex call the shard stores and
    nothing else, whatever their outcome: no ping, no reload and no command
    goes to a server, the schema cache of the client is the one it had, and
    the shard count is unchanged. *)
Theorem store_operations_keep_schema_cache w :
  (∀ colName, stores_only w (Create E colName w).2) ∧
  (∀ oldName newName, stores_only w (Rename E oldName newName w).2) ∧
  (∀ colName, stores_only w (Truncate E colName w).2) ∧
  (∀ colName, stores_only w (Drop E colName w).2) ∧
  (∀ colName idxPath, stores_only w (Unindex E colName idxPath w).2).
Proof.
  split; [|split; [|split; [|split]]].
  - intros c. eapply forAllDBsDo_stores; [|apply run_pair].
    intros j. by apply store_op_stores.
  - intros o n. eapply forAllDBsDo_stores; [|apply run_pair].
    intros j. by apply store_op_stores.
  - intros c. eapply forAllDBsDo_stores; [|apply run_pair].
    intros j. by apply store_op_stores.
  - intros c. eapply (forAllDBsDo_stores (λ clientDB, Drop_db E clientDB c));
      [|apply (run_pair (Drop E c))].
    intros j. by apply store_op_stores.
  - intros c p. rewrite Unindex_unfold.
    eapply preserves_forM; [apply _| |apply run_pair].
    intros i. apply (checked_turn_stores (Unindex_col E) (mret tt)); [by right|].
    apply preserves_ret, _.
Qed.

End StoresOnly.

(** ** The store handles *)

Definition same_handles (w w' : World) : Prop := handles w' = handles w.

#[global] Instance same_handles_preorder : PreOrder same_handles.
Proof.
  split; [by intros w|]. intros w1 w2 w3 H1 H2. unfold same_handles in *. congruence.
Qed.

(** A call an action makes on the handle it is given: any store call but the
    open and the close, which are [forAllDBsDo]'s. *)
Definition action_call (ev : Event) : Prop :=
  match ev with
  | EvOpenDB _ | EvClose _ => False
  | _ => is_Some (ev_shard ev)
  end.

(** An action that works through the handle it is given: it leaves the set of
    open handles alone, and it has called the store at least once when it
    returns. *)
Definition store_action (fun_ : nat → M unit) : Prop :=
  shard_local fun_ ∧
  (∀ i, preserves same_handles (fun_ i)) ∧
  ∀ i w r w', fun_ i w = (r, w') →
    ∃ ev evs, log w' = log w ++ ev :: evs ∧ Forall action_call (ev :: evs).

(** How a run of [forAllDBsDo] leaves the store handles: all closed after a
    success; after a failure on shard [k], as the last call made tells. *)
Definition handles_left (w : World) (r : Res unit) (w' : World) : Prop :=
  (r = Ok tt → handles w' = handles w) ∧
  (r ≠ Ok tt →
   ∃ k ev, k < nProcs w ∧ last (log w') = Some ev ∧ ev_shard ev = Some k ∧
     match ev with
     | EvOpenDB _ => handles w' = handles w
     | EvClose _ => handles w' = handles w ++ [k]
     | _ => handles w' = handles w ++ [k] ∧ EvClose k ∉ new_calls w w'
     end).

Section Handles.

Variable E : Collab.

Lemma store_op_handles i ev f : preserves same_handles (store_op E i ev f).
Proof.
  intros w r w'. rewrite store_op_run. simpl.
  destruct (fault E _ _); [by intros [= <- <-]|].
  destruct (disk w !! i) as [db|]; [|by intros [= <- <-]].
  destruct (f db); by intros [= <- <-].
Qed.

Lemma Use_handles i name : preserves same_handles (Use i name).
Proof. intros w r w'. rewrite Use_run. by intros [= <- <-]. Qed.

Lemma BPIndex_handles col idxPath : preserves same_handles (BPIndex E col idxPath).
Proof.
  destruct col as [[i name]|]; simpl; [apply store_op_handles|apply preserves_panic, _].
Qed.

Lemma store_op_acts i ev f w r w' :
  store_op E i ev f w = (r, w') → log w' = log w ++ [ev].
Proof.
  rewrite store_op_run. simpl.
  destruct (fault E _ _); [by intros [= <- <-]|].
  destruct (disk w !! i) as [db|]; [|by intros [= <- <-]].
  destruct (f db); by intros [= <- <-].
Qed.

Lemma store_op_store_action (ev : nat → Event) f :
  (∀ i, ev_shard (ev i) = Some i) → (∀ i, action_call (ev i)) →
  store_action (λ i, store_op E i (ev i) f).
Proof.
  intros Hsh Hact. split; [by apply store_op_shard_local|]. split.
  - intros i. apply store_op_handles.
  - intros i w r w' H. exists (ev i), []. split; [by eapply store_op_acts|].
    constructor; [apply Hact|constructor].
Qed.

Lemma uniform_action_store_action fun_ : uniform_action E fun_ → store_action fun_.
Proof.
  intros Hact. split; [by apply (uniform_action_local E)|].
  destruct Hact as [c|o n|c|tmp idxs|c tmp].
  - apply (store_op_store_action (λ i, EvCreate i c)); intros i; simpl; eauto.
  - apply (store_op_store_action (λ i, EvRename i o n)); intros i; simpl; eauto.
  - apply (store_op_store_action (λ i, EvTruncate i c)); intros i; simpl; eauto.
  - assert (Hrest : ∀ i, preserves (log_only action_call)
              (forM_ idxs (λ existingIndex,
                 col ← Use i tmp; BPIndex E col existingIndex))).
    { intros i. apply preserves_forM; [apply _|]. intros p.
      apply preserves_bind; [apply _|apply Use_log|].
      intros [[j name]|]; simpl; [|apply preserves_panic, _].
      apply store_op_log. simpl. eauto. }
    split.
    + intros i. unfold Scrub_create_action.
      apply preserves_bind; [apply _|apply store_op_handles|].
      intros _. apply preserves_forM; [apply _|]. intros p.
      apply preserves_bind; [apply _|apply Use_handles|].
      intros col. apply BPIndex_handles.
    + intros i w r w' H. unfold Scrub_create_action in H.
      apply bind_inv in H as [([] & w1 & Hc & H)|[(e & Hc & _)|[Hc _]]].
      * apply store_op_acts in Hc. destruct (Hrest _ _ _ _ H) as (evs & He & Hevs).
        exists (EvCreate i tmp), evs. split; [by rewrite He, Hc, <- app_assoc|].
        constructor; [simpl; eauto|done].
      * apply store_op_acts in Hc. exists (EvCreate i tmp), [].
        split; [done|]. constructor; [simpl; eauto|constructor].
      * apply store_op_acts in Hc. exists (EvCreate i tmp), [].
        split; [done|]. constructor; [simpl; eauto|constructor].
  - split.
    + intros i. unfold Scrub_swap_action.
      apply preserves_bind; [apply _|apply store_op_handles|].
      intros _. apply store_op_handles.
    + intros i w r w' H. unfold Scrub_swap_action in H.
      apply bind_inv in H as [([] & w1 & Hc & H)|[(e & Hc & _)|[Hc _]]].
      * apply store_op_acts in Hc. apply store_op_acts in H.
        exists (EvDrop i c), [EvRename i tmp c].
        split; [by rewrite H, Hc, <- app_assoc|].
        repeat constructor; simpl; eauto.
      * apply store_op_acts in Hc. exists (EvDrop i c), [].
        split; [done|]. constructor; [simpl; eauto|constructor].
      * apply store_op_acts in Hc. exists (EvDrop i c), [].
        split; [done|]. constructor; [simpl; eauto|constructor].
Qed.

Section Loop.

Variable fun_ : nat → M unit.
Hypothesis fun_action : store_action fun_.

Lemma rounds_done_handles i wi k wk :
  rounds_done E fun_ i wi k wk → handles wk = handles wi.
Proof.
  destruct fun_action as (Hloc & Hh & _).
  induction 1 as [|k wk wk' _ IH Hk]; [done|].
  apply (round_inv E fun_) in Hk as [[_ (w1 & w2 & Ho & Hf & Hc)]|[? _]]; [|done].
  destruct (OpenDB_Ok_inv _ _ _ _ _ Ho) as (_ & _ & _ & _ & Ho').
  apply Hh in Hf. unfold same_handles in Hf.
  destruct (Close_inv _ _ _ _ _ Hc) as (_ & _ & [[_ Hc']|(e & ? & _)]); [|done].
  by rewrite Hc', Hf, Ho', remove_last_snoc.
Qed.

Lemma block_on_shard i k (b mid : list Event) :
  b = EvOpenDB i :: mid ++ [EvClose i] → on_shard i mid → i ≠ k → EvClose k ∉ b.
Proof.
  intros -> Hmid Hne Hin.
  assert (Hall : on_shard i (EvOpenDB i :: mid ++ [EvClose i])).
  { constructor; [done|]. apply Forall_app. split; [done|]. by constructor. }
  unfold on_shard in Hall. rewrite Forall_forall in Hall.
  apply Hall in Hin. simpl in Hin. congruence.
Qed.

Lemma forAllDBsDo_handles_left w r w' :
  forAllDBsDo E fun_ w = (r, w') → handles_left w r w'.
Proof.
  destruct fun_action as (Hloc & Hh & Hacts). intros H.
  destruct (forAllDBsDo_applied E fun_ Hloc _ _ _ H)
    as (k & wk & Hk & Hd & Hout & _).
  pose proof (rounds_done_handles _ _ _ _ Hd) as Hhk.
  destruct (rounds_done_frame E fun_ Hloc _ _ _ _ Hd)
    as (_ & _ & _ & blocks & Hlog & Hbl & Hblk).
  split.
  - intros ->. destruct Hout as [(_ & _ & ->)|(_ & Hf)]; [done|].
    destruct Hf as [(e & _ & ? & _)|[(w1 & _ & _ & _ & ?)|(w1 & w2 & e & _ & _ & _ & ? & _)]];
      done.
  - intros Hne. destruct Hout as [(-> & _)|(Hlt & Hf)]; [done|].
    assert (Hblocks : EvClose k ∉ concat blocks).
    { intros Hin. apply list_elem_of_In, in_concat in Hin as (b & Hb & Hin).
      apply list_elem_of_In, list_elem_of_lookup in Hb as (i & Hb).
      apply list_elem_of_In in Hin.
      assert (i < k) by (apply lookup_lt_Some in Hb; lia).
      destruct (Hblk _ _ Hb) as (mid & Hbe & Hmid). simpl in Hbe.
      by eapply (block_on_shard i k b mid); [| |lia|]. }
    destruct Hf as [(e & Ho & -> & _)|[(w1 & Ho & _ & Hf & _)|(w1 & w2 & e & Ho & Hf & Hc & -> & _)]].
    + destruct (OpenDB_Fail_inv _ _ _ _ _ Ho) as (_ & Ho' & Hl).
      exists k, (EvOpenDB k). split; [done|]. split; [by rewrite Hl, last_snoc|].
      split; [done|]. congruence.
    + destruct (OpenDB_Ok_inv _ _ _ _ _ Ho) as (_ & _ & _ & Hl & Ho').
      destruct (Hacts _ _ _ _ Hf) as (ev & evs & Hl' & Hevs).
      destruct (Hloc _ _ _ _ Hf) as (_ & _ & _ & _ & evs' & Hl'' & Hon).
      assert (evs' = ev :: evs) as -> by (rewrite Hl' in Hl''; by simplify_list_eq).
      apply Hh in Hf. unfold same_handles in Hf.
      assert (Hlast : ∃ ev', last (ev :: evs) = Some ev' ∧ ev' ∈ ev :: evs).
      { destruct (last (ev :: evs)) as [ev'|] eqn:El.
        - exists ev'. split; [done|]. apply last_Some in El as [l' ->]. set_solver.
        - by apply last_None in El. }
      destruct Hlast as (ev' & Hlast & Hin).
      unfold on_shard in Hon. rewrite Forall_forall in Hon, Hevs.
      exists k, ev'. split; [done|]. split.
      { rewrite Hl'. rewrite last_app, Hlast. done. }
      split; [by apply Hon|].
      assert (Hh' : handles w' = handles w ++ [k]) by congruence.
      assert (Hnc : EvClose k ∉ new_calls w w').
      { rewrite (new_calls_app w w' (concat blocks ++ EvOpenDB k :: ev :: evs)).
        - intros Hin'. apply elem_of_app in Hin' as [?|Hin']; [done|].
          apply elem_of_cons in Hin' as [?|Hin']; [done|].
          by apply Hevs in Hin'.
        - rewrite Hl', Hl, Hlog. by rewrite <- !app_assoc. }
      pose proof (Hevs _ Hin) as Ha. destruct ev'; try done.
    + destruct (OpenDB_Ok_inv _ _ _ _ _ Ho) as (_ & _ & _ & _ & Ho').
      apply Hh in Hf. unfold same_handles in Hf.
      destruct (Close_inv _ _ _ _ _ Hc) as (_ & Hl & [[? _]|(e' & _ & Hc')]); [done|].
      exists k, (EvClose k). split; [done|]. split; [by rewrite Hl, last_snoc|].
      split; [done|]. congruence.
Qed.

End Loop.

(** X2.  [forAllDBsDo] closes every store handle it opened when it succeeds.
    When it fails on shard [k], the last call made tells what is left: nothing
    when the open failed; the handle of shard [k] when its close failed; and
    when the action failed, the handle of shard [k] again, which was never
    closed. *)
Theorem forAllDBsDo_leaves_failed_shard_open fun_ w r w' :
  uniform_action E fun_ →
  forAllDBsDo E fun_ w = (r, w') →
  handles_left w r w'.
Proof.
  intros Hact. apply forAllDBsDo_handles_left. by apply uniform_action_store_action.
Qed.

(** X3.  Drop has a loop of its own, and it is the loop of [forAllDBsDo]: the
    shards are opened, dropped from and closed in index order, the first
    error is returned at once, the shards after the failing one are untouched
    and the store handle of a shard whose drop failed is left open. *)
Theorem Drop_first_error colName w r w' :
  Drop E colName w = (r, w') →
  applied_in_order E (λ clientDB, Drop_db E clientDB colName) w r w' ∧
  handles_left w r w'.
Proof.
  intros H. split.
  - apply forAllDBsDo_applied; [|exact H]. by apply store_op_shard_local.
  - apply (forAllDBsDo_handles_left (λ clientDB, Drop_db E clientDB colName)); [|exact H].
    apply (store_op_store_action (λ i, EvDrop i colName)); intros i; simpl; eauto.
Qed.

End Handles.

(** ** What a structural operation leaves on the shards *)

(** The store primitive [f] has taken every shard of [d] to the shard of [d']
    at its index. *)
Definition applied_to_all (f : DB → error + DB) (d d' : list DB) : Prop :=
  Forall2 (λ db db', f db = inr db') d d'.

(** The calls of a uniform application of one store primitive. *)
Definition uniform_calls (ev : nat → Event) (n : nat) : list Event :=
  seq 0 n ≫= λ i, [EvOpenDB i; ev i; EvClose i].

Lemma applied_to_all_fmap f (g : DB → DB) (P : DB → Prop) d d' :
  (∀ db db', f db = inr db' → P db ∧ db' = g db) →
  applied_to_all f d d' → Forall P d ∧ d' = g <$> d.
Proof.
  intros Hf. induction 1 as [|db db' d d' H _ [IH1 IH2]]; [by split|].
  destruct (Hf _ _ H) as [HP ->]. split; [by constructor|]. simpl. by f_equal.
Qed.

Section StoreOps.

Variable E : Collab.
Variable ev : nat → Event.
Variable f : DB → error + DB.
Hypothesis ev_on_shard : ∀ i, ev_shard (ev i) = Some i.
Hypothesis ev_action : ∀ i, action_call (ev i).

Lemma store_round_run k w1 db db' :
  no_faults E → disk w1 !! k = Some db → f db = inr db' →
  ∃ w2, round E (λ i, store_op E i (ev i) f) k w1 = (Ok tt, w2) ∧
        schema w2 = schema w1 ∧ handles w2 = handles w1 ∧
        disk w2 = <[k := db']> (disk w1) ∧
        log w2 = log w1 ++ [EvOpenDB k; ev k; EvClose k].
Proof.
  intros Hnf Hdb Hf.
  unfold round. rewrite run_bind, OpenDB_run. cbv zeta. rewrite Hnf, Hdb.
  rewrite run_bind, store_op_run. cbv zeta. simpl. rewrite Hnf, Hdb, Hf.
  rewrite Close_run. cbv zeta. rewrite Hnf. simpl.
  eexists. split; [done|]. simpl. split; [done|].
  split; [apply remove_last_snoc|]. split; [done|]. by rewrite <- !app_assoc.
Qed.

Lemma forAllDBsDo_store_op_run (g : DB → DB) w :
  no_faults E → Forall (λ db, f db = inr (g db)) (disk w) →
  ∃ w', forAllDBsDo E (λ i, store_op E i (ev i) f) w = (Ok tt, w') ∧
        disk w' = g <$> disk w ∧
        log w' = log w ++ uniform_calls ev (nProcs w) ∧
        schema w' = schema w ∧ handles w' = handles w.
Proof.
  intros Hnf Hall. rewrite Forall_lookup in Hall.
  unfold forAllDBsDo. rewrite run_bind. simpl.
  change (∃ w', forM_ (seq 0 (nProcs w)) (round E (λ i, store_op E i (ev i) f)) w
                  = (Ok tt, w') ∧ disk w' = g <$> disk w ∧
                log w' = log w ++ uniform_calls ev (nProcs w) ∧
                schema w' = schema w ∧ handles w' = handles w).
  unfold uniform_calls, nProcs.
  destruct (forM_ (seq 0 (length (disk w))) (round E (λ i, store_op E i (ev i) f)) w)
    as [r w'] eqn:Hrun.
  pose (I := λ (done : list nat) (w1 : World),
    schema w1 = schema w ∧ handles w1 = handles w ∧
    length (disk w1) = length (disk w) ∧
    (∀ j, disk w1 !! j = if decide (j < length done)
                         then g <$> disk w !! j else disk w !! j) ∧
    log w1 = log w ++ (done ≫= λ i, [EvOpenDB i; ev i; EvClose i])).
  assert (H : match r with Ok _ => I (seq 0 (length (disk w))) w' | _ => False end).
  { apply (forM_rule I (λ _ _, False) (round E (λ i, store_op E i (ev i) f))
             (seq 0 (length (disk w)))) with (w := w) (w' := w'); [| |done].
    2:{ repeat split; auto. simpl. by rewrite app_nil_r. }
    clear r w' Hrun. intros done x rest w1 r1 w2 Hl (Hs & Hh & Hlen & Hd & Hlog) Hturn.
    apply seq_split_at in Hl as (-> & Hlt & _).
    assert (Hdk : disk w1 !! length done = disk w !! length done).
    { rewrite Hd. by rewrite decide_False by lia. }
    destruct (lookup_lt_is_Some_2 (disk w) (length done)) as [db Hdb]; [done|].
    destruct (store_round_run (length done) w1 db (g db) Hnf)
      as (w2' & Hrun2 & Hs2 & Hh2 & Hd2 & Hl2).
    { by rewrite Hdk. }
    { by eapply Hall. }
    rewrite Hrun2 in Hturn. injection Hturn as <- <-.
    split; [congruence|]. split; [congruence|].
    split; [by rewrite Hd2, length_insert|]. split.
    - intros j. rewrite Hd2, length_app. simpl.
      destruct (decide (j = length done)) as [->|Hne].
      + rewrite list_lookup_insert_eq by lia.
        rewrite decide_True by lia. by rewrite Hdb.
      + rewrite list_lookup_insert_ne by done. rewrite Hd.
        destruct (decide (j < length done)); [by rewrite decide_True by lia|].
        by rewrite decide_False by lia.
    - rewrite Hl2, Hlog, bind_app, <- app_assoc. done. }
  destruct r as [[]| |]; [|done|done].
  destruct H as (Hs & Hh & Hlen & Hd & Hlog).
  exists w'. split; [done|]. split; [|done].
  apply list_eq. intros j. rewrite Hd, list_lookup_fmap, length_seq.
  destruct (decide (j < length (disk w))); [done|].
  rewrite lookup_ge_None_2; [done|]. lia.
Qed.

Lemma forAllDBsDo_store_op_Ok w w' :
  forAllDBsDo E (λ i, store_op E i (ev i) f) w = (Ok tt, w') →
  applied_to_all f (disk w) (disk w') ∧
  log w' = log w ++ uniform_calls ev (nProcs w) ∧
  schema w' = schema w ∧ handles w' = handles w.
Proof.
  intros H.
  pose proof (store_op_shard_local E ev f ev_on_shard) as Hloc.
  destruct (forAllDBsDo_Ok_log E _ (λ i, [ev i]) w w' Hloc) as [Hlen Hlog]; [|done|].
  { intros i w1 w2 Hop. by eapply store_op_acts. }
  split; [|split; [done|split]].
  - apply Forall2_same_length_lookup. split; [done|]. intros i db db' Hdb Hdb'.
    destruct (forAllDBsDo_applied E _ Hloc _ _ _ H)
      as (k & wk & _ & _ & Hout & Hbefore & _).
    destruct Hout as [(_ & -> & _)|(_ & Hf)].
    2:{ destruct Hf as [(e & _ & ? & _)|[(w1 & _ & _ & _ & ?)|(w1 & w2 & e & _ & _ & _ & ? & _)]];
          done. }
    destruct (Hbefore i) as (wi & w1 & w2 & wi' & _ & _ & Hop & _ & H1 & H2).
    { by apply lookup_lt_Some in Hdb. }
    apply store_op_Ok_inv in Hop as (db0 & db0' & Hdb0 & Hf & Hd2 & _).
    rewrite H1, Hdb in Hdb0. injection Hdb0 as <-.
    rewrite H2, Hd2, list_lookup_insert_eq in Hdb'; [congruence|].
    apply (lookup_lt_Some _ _ db). by rewrite H1.
  - destruct (forAllDBsDo_stores E _ (λ j, store_op_stores E j (ev j) f (ev_on_shard j))
                _ _ _ H) as (_ & Hs & _). done.
  - destruct (forAllDBsDo_handles_left E _
                (store_op_store_action E ev f ev_on_shard ev_action) _ _ _ H) as [Hh _].
    by apply Hh.
Qed.

End StoreOps.

Section Structural.

Variable E : Collab.

Lemma db_create_inr name db db' :
  db_create name db = inr db' →
  db !! name = None ∧ db' = <[name := mkCol [] []]> db.
Proof. unfold db_create. destruct (db !! name); [done|]. by intros [= <-]. Qed.

Lemma db_drop_inr name db db' :
  db_drop name db = inr db' → is_Some (db !! name) ∧ db' = delete name db.
Proof. unfold db_drop. destruct (db !! name); [|done]. intros [= <-]. eauto. Qed.

Lemma db_truncate_inr name db db' :
  db_truncate name db = inr db' →
  ∃ c, db !! name = Some c ∧ db' = <[name := mkCol (col_indexes c) []]> db.
Proof. unfold db_truncate. destruct (db !! name); [|done]. intros [= <-]. eauto. Qed.

Lemma db_rename_inr oldName newName db db' :
  db_rename oldName newName db = inr db' →
  ∃ c, db !! oldName = Some c ∧ db !! newName = None ∧
       db' = <[newName := c]> (delete oldName db).
Proof.
  unfold db_rename. destruct (db !! oldName); [|done].
  destruct (db !! newName) eqn:Hn; [done|]. intros [= <-]. eauto.
Qed.

Lemma Create_Ok colName w w' :
  Create E colName w = (Ok tt, w') →
  Forall (λ db, db !! colName = None) (disk w) ∧
  disk w' = (λ db, <[colName := mkCol [] []]> db) <$> disk w ∧
  log w' = log w ++ uniform_calls (λ i, EvCreate i colName) (nProcs w) ∧
  schema w' = schema w ∧ handles w' = handles w.
Proof.
  intros H.
  apply (forAllDBsDo_store_op_Ok E (λ i, EvCreate i colName)) in H
    as (Hall & Hlog & Hs & Hh); [|done|intros i; simpl; eauto].
  apply (applied_to_all_fmap _ (λ db, <[colName := mkCol [] []]> db)
           (λ db, db !! colName = None)) in Hall as [HP Hd]; [done|].
  apply db_create_inr.
Qed.

Lemma Create_run colName w :
  no_faults E → Forall (λ db, db !! colName = None) (disk w) →
  ∃ w', Create E colName w = (Ok tt, w') ∧
        disk w' = (λ db, <[colName := mkCol [] []]> db) <$> disk w ∧
        schema w' = schema w ∧ handles w' = handles w.
Proof.
  intros Hnf Hall.
  destruct (forAllDBsDo_store_op_run E (λ i, EvCreate i colName) (db_create colName)
              (λ db, <[colName := mkCol [] []]> db) w Hnf)
    as (w' & Hrun & Hd & _ & Hs & Hh); [|by exists w'].
  eapply Forall_impl; [exact Hall|]. intros db Hdb. unfold db_create. by rewrite Hdb.
Qed.

Lemma Drop_Ok colName w w' :
  Drop E colName w = (Ok tt, w') →
  Forall (λ db, is_Some (db !! colName)) (disk w) ∧
  disk w' = delete colName <$> disk w ∧
  log w' = log w ++ uniform_calls (λ i, EvDrop i colName) (nProcs w) ∧
  schema w' = schema w ∧ handles w' = handles w.
Proof.
  intros H.
  apply (forAllDBsDo_store_op_Ok E (λ i, EvDrop i colName) (db_drop colName)) in H
    as (Hall & Hlog & Hs & Hh); [|done|intros i; simpl; eauto].
  apply (applied_to_all_fmap _ (delete colName)
           (λ db, is_Some (db !! colName))) in Hall as [HP Hd]; [done|].
  apply db_drop_inr.
Qed.

Lemma Drop_run colName w :
  no_faults E → Forall (λ db, is_Some (db !! colName)) (disk w) →
  ∃ w', Drop E colName w = (Ok tt, w') ∧
        disk w' = delete colName <$> disk w ∧
        schema w' = schema w ∧ handles w' = handles w.
Proof.
  intros Hnf Hall.
  destruct (forAllDBsDo_store_op_run E (λ i, EvDrop i colName) (db_drop colName)
              (delete colName) w Hnf)
    as (w' & Hrun & Hd & _ & Hs & Hh); [|by exists w'].
  eapply Forall_impl; [exact Hall|]. intros db [c Hdb]. unfold db_drop. by rewrite Hdb.
Qed.

Lemma fmap_id_on {A} (g : A → A) (l : list A) :
  Forall (λ x, g x = x) l → g <$> l = l.
Proof. induction 1 as [|x l Hx _ IH]; [done|]. rewrite fmap_cons. by f_equal. Qed.

(** X4.  When Create succeeds, no shard had a collection of that name, and
    every shard now has one, with no document and no index; every other
    collection is as it was, and each shard was opened, created in and closed,
    in index order.  With no I/O fault Create succeeds whenever no shard has
    the collection. *)
Theorem Create_makes_empty_collection colName w :
  (∀ w', Create E colName w = (Ok tt, w') →
     Forall (λ db, db !! colName = None) (disk w) ∧
     disk w' = (λ db, <[colName := mkCol [] []]> db) <$> disk w ∧
     log w' = log w ++ uniform_calls (λ i, EvCreate i colName) (nProcs w) ∧
     handles w' = handles w) ∧
  (no_faults E → Forall (λ db, db !! colName = None) (disk w) →
   (Create E colName w).1 = Ok tt).
Proof.
  split.
  - intros w' H. apply Create_Ok in H as (? & ? & ? & _ & ?). auto.
  - intros Hnf Hall. destruct (Create_run colName w Hnf Hall) as (w' & -> & _). done.
Qed.

(** X5.  A Drop undoes a Create: when Create has succeeded and no I/O fault
    occurs, Drop of the same name succeeds and leaves every shard directory,
    the schema cache and the open handles as they were before the Create. *)
Theorem Create_then_Drop_restores colName w w1 :
  no_faults E →
  Create E colName w = (Ok tt, w1) →
  ∃ w2, Drop E colName w1 = (Ok tt, w2) ∧
        disk w2 = disk w ∧ schema w2 = schema w ∧ handles w2 = handles w.
Proof.
  intros Hnf H. apply Create_Ok in H as (Hnone & Hd & _ & Hs & Hh).
  destruct (Drop_run colName w1 Hnf) as (w2 & Hrun & Hd2 & Hs2 & Hh2).
  { rewrite Hd. apply Forall_fmap, Forall_true. intros db. simpl.
    rewrite lookup_insert_eq. eauto. }
  exists w2. split; [done|]. split; [|split; congruence].
  rewrite Hd2, Hd, <- list_fmap_compose. apply fmap_id_on.
  eapply Forall_impl; [exact Hnone|]. intros db Hdb. simpl.
  by apply delete_insert_id.
Qed.

(** X6.  When Drop succeeds, every shard had the collection and none has it
    afterwards.  A Create of the same name then succeeds, where no I/O fault
    occurs, and leaves on every shard a collection with no document and no
    index in the place of the old one, all other collections being as they
    were. *)
Theorem Drop_then_Create_gives_empty colName w w1 :
  no_faults E →
  Drop E colName w = (Ok tt, w1) →
  Forall (λ db, is_Some (db !! colName)) (disk w) ∧
  disk w1 = delete colName <$> disk w ∧
  ∃ w2, Create E colName w1 = (Ok tt, w2) ∧
        disk w2 = (λ db, <[colName := mkCol [] []]> db) <$> disk w.
Proof.
  intros Hnf H. apply Drop_Ok in H as (Hsome & Hd & _ & Hs & Hh).
  split; [done|]. split; [done|].
  destruct (Create_run colName w1 Hnf) as (w2 & Hrun & Hd2 & _).
  { rewrite Hd. apply Forall_fmap, Forall_true. intros db. simpl.
    apply lookup_delete_eq. }
  exists w2. split; [done|].
  rewrite Hd2, Hd, <- list_fmap_compose. apply list_fmap_ext.
  intros i db _. simpl. apply insert_delete_eq.
Qed.

(** The shard store after a rename back. *)
Definition renamed (oldName newName : string) (db : DB) : DB :=
  match db !! oldName with
  | Some c => <[newName := c]> (delete oldName db)
  | None => db
  end.

Lemma Rename_Ok oldName newName w w' :
  Rename E oldName newName w = (Ok tt, w') →
  Forall (λ db, is_Some (db !! oldName) ∧ db !! newName = None) (disk w) ∧
  disk w' = renamed oldName newName <$> disk w ∧
  log w' = log w ++ uniform_calls (λ i, EvRename i oldName newName) (nProcs w) ∧
  schema w' = schema w ∧ handles w' = handles w.
Proof.
  intros H.
  apply (forAllDBsDo_store_op_Ok E (λ i, EvRename i oldName newName)
           (db_rename oldName newName)) in H
    as (Hall & Hlog & Hs & Hh); [|done|intros i; simpl; eauto].
  apply (applied_to_all_fmap _ (renamed oldName newName)
           (λ db, is_Some (db !! oldName) ∧ db !! newName = None)) in Hall
    as [HP Hd]; [done|].
  intros db db' Hr. apply db_rename_inr in Hr as (c & Ho & Hn & ->).
  unfold renamed. rewrite Ho. eauto.
Qed.

Lemma Rename_run oldName newName w :
  no_faults E →
  Forall (λ db, is_Some (db !! oldName) ∧ db !! newName = None) (disk w) →
  ∃ w', Rename E oldName newName w = (Ok tt, w') ∧
        disk w' = renamed oldName newName <$> disk w ∧
        schema w' = schema w ∧ handles w' = handles w.
Proof.
  intros Hnf Hall.
  destruct (forAllDBsDo_store_op_run E (λ i, EvRename i oldName newName)
              (db_rename oldName newName) (renamed oldName newName) w Hnf)
    as (w' & Hrun & Hd & _ & Hs & Hh); [|by exists w'].
  eapply Forall_impl; [exact Hall|]. intros db [[c Ho] Hn].
  unfold db_rename, renamed. by rewrite Ho, Hn.
Qed.

(** X7.  When Rename succeeds, every shard had a collection of the old name
    and none of the new name, and the collection is now under the new name on
    every shard.  Renaming it back then succeeds, where no I/O fault occurs,
    and restores every shard directory. *)
Theorem Rename_back_restores oldName newName w w1 :
  no_faults E →
  Rename E oldName newName w = (Ok tt, w1) →
  Forall (λ db, is_Some (db !! oldName) ∧ db !! newName = None) (disk w) ∧
  disk w1 = renamed oldName newName <$> disk w ∧
  Forall (λ db, db !! oldName = None ∧ is_Some (db !! newName)) (disk w1) ∧
  ∃ w2, Rename E newName oldName w1 = (Ok tt, w2) ∧ disk w2 = disk w.
Proof.
  intros Hnf H. apply Rename_Ok in H as (Hall & Hd & _).
  assert (Hafter : Forall (λ db, db !! oldName = None ∧ is_Some (db !! newName)) (disk w1)).
  { rewrite Hd. apply Forall_fmap. eapply Forall_impl; [exact Hall|].
    intros db [[c Ho] Hn]. simpl. unfold renamed. rewrite Ho.
    assert (oldName ≠ newName) by congruence.
    rewrite lookup_insert_ne, lookup_delete_eq, lookup_insert_eq by done. eauto. }
  split; [done|]. split; [done|]. split; [done|].
  destruct (Rename_run newName oldName w1 Hnf) as (w2 & Hrun & Hd2 & _).
  { eapply Forall_impl; [exact Hafter|]. by intros db [? ?]. }
  exists w2. split; [done|].
  rewrite Hd2, Hd, <- list_fmap_compose. apply fmap_id_on.
  eapply Forall_impl; [exact Hall|]. intros db [[c Ho] Hn]. simpl.
  assert (oldName ≠ newName) by congruence.
  unfold renamed. rewrite Ho. rewrite lookup_insert_eq.
  rewrite delete_insert_eq, (delete_delete db), (delete_id db newName) by done.
  by apply insert_delete_id.
Qed.

(** The shard store after the documents of [colName] are removed. *)
Definition truncated (colName : string) (db : DB) : DB :=
  match db !! colName with
  | Some c => <[colName := mkCol (col_indexes c) []]> db
  | None => db
  end.

(** X8.  When Truncate succeeds, every shard had the collection, and the
    collection is left on every shard with the index paths it had and no
    document.  A second Truncate then succeeds, where no I/O fault occurs, and
    changes nothing on the shards. *)
Theorem Truncate_empties_keeps_indexes colName w w1 :
  no_faults E →
  Truncate E colName w = (Ok tt, w1) →
  Forall (λ db, is_Some (db !! colName)) (disk w) ∧
  disk w1 = truncated colName <$> disk w ∧
  Forall2 (λ db db', (col_indexes <$> db' !! colName) = (col_indexes <$> db !! colName) ∧
                     (col_docs <$> db' !! colName) = Some [] ∧
                     ∀ name, name ≠ colName → db' !! name = db !! name)
    (disk w) (disk w1) ∧
  ∃ w2, Truncate E colName w1 = (Ok tt, w2) ∧ disk w2 = disk w1.
Proof.
  intros Hnf H.
  apply (forAllDBsDo_store_op_Ok E (λ i, EvTruncate i colName)
           (db_truncate colName)) in H
    as (Hall & _); [|done|intros i; simpl; eauto].
  apply (applied_to_all_fmap _ (truncated colName)
           (λ db, is_Some (db !! colName))) in Hall as [HP Hd].
  2:{ intros db db' Ht. apply db_truncate_inr in Ht as (c & Hc & ->).
      unfold truncated. rewrite Hc. eauto. }
  split; [done|]. split; [done|]. split.
  { rewrite Hd. apply Forall2_fmap_r, Forall_Forall2_diag.
    eapply Forall_impl; [exact HP|]. intros db [c Hc]. simpl.
    unfold truncated. rewrite Hc, lookup_insert_eq. simpl.
    split; [done|]. split; [done|]. intros name Hne. by rewrite lookup_insert_ne. }
  destruct (forAllDBsDo_store_op_run E (λ i, EvTruncate i colName)
              (db_truncate colName) (truncated colName) w1 Hnf)
    as (w2 & Hrun & Hd2 & _).
  { rewrite Hd. apply Forall_fmap. eapply Forall_impl; [exact HP|].
    intros db [c Hc]. simpl.
    assert (Ht : truncated colName db = <[colName := mkCol (col_indexes c) []]> db)
      by (unfold truncated; by rewrite Hc).
    rewrite Ht. unfold db_truncate, truncated. by rewrite lookup_insert_eq. }
  exists w2. split; [done|]. rewrite Hd2. apply fmap_id_on.
  rewrite Hd. apply Forall_fmap. eapply Forall_impl; [exact HP|].
  intros db [c Hc]. simpl.
  assert (Ht : truncated colName db = <[colName := mkCol (col_indexes c) []]> db)
    by (unfold truncated; by rewrite Hc).
  rewrite Ht. unfold truncated. rewrite lookup_insert_eq. simpl.
  by rewrite insert_insert_eq.
Qed.

End Structural.

(** ** Index: what is left on the shards *)

(** A shard store after [idxPath] is added to the indexes of [colName]. *)
Definition indexed (colName : string) (idxPath : list string) (db : DB) : DB :=
  match db !! colName with
  | Some c => <[colName := mkCol (col_indexes c ++ [idxPath]) (col_docs c)]> db
  | None => db
  end.

(** The collection is there and the path is not indexed yet. *)
Definition indexable (colName : string) (idxPath : list string) (db : DB) : Prop :=
  ∃ c, db !! colName = Some c ∧ idxPath ∉ col_indexes c.

Section IndexTurn.

Variable E : Collab.
Variables (colName : string) (idxPath : list string).

(** One turn of the loop of Index, call by call. *)
Lemma Index_turn_run k w1 :
  Index_turn E colName idxPath k w1 =
  let n := length (log w1) in
  let wo := set_log (log w1 ++ [EvOpenDB k]) w1 in
  match fault E n (EvOpenDB k) with
  | Some e => (Fail e, wo)
  | None =>
      match disk w1 !! k with
      | None => (Fail ("open " +:+ Itoa (Z.of_nat k) +:+ ": no such shard"), wo)
      | Some db =>
          let wh := set_handles (handles w1 ++ [k]) wo in
          match db !! colName with
          | None => (Fail "Collection does not exist", wh)
          | Some c =>
              let wi := set_log (log w1 ++ [EvOpenDB k; EvBPIndex k colName idxPath]) wh in
              match fault E (S n) (EvBPIndex k colName idxPath) with
              | Some e => (Fail e, wi)
              | None =>
                  if decide (idxPath ∈ col_indexes c)
                  then (Fail ("Path " +:+ show_path idxPath +:+ " is already indexed"), wi)
                  else
                    let wc :=
                      set_log (log w1 ++ [EvOpenDB k; EvBPIndex k colName idxPath; EvClose k])
                        (set_disk (<[k := indexed colName idxPath db]> (disk w1)) wi) in
                    match fault E (S (S n)) (EvClose k) with
                    | Some e => (Fail e, wc)
                    | None => (Ok tt, set_handles (handles w1) wc)
                    end
              end
          end
      end
  end.
Proof.
  unfold Index_turn. rewrite run_bind, OpenDB_run. cbv zeta.
  destruct (fault E (length (log w1)) (EvOpenDB k)) as [e|] eqn:Hfo; [done|].
  destruct (disk w1 !! k) as [db|] eqn:Hdb; [|done].
  rewrite run_bind, Use_run. simpl. rewrite Hdb. simpl.
  destruct (db !! colName) as [c|] eqn:Hc; [|done].
  rewrite run_bind, Use_run. simpl. rewrite Hdb. simpl. rewrite Hc.
  rewrite run_bind. simpl. rewrite store_op_run. cbv zeta. simpl.
  rewrite length_app. simpl. rewrite Nat.add_1_r.
  destruct (fault E (S (length (log w1))) (EvBPIndex k colName idxPath)) as [e|] eqn:Hfi.
  { unfold set_log. simpl. by rewrite <- app_assoc. }
  rewrite Hdb. unfold col_index. rewrite Hc.
  destruct (decide (idxPath ∈ col_indexes c)) as [Hin|Hin].
  { unfold set_log. simpl. by rewrite <- app_assoc. }
  rewrite Close_run. cbv zeta. simpl. rewrite !length_app. simpl.
  replace (length (log w1) + 1 + 1) with (S (S (length (log w1)))) by lia.
  unfold indexed. rewrite Hc.
  destruct (fault E (S (S (length (log w1)))) (EvClose k)) as [e|] eqn:Hfc.
  { unfold set_log, set_disk. simpl. by rewrite <- !app_assoc. }
  unfold set_log, set_disk, set_handles. simpl.
  by rewrite remove_last_snoc, <- !app_assoc.
Qed.

End IndexTurn.

Lemma uniform_calls_S ev k :
  uniform_calls ev (S k) = uniform_calls ev k ++ [EvOpenDB k; ev k; EvClose k].
Proof. unfold uniform_calls. rewrite seq_S, bind_app. simpl. done. Qed.

Lemma uniform_calls_store ev k :
  (∀ i, store_call (ev i)) → Forall store_call (uniform_calls ev k).
Proof.
  intros Hev. unfold uniform_calls. apply Forall_forall. intros x Hx.
  apply list_elem_of_bind in Hx as (i & Hx & _).
  apply elem_of_cons in Hx as [->|Hx]; [by eexists|].
  apply elem_of_cons in Hx as [->|Hx]; [done|].
  apply list_elem_of_singleton in Hx as ->. by eexists.
Qed.

(** [w1] is [w] after the first [k] turns of the loop of Index. *)
Definition Index_done_upto (colName : string) (idxPath : list string)
    (w : World) (k : nat) (w1 : World) : Prop :=
  schema w1 = schema w ∧ handles w1 = handles w ∧
  length (disk w1) = length (disk w) ∧
  (∀ j, disk w1 !! j = if decide (j < k)
                       then indexed colName idxPath <$> disk w !! j
                       else disk w !! j) ∧
  (∀ j db, j < k → disk w !! j = Some db → indexable colName idxPath db) ∧
  log w1 = log w ++ uniform_calls (λ i, EvBPIndex i colName idxPath) k.

Section IndexLoop.

Variable E : Collab.
Variables (colName : string) (idxPath : list string).

Lemma Index_loop_inv w r w' :
  forM_ (seq 0 (nProcs w)) (Index_turn E colName idxPath) w = (r, w') →
  ∃ k w1, k ≤ nProcs w ∧ Index_done_upto colName idxPath w k w1 ∧
    ((r = Ok tt ∧ k = nProcs w ∧ w' = w1) ∨
     (k < nProcs w ∧ r ≠ Ok tt ∧ Index_turn E colName idxPath k w1 = (r, w'))).
Proof.
  intros Hrun. unfold nProcs in *.
  pose (I := λ (done : list nat) (w1 : World),
    Index_done_upto colName idxPath w (length done) w1).
  pose (Q := λ (r : Res unit) (w2 : World),
    ∃ k w1, k < length (disk w) ∧ Index_done_upto colName idxPath w k w1 ∧
            r ≠ Ok tt ∧ Index_turn E colName idxPath k w1 = (r, w2)).
  assert (H : match r with Ok _ => I (seq 0 (length (disk w))) w' | _ => Q r w' end).
  { apply (forM_rule I Q (Index_turn E colName idxPath)
             (seq 0 (length (disk w)))) with (w := w) (w' := w'); [| |done].
    2:{ repeat split; auto.
        - intros j db Hj. simpl in Hj. lia.
        - unfold uniform_calls. simpl. by rewrite app_nil_r. }
    clear r w' Hrun. intros done x rest w1 r1 w2 Hl HI Hturn.
    apply seq_split_at in Hl as (-> & Hlt & _).
    destruct r1 as [[]|e|]; [|by exists (length done), w1..].
    destruct HI as (Hs & Hh & Hlen & Hd & Hix & Hlog).
    assert (Hdk : disk w1 !! length done = disk w !! length done).
    { rewrite Hd. by rewrite decide_False by lia. }
    rewrite Index_turn_run in Hturn. cbv zeta in Hturn.
    destruct (fault E _ (EvOpenDB _)); [done|].
    destruct (disk w1 !! length done) as [db|] eqn:Hdb; [|done].
    destruct (db !! colName) as [c|] eqn:Hc; [|done].
    destruct (fault E _ (EvBPIndex _ _ _)); [done|].
    destruct (decide (idxPath ∈ col_indexes c)) as [|Hnin]; [done|].
    destruct (fault E _ (EvClose _)); [done|].
    injection Hturn as <-. unfold I, Index_done_upto. simpl.
    rewrite length_app. simpl. rewrite Nat.add_1_r.
    split; [done|]. split; [done|]. split; [by rewrite length_insert|].
    split; [|split].
    - intros j. destruct (decide (j = length done)) as [->|Hne].
      + rewrite list_lookup_insert_eq by (rewrite Hlen; lia).
        rewrite decide_True by lia. by rewrite <- Hdk.
      + rewrite list_lookup_insert_ne by done. rewrite Hd.
        destruct (decide (j < length done)); [by rewrite decide_True by lia|].
        by rewrite decide_False by lia.
    - intros j db' Hj Hdb'. destruct (decide (j = length done)) as [->|Hne].
      + rewrite <- Hdk in Hdb'. injection Hdb' as <-. by exists c.
      + apply (Hix j); [lia|done].
    - by rewrite uniform_calls_S, Hlog, <- !app_assoc. }
  destruct r as [[]|e|].
  - exists (length (disk w)), w'. split; [done|].
    unfold I in H. rewrite length_seq in H. split; [done|]. by left.
  - destruct H as (k & w1 & Hk & HI & Hne & Hturn).
    exists k, w1. split; [lia|]. split; [done|]. by right.
  - destruct H as (k & w1 & Hk & HI & Hne & Hturn).
    exists k, w1. split; [lia|]. split; [done|]. by right.
Qed.

(** A turn that fails. *)
Lemma Index_turn_failed k w1 r w2 db :
  Index_turn E colName idxPath k w1 = (r, w2) → r ≠ Ok tt →
  disk w1 !! k = Some db →
  (∃ e, r = Fail e) ∧ schema w2 = schema w1 ∧
  (∀ j, j ≠ k → disk w2 !! j = disk w1 !! j) ∧
  (∃ evs, log w2 = log w1 ++ evs ∧ Forall store_call evs) ∧
  (disk w2 !! k = Some db ∨
   (last (log w2) = Some (EvClose k) ∧ indexable colName idxPath db ∧
    disk w2 !! k = Some (indexed colName idxPath db))).
Proof.
  rewrite Index_turn_run. cbv zeta. intros Hturn Hne Hdb.
  assert (Ho : store_call (EvOpenDB k)) by by eexists.
  assert (Hi : store_call (EvBPIndex k colName idxPath)) by by eexists.
  assert (Hc : store_call (EvClose k)) by by eexists.
  destruct (fault E _ (EvOpenDB _)) as [e|].
  { injection Hturn as <- <-. simpl. split; [eauto|]. split; [done|]. split; [done|].
    split; [|by left]. exists [EvOpenDB k]. by repeat constructor. }
  rewrite Hdb in Hturn.
  destruct (db !! colName) as [c|] eqn:Hcol.
  2:{ injection Hturn as <- <-. simpl. split; [eauto|]. split; [done|]. split; [done|].
      split; [|by left]. exists [EvOpenDB k]. by repeat constructor. }
  destruct (fault E _ (EvBPIndex _ _ _)) as [e|].
  { injection Hturn as <- <-. simpl. split; [eauto|]. split; [done|]. split; [done|].
    split; [|by left]. exists [EvOpenDB k; EvBPIndex k colName idxPath].
    by repeat constructor. }
  destruct (decide (idxPath ∈ col_indexes c)) as [|Hnin].
  { injection Hturn as <- <-. simpl. split; [eauto|]. split; [done|]. split; [done|].
    split; [|by left]. exists [EvOpenDB k; EvBPIndex k colName idxPath].
    by repeat constructor. }
  destruct (fault E _ (EvClose _)) as [e|]; [|by injection Hturn as <- <-].
  injection Hturn as <- <-. simpl. split; [eauto|]. split; [done|]. split.
  { intros j Hj. by rewrite list_lookup_insert_ne. }
  split.
  { exists [EvOpenDB k; EvBPIndex k colName idxPath; EvClose k]. by repeat constructor. }
  right. split.
  { change [EvOpenDB k; EvBPIndex k colName idxPath; EvClose k]
      with ([EvOpenDB k; EvBPIndex k colName idxPath] ++ [EvClose k]).
    by rewrite app_assoc, last_snoc. }
  split; [by exists c|].
  apply list_lookup_insert_eq. by apply lookup_lt_Some in Hdb.
Qed.

Lemma Index_reindex_reloads w1 r w' :
  Index_reindex E colName idxPath w1 = (r, w') →
  disk w' = disk w1 ∧ handles w' = handles w1 ∧
  ∃ evs, log w' = log w1 ++ EvReload :: evs.
Proof.
  intros H.
  destruct (Index_reindex_calls E colName idxPath _ _ _ H) as (_ & Hd & Hh & _).
  split; [done|]. split; [done|].
  unfold Index_reindex in H.
  apply bind_inv in H as [([] & w2 & Hr & H)|[(e & Hr & _)|[Hr _]]];
    rewrite reloadServer_run in Hr; destruct (fault E _ EvReload); try done.
  - injection Hr as <-.
    assert (Hrest : calls_only to_servers
              (set_schema (srv_schema E (length (log w1)) (disk w1))
                 (set_log (log w1 ++ [EvReload]) w1)) w').
    { revert H. apply preserves_bind; [apply _|apply preserves_get, _|].
      intros w. destruct (decide _); [apply preserves_fail, _|]. apply Index_pages_calls. }
    destruct Hrest as (_ & _ & _ & evs & Hl & _). simpl in Hl.
    exists evs. by rewrite Hl, <- app_assoc.
  - injection Hr as _ <-. by exists [].
Qed.

(** X9.  Index does not undo what it has done.  It comes to its reload only
    once the index is built on every shard ([k] is the shard count), and what
    follows the reload leaves the shards alone.  When it fails before that, on
    shard [k], it returns an error having called the shard stores only: the
    schema cache is as before, the shards before [k] keep the new index, the
    shards after [k] are untouched, and shard [k] is untouched unless it was
    its close that failed. *)
Theorem Index_never_rolls_back w r w' :
  Index E colName idxPath w = (r, w') →
  ∃ k, k ≤ nProcs w ∧
    (∀ i db, i < k → disk w !! i = Some db →
       indexable colName idxPath db ∧
       disk w' !! i = Some (indexed colName idxPath db)) ∧
    (∀ i, k < i → disk w' !! i = disk w !! i) ∧
    (k = nProcs w → EvReload ∈ new_calls w w') ∧
    (k < nProcs w →
       (∃ e, r = Fail e) ∧ schema w' = schema w ∧
       Forall store_call (new_calls w w') ∧
       ∃ db, disk w !! k = Some db ∧
         (disk w' !! k = Some db ∨
          (last (log w') = Some (EvClose k) ∧ indexable colName idxPath db ∧
           disk w' !! k = Some (indexed colName idxPath db)))).
Proof.
  rewrite Index_unfold. intros H.
  apply bind_inv in H as [([] & w1 & Hloop & Hre)|[(e & Hloop & ->)|[Hloop ->]]].
  - destruct (Index_loop_inv _ _ _ Hloop) as (k & w0 & _ & HI & [(_ & -> & <-)|(_ & ? & _)]);
      [|done].
    destruct HI as (_ & _ & Hlen & Hd & Hix & Hlog).
    destruct (Index_reindex_reloads _ _ _ Hre) as (Hd' & _ & evs & Hl).
    exists (nProcs w). split; [done|]. split; [|split; [|split]].
    + intros i db Hi Hdb. split; [by eapply Hix|].
      rewrite Hd', Hd, decide_True by done. by rewrite Hdb.
    + intros i Hi. rewrite Hd', Hd, decide_False by lia. done.
    + intros _. rewrite (new_calls_app w w' _ ltac:(by rewrite Hl, Hlog, <- app_assoc)).
      set_solver.
    + lia.
  - destruct (Index_loop_inv _ _ _ Hloop) as (k & w0 & _ & HI & [(? & _)|(Hk & Hne & Hturn)]);
      [done|].
    destruct HI as (Hs & _ & Hlen & Hd & Hix & Hlog).
    destruct (lookup_lt_is_Some_2 (disk w) k Hk) as [db Hdb].
    assert (Hdbk : disk w0 !! k = Some db).
    { by rewrite Hd, decide_False by lia. }
    destruct (Index_turn_failed _ _ _ _ _ Hturn Hne Hdbk)
      as (He & Hs' & Hd' & (evs & Hl & Hevs) & Hk').
    exists k. split; [lia|]. split; [|split; [|split]].
    + intros i db' Hi Hdb'. split; [by eapply Hix|].
      rewrite Hd' by lia. rewrite Hd, decide_True by done. by rewrite Hdb'.
    + intros i Hi. rewrite Hd' by lia. by rewrite Hd, decide_False by lia.
    + lia.
    + intros _. split; [done|]. split; [congruence|]. split; [|by exists db].
      rewrite (new_calls_app w w' _ ltac:(by rewrite Hl, Hlog, <- app_assoc)).
      apply Forall_app. split; [|done]. by apply uniform_calls_store; eexists.
  - destruct (Index_loop_inv _ _ _ Hloop) as (k & w0 & _ & HI & [(? & _)|(Hk & Hne & Hturn)]);
      [done|].
    destruct HI as (Hs & _ & Hlen & Hd & Hix & Hlog).
    destruct (lookup_lt_is_Some_2 (disk w) k Hk) as [db Hdb].
    assert (Hdbk : disk w0 !! k = Some db).
    { by rewrite Hd, decide_False by lia. }
    by destruct (Index_turn_failed _ _ _ _ _ Hturn Hne Hdbk) as ((e & ?) & _).
Qed.

End IndexLoop.

Lemma uniform_calls_length ev k : length (uniform_calls ev k) = 3 * k.
Proof.
  induction k as [|k IH]; [done|].
  rewrite uniform_calls_S, length_app, IH. simpl. lia.
Qed.

Lemma filter_ne_absent {A} `{EqDecision A} (x : A) (l : list A) :
  x ∉ l → filter (λ y, y ≠ x) l = l.
Proof.
  induction l as [|y l IH]; [done|]. intros Hx.
  apply not_elem_of_cons in Hx as [Hne Hx].
  rewrite filter_cons_True by done. by rewrite IH.
Qed.

Lemma unindexed_indexed colName idxPath db :
  indexable colName idxPath db →
  unindexed colName idxPath (indexed colName idxPath db) = db.
Proof.
  intros ([idxs docs] & Hc & Hnin). simpl in Hnin.
  unfold indexed. rewrite Hc. unfold unindexed. rewrite lookup_insert_eq. simpl.
  rewrite insert_insert_eq, filter_app, filter_ne_absent by done.
  rewrite filter_cons_False, filter_nil, app_nil_r by (intros ?; done).
  by apply insert_id.
Qed.

Section IndexRuns.

Variable E : Collab.
Variables (colName : string) (idxPath : list string).

(** Where a run of Index ended: after its loop over the shards, or in turn
    [k] of it. *)
Lemma Index_run_inv w r w' :
  Index E colName idxPath w = (r, w') →
  (∃ w1, Index_done_upto colName idxPath w (nProcs w) w1 ∧
         Index_reindex E colName idxPath w1 = (r, w')) ∨
  (∃ k w1, k < nProcs w ∧ Index_done_upto colName idxPath w k w1 ∧ r ≠ Ok tt ∧
           Index_turn E colName idxPath k w1 = (r, w')).
Proof.
  rewrite Index_unfold. intros H.
  apply bind_inv in H as [([] & w1 & Hloop & Hre)|[(e & Hloop & ->)|[Hloop ->]]];
    destruct (Index_loop_inv E _ _ _ _ _ Hloop)
      as (k & w0 & _ & HI & [(? & -> & <-)|(Hk & Hne & Hturn)]); try done.
  - left. by exists w1.
  - right. by exists k, w0.
  - right. by exists k, w0.
Qed.

Lemma Index_done_all w w1 :
  Index_done_upto colName idxPath w (nProcs w) w1 →
  Forall (indexable colName idxPath) (disk w) ∧
  disk w1 = indexed colName idxPath <$> disk w.
Proof.
  intros (_ & _ & Hlen & Hd & Hix & _). split.
  - apply Forall_lookup. intros i db Hdb. apply (Hix i); [|done].
    by apply lookup_lt_Some in Hdb.
  - apply list_eq. intros j. rewrite Hd, list_lookup_fmap.
    destruct (decide (j < nProcs w)) as [|Hge]; [done|].
    rewrite lookup_ge_None_2; [done|]. unfold nProcs in Hge. lia.
Qed.

Lemma Index_reloaded w r w' :
  Index E colName idxPath w = (r, w') →
  r = Ok tt ∨ EvReload ∈ new_calls w w' →
  ∃ w1, Index_done_upto colName idxPath w (nProcs w) w1 ∧
        Index_reindex E colName idxPath w1 = (r, w').
Proof.
  intros H Hre. apply Index_run_inv in H as [?|(k & w1 & Hk & HI & Hne & Hturn)]; [done|].
  destruct Hre as [->|Hin]; [done|]. exfalso.
  destruct HI as (_ & _ & _ & Hd & _ & Hlog).
  destruct (lookup_lt_is_Some_2 (disk w) k Hk) as [db Hdb].
  assert (Hdbk : disk w1 !! k = Some db) by (by rewrite Hd, decide_False by lia).
  destruct (Index_turn_failed E _ _ _ _ _ _ _ Hturn Hne Hdbk)
    as (_ & _ & _ & (evs & Hl & Hevs) & _).
  rewrite (new_calls_app w w' _ ltac:(by rewrite Hl, Hlog, <- app_assoc)) in Hin.
  apply elem_of_app in Hin as [Hin|Hin].
  - pose proof (uniform_calls_store (λ i, EvBPIndex i colName idxPath) k
                  ltac:(by eexists)) as Hall.
    rewrite Forall_forall in Hall. apply Hall in Hin. by destruct Hin.
  - rewrite Forall_forall in Hevs. apply Hevs in Hin. by destruct Hin.
Qed.

(** X10.  When Index succeeds, every shard had the collection without the
    path indexed, and now has the path as the last index of the collection;
    every store handle is closed again.  The shards were handled one after the
    other, then the schema was reloaded: the schema cache is the one the
    servers gave at that reload, for the shard directories as Index leaves
    them, and it has a hash table for the new index. *)
Theorem Index_builds_on_every_shard w w' :
  Index E colName idxPath w = (Ok tt, w') →
  let n := length (log w) + 3 * nProcs w in
  Forall (indexable colName idxPath) (disk w) ∧
  disk w' = indexed colName idxPath <$> disk w ∧
  handles w' = handles w ∧
  take (3 * nProcs w) (new_calls w w') =
    uniform_calls (λ i, EvBPIndex i colName idxPath) (nProcs w) ∧
  log w' !! n = Some EvReload ∧
  schema w' = srv_schema E n (disk w') ∧
  GetHTIDByPath E (schema w') colName idxPath ≠ (-1)%Z.
Proof.
  intros H n. destruct (Index_reloaded _ _ _ H) as (w1 & HI & Hre); [by left|].
  destruct (Index_done_all _ _ HI) as [Hall Hd1].
  destruct HI as (_ & Hh & _ & _ & _ & Hlog).
  destruct (Index_reindex_reloads E _ _ _ _ _ Hre) as (Hd & Hh' & evs & Hl).
  assert (Hn : length (log w1) = n).
  { rewrite Hlog, length_app, uniform_calls_length. done. }
  split; [done|]. split; [congruence|]. split; [congruence|]. split; [|split].
  - rewrite (new_calls_app w w' _ ltac:(by rewrite Hl, Hlog, <- app_assoc)).
    rewrite take_app_length'; [done|]. by rewrite uniform_calls_length.
  - rewrite Hl, <- Hn. by rewrite list_lookup_middle.
  - unfold Index_reindex in Hre. apply bind_Ok_inv in Hre as ([] & w2 & Hrel & Hre).
    rewrite reloadServer_run in Hrel. destruct (fault E _ _); [done|].
    injection Hrel as <-. rewrite run_bind in Hre. simpl in Hre.
    destruct (decide _) as [|Hht]; [done|].
    apply Index_pages_schema in Hre. unfold same_schema in Hre. simpl in Hre.
    rewrite Hn in Hht. by rewrite Hre, Hd, Hn.
Qed.

(** X11.  Unindex undoes Index on the shards.  Once Index has come to its
    reload, and so whenever it has succeeded, an Unindex of the same path
    succeeds, where no I/O fault occurs, and leaves every shard directory as
    it was before the Index. *)
Theorem Index_then_Unindex_restores w r w' :
  no_faults E →
  Index E colName idxPath w = (r, w') →
  r = Ok tt ∨ EvReload ∈ new_calls w w' →
  ∃ w2, Unindex E colName idxPath w' = (Ok tt, w2) ∧ disk w2 = disk w.
Proof.
  intros Hnf H Hre. destruct (Index_reloaded _ _ _ H Hre) as (w1 & HI & Hrun).
  destruct (Index_done_all _ _ HI) as [Hall Hd1].
  destruct (Index_reindex_reloads E _ _ _ _ _ Hrun) as (Hd & _).
  destruct (Unindex_no_fault_run E colName idxPath w' Hnf) as (w2 & Hun & Hd2 & _).
  { intros i db c. rewrite Hd, Hd1, list_lookup_fmap. intros Hdb Hc.
    destruct (disk w !! i) as [db0|] eqn:Hdb0; [|done]. injection Hdb as <-.
    rewrite Forall_lookup in Hall. destruct (Hall _ _ Hdb0) as (c0 & Hc0 & _).
    unfold indexed in Hc. rewrite Hc0, lookup_insert_eq in Hc. injection Hc as <-.
    simpl. apply elem_of_app. right. by apply list_elem_of_singleton. }
  exists w2. split; [done|].
  rewrite Hd2, Hd, Hd1, <- list_fmap_compose. apply fmap_id_on.
  eapply Forall_impl; [exact Hall|]. intros db Hdb. by apply unindexed_indexed.
Qed.

End IndexRuns.

Section IndexTwice.

Variable E : Collab.
Variables (colName : string) (idxPath : list string).

Lemma Index_first_turn_fails w e w2 :
  0 < nProcs w →
  Index_turn E colName idxPath 0 w = (Fail e, w2) →
  Index E colName idxPath w = (Fail e, w2).
Proof.
  intros HN Hturn. rewrite Index_unfold. unfold nProcs in *.
  destruct (disk w) as [|d0 d]; [simpl in HN; lia|].
  cbn [length seq forM_]. rewrite !run_bind. by rewrite Hturn.
Qed.

(** X17.  Index does not repeat.  After an Index that succeeded, a second
    Index of the same path stops at shard 0, where no I/O fault occurs: the
    store finds the path indexed already, and Index returns the error of the
    store.  The second run changes no shard and does not come to its reload,
    and it leaves the store handle of shard 0 open. *)
Theorem Index_twice_fails w w' :
  no_faults E → 0 < nProcs w →
  Index E colName idxPath w = (Ok tt, w') →
  ∃ e w2, Index E colName idxPath w' = (Fail e, w2) ∧
          disk w2 = disk w' ∧ schema w2 = schema w' ∧
          handles w2 = handles w' ++ [0] ∧
          new_calls w' w2 = [EvOpenDB 0; EvBPIndex 0 colName idxPath].
Proof.
  intros Hnf HN H.
  destruct (Index_reloaded E _ _ _ _ _ H) as (w1 & HI & Hre); [by left|].
  destruct (Index_done_all _ _ _ _ HI) as [Hall Hd1].
  destruct (Index_reindex_reloads E _ _ _ _ _ Hre) as (Hd & _).
  destruct (lookup_lt_is_Some_2 (disk w) 0 HN) as [db0 Hdb0].
  rewrite Forall_lookup in Hall. destruct (Hall _ _ Hdb0) as ([idxs docs] & Hc & Hnin).
  assert (Hdb' : disk w' !! 0 = Some (indexed colName idxPath db0)).
  { by rewrite Hd, Hd1, list_lookup_fmap, Hdb0. }
  assert (HN' : 0 < nProcs w') by (by eapply lookup_lt_Some).
  eexists. eexists. split.
  - apply Index_first_turn_fails; [done|].
    rewrite Index_turn_run. cbv zeta. rewrite !Hnf, Hdb'.
    unfold indexed at 1. rewrite Hc, lookup_insert_eq. simpl.
    rewrite decide_True; [done|].
    apply elem_of_app. right. by apply list_elem_of_singleton.
  - simpl. split; [done|]. split; [done|]. split; [done|].
    unfold new_calls. simpl. by rewrite drop_app_length.
Qed.

End IndexTwice.

(** ** No nil collection is dereferenced *)

(** [m] never ends in a Go panic. *)
Definition never_panics {A} (m : M A) : Prop := ∀ w w', m w ≠ (Panic, w').

Lemma never_panics_ret {A} (a : A) : never_panics (mret a : M A).
Proof. by intros w w'. Qed.

Lemma never_panics_fail {A} e : never_panics (fail e : M A).
Proof. by intros w w'. Qed.

Lemma never_panics_get : never_panics get.
Proof. by intros w w'. Qed.

Lemma never_panics_modify f : never_panics (modify f).
Proof. by intros w w'. Qed.

Lemma never_panics_bind {A B} (m : M A) (k : A → M B) :
  never_panics m → (∀ a, never_panics (k a)) → never_panics (m ≫= k).
Proof.
  intros Hm Hk w w' H.
  apply bind_inv in H as [(a & w1 & _ & H)|[(e & _ & ?)|[H _]]]; [|done|].
  - by apply Hk in H.
  - by apply Hm in H.
Qed.

Lemma never_panics_forM {A} (l : list A) (body : A → M unit) :
  (∀ x, never_panics (body x)) → never_panics (forM_ l body).
Proof.
  intros Hb. induction l as [|x l IH]; simpl; [apply never_panics_ret|].
  apply never_panics_bind; auto.
Qed.

Section NeverPanics.

Variable E : Collab.

Lemma never_panics_tick ev : never_panics (tick ev).
Proof. by intros w w'. Qed.

Lemma never_panics_io ev : never_panics (io E ev).
Proof. intros w w'. rewrite io_run. by destruct (fault E _ _). Qed.

Lemma never_panics_reloadServer : never_panics (reloadServer E).
Proof. intros w w'. rewrite reloadServer_run. by destruct (fault E _ _). Qed.

Lemma never_panics_Close i : never_panics (Close E i).
Proof. intros w w'. rewrite Close_run. cbv zeta. by destruct (fault E _ _). Qed.

(** A store primitive panics only on a handle that was never opened. *)
Lemma store_op_not_Panic i ev f w w' :
  is_Some (disk w !! i) → store_op E i ev f w ≠ (Panic, w').
Proof.
  intros [db Hdb]. rewrite store_op_run. cbv zeta.
  destruct (fault E _ _); [done|]. rewrite Hdb. by destruct (f db).
Qed.

Lemma store_op_keeps_shard i ev f w w' :
  store_op E i ev f w = (Ok tt, w') → is_Some (disk w' !! i).
Proof.
  intros H. apply store_op_Ok_inv in H as (db & db' & Hdb & _ & -> & _).
  rewrite list_lookup_insert_eq; [eauto|]. by apply lookup_lt_Some in Hdb.
Qed.

Lemma round_never_panics fun_ i :
  (∀ w w', is_Some (disk w !! i) → fun_ i w ≠ (Panic, w')) →
  never_panics (round E fun_ i).
Proof.
  intros Hf w w' H. unfold round in H.
  apply bind_inv in H as [(j & w1 & Ho & H)|[(e & _ & ?)|[Ho _]]]; [|done|].
  - destruct (OpenDB_Ok_inv _ _ _ _ _ Ho) as (-> & Hd & Hsome & _).
    apply bind_inv in H as [([] & w2 & _ & H)|[(e & _ & ?)|[H _]]]; [|done|].
    + by apply never_panics_Close in H.
    + apply Hf in H; [done|]. by rewrite Hd.
  - by apply OpenDB_not_Panic in Ho.
Qed.

Lemma forAllDBsDo_never_panics fun_ :
  (∀ i w w', is_Some (disk w !! i) → fun_ i w ≠ (Panic, w')) →
  never_panics (forAllDBsDo E fun_).
Proof.
  intros Hf. unfold forAllDBsDo.
  apply never_panics_bind; [apply never_panics_get|]. intros w0.
  apply never_panics_forM. intros i. apply (round_never_panics fun_ i), Hf.
Qed.

(** The collection Scrub has just created is there when it is indexed. *)
Lemma Scrub_create_action_not_Panic tmpColName idxs i w w' :
  is_Some (disk w !! i) →
  Scrub_create_action E tmpColName idxs i w ≠ (Panic, w').
Proof.
  intros Hsome H. unfold Scrub_create_action in H.
  apply bind_inv in H as [([] & w1 & Hc & H)|[(e & _ & ?)|[Hc _]]]; [|done|].
  2:{ by apply store_op_not_Panic in Hc. }
  apply store_op_Ok_inv in Hc as (db & db' & Hdb & Hf & Hd1 & _).
  apply db_create_inr in Hf as [_ ->].
  pose (I := λ (_ : list (list string)) (w2 : World),
    ∃ db2, disk w2 !! i = Some db2 ∧ is_Some (db2 !! tmpColName)).
  assert (HQ : (Panic : Res unit) ≠ Panic); [|done].
  refine (forM_rule I (λ r _, r ≠ Panic) _ idxs _ w1 Panic w' _ H).
  - clear H w'. intros done p rest wa r wb _ (db2 & Hdb2 & [c Hc]) Hb.
    rewrite run_bind, Use_run in Hb. simpl in Hb. rewrite Hdb2 in Hb. simpl in Hb.
    rewrite Hc in Hb. simpl in Hb. rewrite store_op_run in Hb. cbv zeta in Hb.
    destruct (fault E _ _); [by injection Hb as <- _|]. rewrite Hdb2 in Hb.
    unfold col_index in Hb. rewrite Hc in Hb.
    destruct (decide _); [by injection Hb as <- _|]. injection Hb as <- <-.
    eexists. simpl. split.
    + apply list_lookup_insert_eq. by apply lookup_lt_Some in Hdb2.
    + rewrite lookup_insert_eq. eauto.
  - eexists. rewrite Hd1. split.
    + apply list_lookup_insert_eq. by apply lookup_lt_Some in Hdb.
    + rewrite lookup_insert_eq. eauto.
Qed.

Lemma Scrub_swap_action_not_Panic colName tmpColName i w w' :
  is_Some (disk w !! i) →
  Scrub_swap_action E colName tmpColName i w ≠ (Panic, w').
Proof.
  intros Hsome H. unfold Scrub_swap_action in H.
  apply bind_inv in H as [([] & w1 & Hc & H)|[(e & _ & ?)|[Hc _]]]; [|done|].
  - apply store_op_keeps_shard in Hc. by apply store_op_not_Panic in H.
  - by apply store_op_not_Panic in Hc.
Qed.

Lemma Unindex_turn_never_panics colName idxPath k :
  never_panics (Unindex_turn E colName idxPath k).
Proof.
  intros w1 w'. unfold Unindex_turn. rewrite run_bind, OpenDB_run. cbv zeta.
  destruct (fault E _ _) as [e|]; [done|].
  destruct (disk w1 !! k) as [db|] eqn:Hdb; [|done].
  rewrite run_bind, Use_run. simpl. rewrite Hdb. simpl.
  destruct (db !! colName) as [c|] eqn:Hc; [|done].
  rewrite run_bind, Use_run. simpl. rewrite Hdb. simpl. rewrite Hc.
  rewrite run_bind. simpl. rewrite store_op_run. cbv zeta. simpl.
  destruct (fault E _ _) as [e|]; [done|].
  rewrite Hdb. unfold col_unindex. rewrite Hc.
  destruct (decide _); [|done].
  rewrite Close_run. cbv zeta. simpl. by destruct (fault E _ _).
Qed.

Lemma Index_turn_never_panics colName idxPath k :
  never_panics (Index_turn E colName idxPath k).
Proof.
  intros w1 w'. rewrite Index_turn_run. cbv zeta.
  destruct (fault E _ _) as [e|]; [done|].
  destruct (disk w1 !! k) as [db|]; [|done].
  destruct (db !! colName) as [c|]; [|done].
  destruct (fault E _ _) as [e|]; [done|].
  destruct (decide _); [done|]. by destruct (fault E _ _).
Qed.

Lemma Index_pages_never_panics colName idxPath htid n :
  n ≠ 0%Z → never_panics (Index_pages E colName idxPath htid n).
Proof.
  intros Hn. unfold Index_pages, approxDocCount, getDocPage.
  apply never_panics_bind.
  { apply never_panics_bind; [apply never_panics_io|]. intros _.
    apply never_panics_bind; [apply never_panics_get|]. intros w.
    apply never_panics_ret. }
  intros docCount. apply never_panics_forM. intros page.
  apply never_panics_bind.
  { apply never_panics_bind; [apply never_panics_io|]. intros _.
    apply never_panics_bind; [apply never_panics_get|]. intros w.
    apply never_panics_ret. }
  intros docs. apply never_panics_forM. intros [docID doc]. unfold Index_doc.
  apply never_panics_forM. intros val.
  destruct (is_nil val); [apply never_panics_ret|].
  destruct (decide (n = 0%Z)); [done|]. unfold sendCmd.
  apply never_panics_bind; [apply never_panics_io|]. intros _. apply never_panics_ret.
Qed.

Lemma Scrub_migrate_never_panics colName tmpColID :
  never_panics (Scrub_migrate E colName tmpColID).
Proof.
  unfold Scrub_migrate, approxDocCount, getDocPage.
  apply never_panics_bind.
  { apply never_panics_bind; [apply never_panics_io|]. intros _.
    apply never_panics_bind; [apply never_panics_get|]. intros w.
    apply never_panics_ret. }
  intros docCount. apply never_panics_forM. intros page.
  apply never_panics_bind.
  { apply never_panics_bind; [apply never_panics_io|]. intros _.
    apply never_panics_bind; [apply never_panics_get|]. intros w.
    apply never_panics_ret. }
  intros docs. apply never_panics_forM. intros [docID doc]. unfold insertRecovery.
  apply never_panics_bind; [apply never_panics_io|]. intros _. apply never_panics_ret.
Qed.

Lemma nProcs_not_zero (N : nat) :
  0 < N → (Z.of_nat N < 2 ^ 63)%Z → uint64 (Z.of_nat N) ≠ 0%Z.
Proof.
  intros H0 H63. rewrite uint64_small; [lia|].
  assert (2 ^ 63 < 2 ^ 64)%Z by done. lia.
Qed.

Lemma never_panics_run {A} (m : M A) w : never_panics m → (m w).1 ≠ Panic.
Proof. intros Hm Hp. apply (Hm w (m w).2). by rewrite <- Hp, <- run_pair. Qed.

Lemma store_round_never_panics (ev : nat → Event) f :
  never_panics (forAllDBsDo E (λ i, store_op E i (ev i) f)).
Proof. apply forAllDBsDo_never_panics. intros i w w'. apply store_op_not_Panic. Qed.

(** X12.  No operation of the client ends in a panic.  No nil collection is
    dereferenced: Index looks the collection up a second time after its check,
    and Scrub indexes the collection it has just created, and both lookups
    find it.  Index takes the hash of a value modulo the shard count, which
    does not divide by zero once there is a shard. *)
Theorem operations_never_panic w :
  (∀ colName, (Create E colName w).1 ≠ Panic) ∧
  (∀ oldName newName, (Rename E oldName newName w).1 ≠ Panic) ∧
  (∀ colName, (Truncate E colName w).1 ≠ Panic) ∧
  (∀ colName, (Drop E colName w).1 ≠ Panic) ∧
  (∀ colName idxPath, (Unindex E colName idxPath w).1 ≠ Panic) ∧
  (∀ colName, (Scrub E colName w).1 ≠ Panic) ∧
  (∀ colName idxPath,
     0 < nProcs w → (Z.of_nat (nProcs w) < 2 ^ 63)%Z →
     (Index E colName idxPath w).1 ≠ Panic).
Proof.
  split; [|split; [|split; [|split; [|split; [|split]]]]].
  - intros c. apply never_panics_run, (store_round_never_panics (λ i, EvCreate i c)).
  - intros o n. apply never_panics_run, (store_round_never_panics (λ i, EvRename i o n)).
  - intros c. apply never_panics_run, (store_round_never_panics (λ i, EvTruncate i c)).
  - intros c. apply never_panics_run, (store_round_never_panics (λ i, EvDrop i c)).
  - intros c p Hp.
    apply (never_panics_forM (seq 0 (nProcs w)) (Unindex_turn E c p)
             (Unindex_turn_never_panics c p) w (Unindex E c p w).2).
    rewrite <- Unindex_unfold, <- Hp. apply run_pair.
  - intros c Hp.
    pose proof (run_pair (Scrub E c) w) as H. rewrite Hp, Scrub_unfold in H.
    destruct (colNameLookup (schema w) !! c) as [colID|]; [|done].
    revert H. apply never_panics_bind.
    { unfold Now. apply never_panics_bind; [apply never_panics_tick|].
      intros n. apply never_panics_ret. }
    intros now. apply never_panics_bind.
    { apply forAllDBsDo_never_panics. intros i w1 w2.
      apply Scrub_create_action_not_Panic. }
    intros _. apply never_panics_bind.
    { unfold Scrub_reload_migrate.
      apply never_panics_bind; [apply never_panics_reloadServer|]. intros _.
      apply never_panics_bind; [apply never_panics_get|]. intros w1.
      destruct (colNameLookup (schema w1) !! _); [|apply never_panics_fail].
      apply Scrub_migrate_never_panics. }
    intros _. unfold Scrub_swap. apply never_panics_bind.
    { apply forAllDBsDo_never_panics. intros i w1 w2.
      apply Scrub_swap_action_not_Panic. }
    intros _. apply never_panics_reloadServer.
  - intros c p H0 H63 Hp.
    pose proof (run_pair (Index E c p) w) as H. rewrite Hp, Index_unfold in H.
    apply bind_inv in H as [([] & w1 & Hloop & H)|[(e & _ & ?)|[Hloop _]]]; [|done|].
    2:{ revert Hloop. apply never_panics_forM, Index_turn_never_panics. }
    pose proof (Index_loop_length E _ _ _ _ _ Hloop) as Hlen.
    unfold Index_reindex in H.
    apply bind_inv in H as [([] & w2 & Hr & H)|[(e & _ & ?)|[Hr _]]]; [|done|].
    2:{ by apply never_panics_reloadServer in Hr. }
    rewrite reloadServer_run in Hr. destruct (fault E _ _); [done|].
    injection Hr as <-. rewrite run_bind in H. simpl in H.
    destruct (decide _); [done|]. revert H. apply Index_pages_never_panics.
    unfold nProcs. simpl. rewrite Hlen. by apply nProcs_not_zero.
Qed.

End NeverPanics.

(** ** Scrub: what is left on the shards *)

(** What a successful scrub of [colName] through the temporary collection
    [tmp] makes of one shard store: the collection is there with the index
    paths [idxs], the temporary collection is gone, and every other collection
    is as it was. *)
Definition scrubbed (colName tmp : string) (idxs : list (list string))
    (db db' : DB) : Prop :=
  is_Some (db !! colName) ∧ db !! tmp = None ∧
  (col_indexes <$> db' !! colName) = Some idxs ∧
  db' !! tmp = None ∧
  ∀ name, name ≠ colName → db' !! name = db !! name.

Section ScrubSuccess.

Variable E : Collab.

Lemma forAllDBsDo_Ok_each fun_ w0 w1 :
  shard_local fun_ →
  forAllDBsDo E fun_ w0 = (Ok tt, w1) →
  length (disk w1) = length (disk w0) ∧
  ∀ i db, disk w0 !! i = Some db →
    ∃ wa wb, fun_ i wa = (Ok tt, wb) ∧ disk wa !! i = Some db ∧
             disk w1 !! i = disk wb !! i.
Proof.
  intros Hloc Hrun. split.
  { pose proof (forAllDBsDo_stores E fun_) as Hst.
    destruct (Hst (λ j, preserves_stores_only j _ (Hloc j)) _ _ _ Hrun) as (_ & _ & ? & _).
    done. }
  intros i db Hdb.
  apply forAllDBsDo_applied in Hrun; [|done].
  destruct Hrun as (k & wk & _ & _ & Hout & Hbefore & _).
  assert (Hk : k = nProcs w0).
  { destruct Hout as [(_ & -> & _)|(_ & [(e & _ & [=] & _)|[(? & _ & _ & _ & Hne)|
                                          (? & ? & e & _ & _ & _ & [=] & _)]])]; done. }
  destruct (Hbefore i) as (wi & wa & wb & wi' & _ & _ & Hact & _ & Hda & Hdb').
  { rewrite Hk. by eapply lookup_lt_Some. }
  exists wa, wb. split; [done|]. split; [by rewrite Hda|done].
Qed.

Lemma Scrub_swap_action_Ok colName tmpColName i wa wb db :
  Scrub_swap_action E colName tmpColName i wa = (Ok tt, wb) →
  disk wa !! i = Some db →
  ∃ db1 db2, db_drop colName db = inr db1 ∧
             db_rename tmpColName colName db1 = inr db2 ∧
             disk wb !! i = Some db2.
Proof.
  unfold Scrub_swap_action. intros H Hdb.
  apply bind_Ok_inv in H as ([] & w1 & Hd & Hr).
  apply store_op_Ok_inv in Hd as (db0 & db1 & Hdb0 & Hf1 & Hd1 & _).
  rewrite Hdb in Hdb0. injection Hdb0 as <-.
  apply store_op_Ok_inv in Hr as (db1' & db2 & Hdb1 & Hf2 & Hd2 & _).
  assert (Hlt : i < length (disk wa)) by (by eapply lookup_lt_Some).
  rewrite Hd1, list_lookup_insert_eq in Hdb1 by done. injection Hdb1 as <-.
  exists db1, db2. split; [done|]. split; [done|].
  rewrite Hd2. apply list_lookup_insert_eq. by rewrite Hd1, length_insert.
Qed.

Lemma swap_scrubbed colName tmp idxs db db1 db2 :
  tmp ≠ colName → db !! tmp = None →
  db_drop colName (<[tmp := mkCol idxs []]> db) = inr db1 →
  db_rename tmp colName db1 = inr db2 →
  scrubbed colName tmp idxs db db2.
Proof.
  intros Hne Hnone Hd Hr.
  apply db_drop_inr in Hd as [[c Hc] ->].
  rewrite lookup_insert_ne in Hc by done.
  apply db_rename_inr in Hr as (t & Ht & _ & ->).
  rewrite lookup_delete_ne, lookup_insert_eq in Ht by done. injection Ht as <-.
  split; [eauto|]. split; [done|]. split; [by rewrite lookup_insert_eq|]. split.
  - by rewrite lookup_insert_ne, lookup_delete_eq.
  - intros name Hname. rewrite lookup_insert_ne by done.
    destruct (decide (name = tmp)) as [->|Hnt]; [by rewrite lookup_delete_eq|].
    by rewrite !lookup_delete_ne, lookup_insert_ne.
Qed.

(** X13.  When Scrub succeeds, the collection was in the schema cache and on
    every shard.  Every shard is left with the collection under its own name,
    carrying the index paths the schema cache had for it when Scrub began,
    with no temporary collection, and with every other collection as it was;
    every store handle is closed again.  The last call is a reload, and the
    schema cache is the one the servers gave at it for the shard directories
    as Scrub leaves them. *)
Theorem Scrub_keeps_cached_indexes colName w w' :
  Scrub E colName w = (Ok tt, w') →
  ∃ colID, colNameLookup (schema w) !! colName = Some colID ∧
    Forall2 (scrubbed colName (tmp_name colName (UnixNano E (length (log w))))
               (default [] (indexPaths (schema w) !! colID)))
      (disk w) (disk w') ∧
    handles w' = handles w ∧
    last (log w') = Some EvReload ∧
    schema w' = srv_schema E (length (log w') - 1) (disk w').
Proof.
  rewrite Scrub_unfold. intros H.
  destruct (colNameLookup (schema w) !! colName) as [colID|]; [|done].
  exists colID. split; [done|].
  apply bind_Ok_inv in H as (now & w0 & Hnow & H).
  unfold Now in Hnow. rewrite run_bind in Hnow. simpl in Hnow.
  injection Hnow as <- <-.
  set (tmp := tmp_name colName (UnixNano E (length (log w)))) in *.
  set (idxs := default [] (indexPaths (schema w) !! colID)) in *.
  apply bind_Ok_inv in H as ([] & w1 & Hcreate & H).
  apply bind_Ok_inv in H as ([] & w2 & Hmig & Hswap).
  unfold Scrub_swap in Hswap.
  apply bind_Ok_inv in Hswap as ([] & w3 & Hswap & Hrel).
  pose proof (Scrub_create_Ok E _ _ _ _ Hcreate) as Hc1.
  destruct (forAllDBsDo_Ok_each _ _ _
              (uniform_action_local E _ (act_Scrub_create E tmp idxs)) Hcreate)
    as [Hlen1 _].
  destruct (forAllDBsDo_handles_left E _
              (uniform_action_store_action E _ (act_Scrub_create E tmp idxs))
              _ _ _ Hcreate) as [Hh1 _].
  destruct (Scrub_reload_migrate_calls E _ _ _ _ _ Hmig) as (_ & Hd2 & Hh2 & _).
  destruct (forAllDBsDo_Ok_each _ _ _
              (uniform_action_local E _ (act_Scrub_swap E colName tmp)) Hswap)
    as [Hlen3 Hs3].
  destruct (forAllDBsDo_handles_left E _
              (uniform_action_store_action E _ (act_Scrub_swap E colName tmp))
              _ _ _ Hswap) as [Hh3 _].
  rewrite reloadServer_run in Hrel. destruct (fault E _ _); [done|].
  injection Hrel as <-. simpl.
  split; [|split; [|split]].
  - apply Forall2_same_length_lookup. split.
    { rewrite Hlen3, Hd2, Hlen1. done. }
    intros i db db' Hdb Hdb'.
    destruct (Hc1 i db Hdb) as [Hnone Hdb1].
    rewrite <- Hd2 in Hdb1.
    destruct (Hs3 i _ Hdb1) as (wa & wb & Hact & Hda & Hdb3).
    destruct (Scrub_swap_action_Ok _ _ _ _ _ _ Hact Hda) as (db1 & db2 & Hf1 & Hf2 & Hdb2).
    rewrite Hdb3, Hdb2 in Hdb'. injection Hdb' as <-.
    eapply swap_scrubbed; eauto. apply tmp_name_fresh.
  - rewrite Hh3 by done. rewrite Hh2. by apply Hh1.
  - by rewrite last_snoc.
  - rewrite length_app. simpl. by rewrite Nat.add_sub.
Qed.

End ScrubSuccess.

(** ** AllIndexes: the paths, split *)

(** [s] without its first [n] bytes. *)
Fixpoint string_drop (n : nat) (s : string) : string :=
  match n, s with
  | S n', String _ s' => string_drop n' s'
  | _, _ => s
  end.

Lemma string_app_cons c (s1 s2 : string) : String c s1 +:+ s2 = String c (s1 +:+ s2).
Proof. reflexivity. Qed.

Lemma string_app_nil_r (s : string) : s +:+ "" = s.
Proof. induction s as [|c s IH]; [done|]. by rewrite string_app_cons, IH. Qed.

Lemma string_app_assoc (s1 s2 s3 : string) : (s1 +:+ s2) +:+ s3 = s1 +:+ (s2 +:+ s3).
Proof. induction s1 as [|c s1 IH]; [done|]. by rewrite !string_app_cons, IH. Qed.

Lemma prefix_length sep : ∀ s,
  String.prefix sep s = true → String.length sep ≤ String.length s.
Proof.
  induction sep as [|a sep IH]; intros s H; simpl; [lia|].
  destruct s as [|b s]; simpl in H; [done|].
  destruct (Ascii.ascii_dec a b); [|done]. apply IH in H. simpl. lia.
Qed.

Lemma prefix_drop sep : ∀ s,
  String.prefix sep s = true → sep +:+ string_drop (String.length sep) s = s.
Proof.
  induction sep as [|a sep IH]; intros s H; simpl; [by destruct s|].
  destruct s as [|b s]; simpl in H; [done|].
  destruct (Ascii.ascii_dec a b) as [->|]; [|done].
  by rewrite string_app_cons, IH.
Qed.

Lemma split_go_cons sep : ∀ s skip cur, ∃ x l, split_go sep skip cur s = x :: l.
Proof.
  induction s as [|c s IH]; intros skip cur; cbn [split_go]; [eauto|].
  destruct skip as [|k]; [|apply IH].
  destruct (String.prefix sep (String c s)); [eauto|apply IH].
Qed.

Lemma concat_cons_split_go sep x s skip cur :
  String.concat sep (x :: split_go sep skip cur s) =
  x +:+ sep +:+ String.concat sep (split_go sep skip cur s).
Proof. by destruct (split_go_cons sep s skip cur) as (y & l & ->). Qed.

(** Joining the pieces gives the string back. *)
Lemma concat_split_go sep : sep ≠ "" → ∀ s skip cur,
  skip ≤ String.length s →
  String.concat sep (split_go sep skip cur s) = cur +:+ string_drop skip s.
Proof.
  intros Hsep. induction s as [|c s IH]; intros skip cur Hskip; cbn [split_go].
  - simpl in Hskip. assert (skip = 0) as -> by lia. simpl.
    by rewrite string_app_nil_r.
  - simpl in Hskip. destruct skip as [|k]; [|cbn [string_drop]; apply IH; lia].
    destruct (String.prefix sep (String c s)) eqn:Hp.
    + rewrite concat_cons_split_go. f_equal.
      pose proof (prefix_length _ _ Hp) as Hlen. simpl in Hlen.
      rewrite IH by lia. cbn [string_drop].
      etrans; [|apply (prefix_drop _ _ Hp)]. f_equal.
      destruct sep as [|a sep]; [done|].
      cbn [String.length string_drop].
      replace (S (String.length sep) - 1) with (String.length sep) by lia. done.
    + rewrite IH by lia. cbn [string_drop]. by rewrite string_app_assoc.
Qed.

Lemma concat_explode (s : string) : String.concat "" (explode s) = s.
Proof.
  induction s as [|c s IH]; [done|]. cbn [explode].
  destruct (explode s) as [|x l] eqn:He.
  - by destruct s.
  - cbn [String.concat] in *. by rewrite IH.
Qed.

Lemma concat_strings_Split (s sep : string) :
  String.concat sep (strings_Split s sep) = s.
Proof.
  unfold strings_Split. destruct (decide (sep = "")) as [->|Hsep].
  - apply concat_explode.
  - rewrite concat_split_go; [done|done|lia].
Qed.

Lemma strings_Split_not_nil (s sep : string) : sep ≠ "" → strings_Split s sep ≠ [].
Proof.
  intros Hsep. unfold strings_Split. rewrite decide_False by done.
  by destruct (split_go_cons sep s 0 "") as (x & l & ->).
Qed.

Section Joined.

Variable E : Collab.

(** X14.  AllIndexes loses nothing of the joint paths: it returns, in the
    same order, one path for every string that AllIndexesJointPaths returns,
    and the segments of a path joined with the separator give that string
    back.  With a separator that is not empty every path has a segment. *)
Theorem AllIndexes_joined_back colName w paths w1 :
  AllIndexes E colName w = (Ok paths, w1) →
  AllIndexesJointPaths E colName w =
    (Ok (String.concat (INDEX_PATH_SEP E) <$> paths), w1) ∧
  (INDEX_PATH_SEP E ≠ "" → Forall (λ path, path ≠ []) paths).
Proof.
  rewrite AllIndexes_run, AllIndexesJointPaths_run.
  destruct (colNameLookup (schema w) !! colName) as [colID|]; [|done].
  intros [= <- <-]. split.
  - f_equal. f_equal. rewrite <- list_fmap_compose. symmetry. apply fmap_id_on.
    apply Forall_true. intros aPath. simpl. apply concat_strings_Split.
  - intros Hsep. apply Forall_fmap, Forall_true. intros aPath. simpl.
    by apply strings_Split_not_nil.
Qed.

End Joined.

(** ** DumpDB, call by call *)

(** The directory of rank [i]. *)
Definition rank_dir (F : FsCollab) (destDir : string) (i : nat) : string :=
  path_Join F destDir (Itoa (Z.of_nat i)).

(** The calls of DumpDB for rank [i]. *)
Definition DumpDB_calls (F : FsCollab) (destDir : string) (i : nat)
  : list (Event + FsCall) :=
  [inr (FsMkdirAll (rank_dir F destDir i) perm_0700); inl (EvOpenDB i);
   inr (FsDump i (rank_dir F destDir i)); inl (EvClose i)].

(** One turn of the loop of DumpDB, lines 164-173. *)
Definition DumpDB_turn (E : Collab) (F : FsCollab) (destDir : string) (i : nat) : MD unit :=
  bindD (MkdirAll F (rank_dir F destDir i) perm_0700) (λ _,
  bindD (liftD (OpenDB E i)) (λ clientDB,
  bindD (Dump F clientDB (rank_dir F destDir i)) (λ _,
  liftD (Close E clientDB)))).

Lemma bindD_inv {A B} (m : MD A) (k : A → MD B) s r s' :
  bindD m k s = (r, s') →
  (∃ a s1, m s = (Ok a, s1) ∧ k a s1 = (r, s')) ∨
  (∃ e, m s = (Fail e, s') ∧ r = Fail e) ∨
  (m s = (Panic, s') ∧ r = Panic).
Proof.
  unfold bindD. destruct (m s) as [[a|e|] s1]; intros H.
  - left. eauto.
  - right. left. exists e. by inversion H.
  - right. right. by inversion H.
Qed.

Lemma forMD_rule {A} (I : list A → World * Backup → Prop)
    (Q : Res unit → World * Backup → Prop) (body : A → MD unit) (l : list A) :
  (∀ done x rest s1 r1 s2,
     l = done ++ x :: rest → I done s1 → body x s1 = (r1, s2) →
     match r1 with Ok _ => I (done ++ [x]) s2 | _ => Q r1 s2 end) →
  ∀ s r s', I [] s → forMD_ l body s = (r, s') →
  match r with Ok _ => I l s' | _ => Q r s' end.
Proof.
  intros Hstep.
  assert (Hgen : ∀ rest done s r s', l = done ++ rest → I done s →
            forMD_ rest body s = (r, s') →
            match r with Ok _ => I l s' | _ => Q r s' end).
  { induction rest as [|x rest IH]; intros done s r s' Hl HI H; simpl in H.
    - injection H as <- <-. by rewrite Hl, app_nil_r.
    - apply bindD_inv in H as [([] & s1 & Hb & H)|[(e & Hb & ->)|[Hb ->]]].
      + apply (IH (done ++ [x]) s1); [by rewrite <- app_assoc| |done].
        apply (Hstep done x rest s (Ok tt) s1); auto.
      + apply (Hstep done x rest s (Fail e) s'); auto.
      + apply (Hstep done x rest s Panic s'); auto. }
  intros s r s' HI H. by apply (Hgen l [] s).
Qed.

Section DumpDBRuns.

Variable E : Collab.
Variable F : FsCollab.
Variable destDir : string.

Lemma DumpDB_unfold w b :
  DumpDB E F destDir (w, b) =
  forMD_ (seq 0 (nProcs w)) (DumpDB_turn E F destDir) (w, b).
Proof. reflexivity. Qed.

Lemma new_calls_logged w ev l :
  new_calls w (set_handles l (set_log (log w ++ [ev]) w)) = [ev].
Proof. unfold new_calls. simpl. by rewrite drop_app_length. Qed.

Lemma new_calls_logged' w ev :
  new_calls w (set_log (log w ++ [ev]) w) = [ev].
Proof. unfold new_calls. simpl. by rewrite drop_app_length. Qed.

(** One turn, call by call. *)
Lemma DumpDB_turn_run i w b :
  DumpDB_turn E F destDir i (w, b) =
  let dir := rank_dir F destDir i in
  let n := length (bk_trace b) in
  let t1 := bk_trace b ++ [inr (FsMkdirAll dir perm_0700)] in
  match fs_fault F n (FsMkdirAll dir perm_0700) with
  | Some e => (Fail e, (w, mkBackup (bk_dirs b) (bk_dumps b) t1))
  | None =>
      let dirs := {[dir]} ∪ bk_dirs b in
      let t2 := t1 ++ [inl (EvOpenDB i)] in
      let wo := set_log (log w ++ [EvOpenDB i]) w in
      match fault E (length (log w)) (EvOpenDB i) with
      | Some e => (Fail e, (wo, mkBackup dirs (bk_dumps b) t2))
      | None =>
          match disk w !! i with
          | None =>
              (Fail ("open " +:+ Itoa (Z.of_nat i) +:+ ": no such shard"),
               (wo, mkBackup dirs (bk_dumps b) t2))
          | Some db =>
              let wh := set_handles (handles w ++ [i]) wo in
              let t3 := t2 ++ [inr (FsDump i dir)] in
              match fs_fault F (S (S n)) (FsDump i dir) with
              | Some e => (Fail e, (wh, mkBackup dirs (bk_dumps b) t3))
              | None =>
                  let dumps := <[dir := db]> (bk_dumps b) in
                  let t4 := t3 ++ [inl (EvClose i)] in
                  let wc := set_log (log w ++ [EvOpenDB i; EvClose i]) wh in
                  match fault E (S (length (log w))) (EvClose i) with
                  | Some e => (Fail e, (wc, mkBackup dirs dumps t4))
                  | None => (Ok tt, (set_handles (handles w) wc, mkBackup dirs dumps t4))
                  end
              end
          end
      end
  end.
Proof.
  unfold DumpDB_turn, bindD at 1, MkdirAll, fs_call. cbv zeta.
  destruct (fs_fault F (length (bk_trace b)) _) as [e|]; [done|].
  unfold bindD at 1, liftD at 1. rewrite OpenDB_run. cbv zeta.
  destruct (fault E (length (log w)) (EvOpenDB i)) as [e|].
  { by rewrite new_calls_logged'. }
  destruct (disk w !! i) as [db|] eqn:Hdb.
  2:{ by rewrite new_calls_logged'. }
  rewrite new_calls_logged. unfold add_trace. simpl.
  unfold bindD at 1, Dump, fs_call. cbv zeta. simpl.
  rewrite !length_app. simpl. rewrite <- !Nat.add_assoc. simpl.
  rewrite Nat.add_comm. simpl.
  destruct (fs_fault F (S (S (length (bk_trace b)))) _) as [e|]; [done|].
  rewrite Hdb. simpl. unfold liftD. rewrite Close_run. cbv zeta. simpl.
  rewrite length_app. simpl. rewrite Nat.add_1_r.
  destruct (fault E (S (length (log w))) (EvClose i)) as [e|].
  - unfold new_calls, add_trace, set_log. simpl.
    by rewrite drop_app_length, <- app_assoc.
  - unfold new_calls, add_trace, set_log, set_handles. simpl.
    by rewrite drop_app_length, remove_last_snoc, <- app_assoc.
Qed.

End DumpDBRuns.

(** [s1] is the run from [(w, b)] after the first [k] ranks were dumped. *)
Definition DumpDB_done_upto (F : FsCollab) (destDir : string) (w : World) (b : Backup)
    (k : nat) (s1 : World * Backup) : Prop :=
  id s1.1 = id w ∧ disk s1.1 = disk w ∧ schema s1.1 = schema w ∧
  handles s1.1 = handles w ∧
  log s1.1 = log w ++ (seq 0 k ≫= λ i, [EvOpenDB i; EvClose i]) ∧
  bk_trace s1.2 = bk_trace b ++ (seq 0 k ≫= DumpDB_calls F destDir) ∧
  (∀ dir, dir ∈ bk_dirs s1.2 ↔
          dir ∈ bk_dirs b ∨ ∃ i, i < k ∧ dir = rank_dir F destDir i) ∧
  (∀ dir, bk_dumps s1.2 !! dir =
          match last (filter (λ i, rank_dir F destDir i = dir) (seq 0 k)) with
          | Some j => disk w !! j
          | None => bk_dumps b !! dir
          end).

Lemma filter_none {A} (P : A → Prop) `{!∀ x, Decision (P x)} (l : list A) :
  Forall (λ x, ¬ P x) l → filter P l = [].
Proof.
  induction 1 as [|x l Hx _ IH]; [done|]. by rewrite filter_cons_False.
Qed.

Section DumpDBLoop.

Variable E : Collab.
Variable F : FsCollab.
Variable destDir : string.

Lemma DumpDB_done_S w b k w1 b1 db :
  DumpDB_done_upto F destDir w b k (w1, b1) → disk w !! k = Some db →
  DumpDB_done_upto F destDir w b (S k)
    (set_handles (handles w1)
       (set_log (log w1 ++ [EvOpenDB k; EvClose k])
          (set_handles (handles w1 ++ [k]) (set_log (log w1 ++ [EvOpenDB k]) w1))),
     mkBackup ({[rank_dir F destDir k]} ∪ bk_dirs b1)
       (<[rank_dir F destDir k := db]> (bk_dumps b1))
       ((((bk_trace b1 ++ [inr (FsMkdirAll (rank_dir F destDir k) perm_0700)]) ++
          [inl (EvOpenDB k)]) ++ [inr (FsDump k (rank_dir F destDir k))]) ++
        [inl (EvClose k)])).
Proof.
  intros (Hi & Hd & Hs & Hh & Hl & Ht & Hdirs & Hdumps) Hdb. cbn -[seq] in *.
  unfold DumpDB_done_upto. cbn -[seq].
  split; [done|]. split; [done|]. split; [done|]. split; [done|].
  rewrite seq_S, !bind_app. cbn -[seq]. split; [by rewrite Hl, <- !app_assoc|].
  split; [by rewrite Ht, <- !app_assoc|]. split.
  - intros dir. rewrite elem_of_union, elem_of_singleton, Hdirs. split.
    + intros [->|[?|(i & Hik & ->)]]; [right; exists k; split; [lia|done]|by left|].
      right. exists i. split; [lia|done].
    + intros [?|(i & Hik & ->)]; [by right; left|].
      destruct (decide (i = k)) as [->|]; [by left|].
      right. right. exists i. split; [lia|done].
  - intros dir. rewrite filter_app.
    destruct (decide (rank_dir F destDir k = dir)) as [<-|Hne].
    + rewrite lookup_insert_eq, filter_cons_True by done.
      by rewrite filter_nil, last_snoc.
    + rewrite lookup_insert_ne, filter_cons_False by done.
      by rewrite filter_nil, app_nil_r, Hdumps.
Qed.

Lemma DumpDB_loop_inv w b r s' :
  forMD_ (seq 0 (nProcs w)) (DumpDB_turn E F destDir) (w, b) = (r, s') →
  ∃ k s1, k ≤ nProcs w ∧ DumpDB_done_upto F destDir w b k s1 ∧
    ((r = Ok tt ∧ k = nProcs w ∧ s' = s1) ∨
     (k < nProcs w ∧ r ≠ Ok tt ∧ DumpDB_turn E F destDir k s1 = (r, s'))).
Proof.
  intros Hrun. unfold nProcs in *.
  pose (I := λ (done : list nat) (s1 : World * Backup),
    DumpDB_done_upto F destDir w b (length done) s1).
  pose (Q := λ (r : Res unit) (s2 : World * Backup),
    ∃ k s1, k < length (disk w) ∧ DumpDB_done_upto F destDir w b k s1 ∧
            r ≠ Ok tt ∧ DumpDB_turn E F destDir k s1 = (r, s2)).
  assert (H : match r with Ok _ => I (seq 0 (length (disk w))) s' | _ => Q r s' end).
  { apply (forMD_rule I Q (DumpDB_turn E F destDir)
             (seq 0 (length (disk w)))) with (s := (w, b)) (s' := s'); [| |done].
    2:{ unfold I, DumpDB_done_upto. simpl. rewrite !app_nil_r.
        split_and!; try done. intros dir. split; [by left|].
        intros [?|(i & Hi & _)]; [done|lia]. }
    clear r s' Hrun. intros done x rest [w1 b1] r1 s2 Hl HI Hturn.
    apply seq_split_at in Hl as (-> & Hlt & _).
    destruct r1 as [[]|e|]; [|by exists (length done), (w1, b1)..].
    pose proof HI as (_ & Hd & _).  simpl in Hd.
    rewrite DumpDB_turn_run in Hturn. cbv zeta in Hturn.
    destruct (fs_fault F _ (FsMkdirAll _ _)); [done|].
    destruct (fault E _ (EvOpenDB _)); [done|].
    destruct (disk w1 !! length done) as [db|] eqn:Hdb; [|done].
    destruct (fs_fault F _ (FsDump _ _)); [done|].
    destruct (fault E _ (EvClose _)); [done|].
    injection Hturn as <-. unfold I. rewrite length_app. simpl. rewrite Nat.add_1_r.
    apply DumpDB_done_S; [done|]. by rewrite <- Hd. }
  destruct r as [[]|e|].
  - exists (length (disk w)), s'. split; [done|].
    unfold I in H. rewrite length_seq in H. split; [done|]. by left.
  - destruct H as (k & s1 & Hk & HI & Hne & Hturn).
    exists k, s1. split; [lia|]. split; [done|]. by right.
  - destruct H as (k & s1 & Hk & HI & Hne & Hturn).
    exists k, s1. split; [lia|]. split; [done|]. by right.
Qed.

(** X15.  When DumpDB succeeds, it has made, for every rank in turn, the
    directory of the rank under the destination, then opened the shard,
    dumped it into that directory and closed it.  Every directory is there,
    and, the directories of the ranks being distinct, each holds the copy of
    its shard.  The workspace is as before: only the log of the client has
    grown, by the opens and the closes. *)
Theorem DumpDB_copies_every_shard w b w' b' :
  DumpDB E F destDir (w, b) = (Ok tt, (w', b')) →
  w' = set_log (log w ++ (seq 0 (nProcs w) ≫= λ i, [EvOpenDB i; EvClose i])) w ∧
  bk_trace b' = bk_trace b ++ (seq 0 (nProcs w) ≫= DumpDB_calls F destDir) ∧
  (∀ i, i < nProcs w → rank_dir F destDir i ∈ bk_dirs b') ∧
  ((∀ i j, i < j < nProcs w → rank_dir F destDir i ≠ rank_dir F destDir j) →
   ∀ i db, disk w !! i = Some db → bk_dumps b' !! rank_dir F destDir i = Some db).
Proof.
  rewrite DumpDB_unfold. intros H.
  destruct (DumpDB_loop_inv _ _ _ _ H) as (k & s1 & _ & HI & [(_ & -> & <-)|(_ & ? & _)]);
    [|done].
  destruct HI as (Hi & Hd & Hs & Hh & Hl & Ht & Hdirs & Hdumps). simpl in *.
  split; [|split; [done|split]].
  - destruct w', w. unfold set_log. simpl in *. congruence.
  - intros i Hi'. apply Hdirs. right. by exists i.
  - intros Hinj i db Hdb. rewrite Hdumps.
    assert (Hlt : i < nProcs w) by (by eapply lookup_lt_Some).
    assert (Hf : filter (λ j, rank_dir F destDir j = rank_dir F destDir i)
                   (seq 0 (nProcs w)) = [i]).
    { replace (nProcs w) with (i + S (nProcs w - S i)) by lia.
      rewrite seq_app, filter_app. simpl. rewrite filter_cons_True by done.
      rewrite (filter_none _ (seq 0 i)), (filter_none _ (seq _ _)).
      - done.
      - apply Forall_forall. intros j Hj. apply elem_of_seq in Hj.
        intros Heq. apply (Hinj i j); [lia|done].
      - apply Forall_forall. intros j Hj. apply elem_of_seq in Hj.
        intros Heq. apply (Hinj j i); [lia|done]. }
    by rewrite Hf.
Qed.

(** X16.  DumpDB reads the workspace and never changes it: whatever the
    outcome, the shard directories and the schema cache are as before.  It
    stops at the first call that fails, on some rank [k]: the ranks before [k]
    were dumped in full, and of the four calls for rank [k] the first [n] were
    made, the last of them being the one that failed.  So a rank whose
    directory could not be made is not opened; and the store handle of rank
    [k] is left open when its dump or its close failed. *)
Theorem DumpDB_reads_only w b r w' b' :
  DumpDB E F destDir (w, b) = (r, (w', b')) →
  disk w' = disk w ∧ schema w' = schema w ∧
  ∃ k n, k ≤ nProcs w ∧
    bk_trace b' = bk_trace b ++ (seq 0 k ≫= DumpDB_calls F destDir) ++
                  take n (DumpDB_calls F destDir k) ∧
    (r = Ok tt → k = nProcs w ∧ n = 0 ∧ handles w' = handles w) ∧
    (r ≠ Ok tt → k < nProcs w ∧ 1 ≤ n ≤ 4 ∧ (∃ e, r = Fail e) ∧
       handles w' = handles w ++ (if decide (3 ≤ n) then [k] else [])).
Proof.
  rewrite DumpDB_unfold. intros H.
  destruct (DumpDB_loop_inv _ _ _ _ H)
    as (k & [w1 b1] & Hk & HI & [(-> & -> & [= <- <-])|(Hlt & Hne & Hturn)]).
  - destruct HI as (_ & Hd & Hs & Hh & _ & Ht & _). simpl in *.
    split; [done|]. split; [done|]. exists (nProcs w), 0.
    split; [done|]. split; [by rewrite Ht, app_nil_r|]. split; [done|]. done.
  - destruct HI as (_ & Hd & Hs & Hh & _ & Ht & _). simpl in *.
    rewrite DumpDB_turn_run in Hturn. cbv zeta in Hturn.
    destruct (lookup_lt_is_Some_2 (disk w) k Hlt) as [db Hdb].
    rewrite Hd, Hdb in Hturn.
    destruct (fs_fault F _ (FsMkdirAll _ _)) as [e|].
    { injection Hturn as <- <- <-. simpl. split; [done|]. split; [done|].
      exists k, 1. split; [lia|]. split; [by rewrite Ht, <- app_assoc|].
      split; [done|]. intros _. split; [done|]. split; [lia|]. split; [eauto|].
      by rewrite Hh, app_nil_r. }
    destruct (fault E _ (EvOpenDB _)) as [e|].
    { injection Hturn as <- <- <-. simpl. split; [done|]. split; [done|].
      exists k, 2. split; [lia|]. split; [by rewrite Ht, <- !app_assoc|].
      split; [done|]. intros _. split; [done|]. split; [lia|]. split; [eauto|].
      by rewrite Hh, app_nil_r. }
    destruct (fs_fault F _ (FsDump _ _)) as [e|].
    { injection Hturn as <- <- <-. simpl. split; [done|]. split; [done|].
      exists k, 3. split; [lia|]. split; [by rewrite Ht, <- !app_assoc|].
      split; [done|]. intros _. split; [done|]. split; [lia|]. split; [eauto|].
      by rewrite Hh. }
    destruct (fault E _ (EvClose _)) as [e|]; [|by injection Hturn as <-].
    injection Hturn as <- <- <-. simpl. split; [done|]. split; [done|].
    exists k, 4. split; [lia|]. split; [by rewrite Ht, <- !app_assoc|].
    split; [done|]. intros _. split; [done|]. split; [lia|]. split; [eauto|].
    by rewrite Hh.
Qed.

End DumpDBLoop.

(** ** Unindex: what is left on the shards *)

(** [w1] is [w] after the first [k] turns of the loop of Unindex: the shards
    that have the collection have lost the index, the others were opened and
    left open. *)
Definition Unindex_done_upto (colName : string) (idxPath : list string)
    (w : World) (k : nat) (w1 : World) : Prop :=
  schema w1 = schema w ∧
  handles w1 = handles w ++ filter (λ i, ¬ has_col colName (disk w) i) (seq 0 k) ∧
  length (disk w1) = length (disk w) ∧
  (∀ j, disk w1 !! j = if decide (j < k)
                       then unindexed colName idxPath <$> disk w !! j
                       else disk w !! j) ∧
  (∀ j db c, j < k → disk w !! j = Some db → db !! colName = Some c →
             idxPath ∈ col_indexes c) ∧
  log w1 = log w ++ (seq 0 k ≫= Unindex_calls colName idxPath (disk w)).

Section UnindexLoop.

Variable E : Collab.
Variables (colName : string) (idxPath : list string).

(** One turn of the loop of Unindex, call by call. *)
Lemma Unindex_turn_run k w1 :
  Unindex_turn E colName idxPath k w1 =
  let n := length (log w1) in
  let wo := set_log (log w1 ++ [EvOpenDB k]) w1 in
  match fault E n (EvOpenDB k) with
  | Some e => (Fail e, wo)
  | None =>
      match disk w1 !! k with
      | None => (Fail ("open " +:+ Itoa (Z.of_nat k) +:+ ": no such shard"), wo)
      | Some db =>
          let wh := set_handles (handles w1 ++ [k]) wo in
          match db !! colName with
          | None => (Ok tt, wh)
          | Some c =>
              let wi := set_log (log w1 ++ [EvOpenDB k; EvUnindex k colName idxPath]) wh in
              match fault E (S n) (EvUnindex k colName idxPath) with
              | Some e => (Fail e, wi)
              | None =>
                  if decide (idxPath ∈ col_indexes c)
                  then
                    let wc :=
                      set_log (log w1 ++ [EvOpenDB k; EvUnindex k colName idxPath; EvClose k])
                        (set_disk (<[k := unindexed colName idxPath db]> (disk w1)) wi) in
                    match fault E (S (S n)) (EvClose k) with
                    | Some e => (Fail e, wc)
                    | None => (Ok tt, set_handles (handles w1) wc)
                    end
                  else (Fail ("Path " +:+ show_path idxPath +:+ " is not indexed"), wi)
              end
          end
      end
  end.
Proof.
  unfold Unindex_turn. rewrite run_bind, OpenDB_run. cbv zeta.
  destruct (fault E (length (log w1)) (EvOpenDB k)) as [e|] eqn:Hfo; [done|].
  destruct (disk w1 !! k) as [db|] eqn:Hdb; [|done].
  rewrite run_bind, Use_run. simpl. rewrite Hdb. simpl.
  destruct (db !! colName) as [c|] eqn:Hc; [|done].
  rewrite run_bind, Use_run. simpl. rewrite Hdb. simpl. rewrite Hc.
  rewrite run_bind. simpl. rewrite store_op_run. cbv zeta. simpl.
  rewrite length_app. simpl. rewrite Nat.add_1_r.
  destruct (fault E (S (length (log w1))) (EvUnindex k colName idxPath)) as [e|] eqn:Hfi.
  { unfold set_log. simpl. by rewrite <- app_assoc. }
  rewrite Hdb. unfold col_unindex. rewrite Hc.
  destruct (decide (idxPath ∈ col_indexes c)) as [Hin|Hin].
  2:{ unfold set_log. simpl. by rewrite <- app_assoc. }
  rewrite Close_run. cbv zeta. simpl. rewrite !length_app. simpl.
  replace (length (log w1) + 1 + 1) with (S (S (length (log w1)))) by lia.
  unfold unindexed. rewrite Hc.
  destruct (fault E (S (S (length (log w1)))) (EvClose k)) as [e|] eqn:Hfc.
  { unfold set_log, set_disk. simpl. by rewrite <- !app_assoc. }
  unfold set_log, set_disk, set_handles. simpl.
  by rewrite remove_last_snoc, <- !app_assoc.
Qed.

Lemma Unindex_done_S w k w1 db w2 :
  Unindex_done_upto colName idxPath w k w1 →
  disk w !! k = Some db →
  Unindex_turn E colName idxPath k w1 = (Ok tt, w2) →
  Unindex_done_upto colName idxPath w (S k) w2.
Proof.
  intros (Hs & Hh & Hlen & Hd & Hix & Hlog) Hdb Hturn.
  assert (Hdk : disk w1 !! k = Some db).
  { rewrite Hd. by rewrite decide_False by lia. }
  assert (Hcalls : ∀ evs, evs = Unindex_calls colName idxPath (disk w) k →
            log w ++ (seq 0 (S k) ≫= Unindex_calls colName idxPath (disk w)) =
            (log w ++ (seq 0 k ≫= Unindex_calls colName idxPath (disk w))) ++ evs).
  { intros evs ->. rewrite seq_S, bind_app. simpl. by rewrite app_nil_r, app_assoc. }
  assert (Hdisk : ∀ d, d = <[k := unindexed colName idxPath db]> (disk w1) →
            ∀ j, d !! j = if decide (j < S k)
                          then unindexed colName idxPath <$> disk w !! j
                          else disk w !! j).
  { intros d -> j. destruct (decide (j = k)) as [->|Hne].
    - rewrite list_lookup_insert_eq by (rewrite Hlen; by eapply lookup_lt_Some).
      rewrite decide_True by lia. by rewrite Hdb.
    - rewrite list_lookup_insert_ne by done. rewrite Hd.
      destruct (decide (j < k)); [by rewrite decide_True by lia|].
      by rewrite decide_False by lia. }
  rewrite Unindex_turn_run in Hturn. cbv zeta in Hturn.
  destruct (fault E _ (EvOpenDB _)); [done|]. rewrite Hdk in Hturn.
  destruct (db !! colName) as [c|] eqn:Hc.
  - destruct (fault E _ (EvUnindex _ _ _)); [done|].
    destruct (decide (idxPath ∈ col_indexes c)) as [Hin|]; [|done].
    destruct (fault E _ (EvClose _)); [done|].
    injection Hturn as <-. unfold Unindex_done_upto. cbn -[seq].
    assert (Hhas : has_col colName (disk w) k).
    { unfold has_col. rewrite Hdb. simpl. by rewrite Hc. }
    split; [done|]. split.
    { rewrite seq_S, filter_app, filter_cons_False, filter_nil, app_nil_r; [done|].
      by intros ?. }
    split; [by rewrite length_insert|]. split; [by apply Hdisk|]. split.
    + intros j db' c' Hj Hdb' Hc'. destruct (decide (j = k)) as [->|Hne].
      * rewrite Hdb in Hdb'. injection Hdb' as <-. congruence.
      * apply (Hix j db' c'); [lia|done..].
    + rewrite (Hcalls [EvOpenDB k; EvUnindex k colName idxPath; EvClose k]), Hlog; [done|].
      unfold Unindex_calls. by rewrite decide_True.
  - injection Hturn as <-. unfold Unindex_done_upto. cbn -[seq].
    assert (Hhas : ¬ has_col colName (disk w) k).
    { unfold has_col. rewrite Hdb. simpl. rewrite Hc. by intros [? ?]. }
    split; [done|]. split.
    { rewrite seq_S, filter_app, filter_cons_True, filter_nil, app_assoc, Hh; done. }
    split; [done|]. split.
    + intros j. rewrite <- (Hdisk (disk w1)); [done|].
      rewrite list_insert_id; [done|]. rewrite Hdk. f_equal.
      unfold unindexed. by rewrite Hc.
    + split.
      * intros j db' c' Hj Hdb' Hc'. destruct (decide (j = k)) as [->|Hne].
        -- rewrite Hdb in Hdb'. injection Hdb' as <-. congruence.
        -- apply (Hix j db' c'); [lia|done..].
      * rewrite (Hcalls [EvOpenDB k]), Hlog; [done|].
        unfold Unindex_calls. by rewrite decide_False.
Qed.

Lemma Unindex_loop_inv w r w' :
  Unindex E colName idxPath w = (r, w') →
  ∃ k w1, k ≤ nProcs w ∧ Unindex_done_upto colName idxPath w k w1 ∧
    ((r = Ok tt ∧ k = nProcs w ∧ w' = w1) ∨
     (k < nProcs w ∧ r ≠ Ok tt ∧ Unindex_turn E colName idxPath k w1 = (r, w'))).
Proof.
  rewrite Unindex_unfold. intros Hrun. unfold nProcs in *.
  pose (I := λ (done : list nat) (w1 : World),
    Unindex_done_upto colName idxPath w (length done) w1).
  pose (Q := λ (r : Res unit) (w2 : World),
    ∃ k w1, k < length (disk w) ∧ Unindex_done_upto colName idxPath w k w1 ∧
            r ≠ Ok tt ∧ Unindex_turn E colName idxPath k w1 = (r, w2)).
  assert (H : match r with Ok _ => I (seq 0 (length (disk w))) w' | _ => Q r w' end).
  { apply (forM_rule I Q (Unindex_turn E colName idxPath)
             (seq 0 (length (disk w)))) with (w := w) (w' := w'); [| |done].
    2:{ unfold I, Unindex_done_upto. simpl. rewrite !app_nil_r.
        split_and!; try done. intros j db c Hj. lia. }
    clear r w' Hrun. intros done x rest w1 r1 w2 Hl HI Hturn.
    apply seq_split_at in Hl as (-> & Hlt & _).
    destruct r1 as [[]|e|]; [|by exists (length done), w1..].
    destruct (lookup_lt_is_Some_2 (disk w) (length done) Hlt) as [db Hdb].
    unfold I. rewrite length_app. simpl. rewrite Nat.add_1_r.
    by eapply Unindex_done_S. }
  destruct r as [[]|e|].
  - exists (length (disk w)), w'. split; [done|].
    unfold I in H. rewrite length_seq in H. split; [done|]. by left.
  - destruct H as (k & w1 & Hk & HI & Hne & Hturn).
    exists k, w1. split; [lia|]. split; [done|]. by right.
  - destruct H as (k & w1 & Hk & HI & Hne & Hturn).
    exists k, w1. split; [lia|]. split; [done|]. by right.
Qed.

(** X18.  Unindex does not undo what it has done either, and it calls the
    shard stores only.  When it fails, on shard [k], it returns an error: the
    shards before [k] have lost the index wherever they have the collection,
    the shards after [k] are untouched, and shard [k] is untouched unless it
    was its close that failed.  Left open are the store handles of the shards
    before [k] that have no such collection and, unless its open failed, the
    handle of shard [k]. *)
Theorem Unindex_never_rolls_back w r w' :
  Unindex E colName idxPath w = (r, w') →
  r ≠ Ok tt →
  ∃ k e db, k < nProcs w ∧ r = Fail e ∧ disk w !! k = Some db ∧
    (∀ i dbi, i < k → disk w !! i = Some dbi →
       disk w' !! i = Some (unindexed colName idxPath dbi)) ∧
    (∀ i, k < i → disk w' !! i = disk w !! i) ∧
    (disk w' !! k = Some db ∨
     (last (log w') = Some (EvClose k) ∧
      disk w' !! k = Some (unindexed colName idxPath db))) ∧
    Forall store_call (new_calls w w') ∧
    handles w' = handles w ++
      filter (λ i, ¬ has_col colName (disk w) i) (seq 0 k) ++
      match last (log w') with Some (EvOpenDB _) => [] | _ => [k] end.
Proof.
  intros H Hne.
  destruct (Unindex_loop_inv _ _ _ H) as (k & w1 & _ & HI & [(? & _)|(Hk & _ & Hturn)]);
    [done|].
  destruct HI as (Hs & Hh & Hlen & Hd & Hix & Hlog).
  destruct (lookup_lt_is_Some_2 (disk w) k Hk) as [db Hdb].
  assert (Hdk : disk w1 !! k = Some db) by (by rewrite Hd, decide_False by lia).
  assert (Hbefore : ∀ d : list DB, (∀ j, j ≠ k → d !! j = disk w1 !! j) →
            (∀ i dbi, i < k → disk w !! i = Some dbi →
               d !! i = Some (unindexed colName idxPath dbi)) ∧
            (∀ i, k < i → d !! i = disk w !! i)).
  { intros d Hdj. split.
    - intros i dbi Hi Hdbi. rewrite Hdj by lia. rewrite Hd, decide_True by done.
      by rewrite Hdbi.
    - intros i Hi. rewrite Hdj by lia. by rewrite Hd, decide_False by lia. }
  assert (Hcalls : ∀ evs, Forall store_call evs → log w' = log w1 ++ evs →
            Forall store_call (new_calls w w')).
  { intros evs Hevs Hl.
    rewrite (new_calls_app w w' _ ltac:(by rewrite Hl, Hlog, <- app_assoc)).
    apply Forall_app. split; [|done]. apply Forall_forall. intros ev Hev.
    apply list_elem_of_bind in Hev as (i & Hev & _). unfold Unindex_calls in Hev.
    destruct (decide _).
    - apply elem_of_cons in Hev as [->|Hev]; [by eexists|].
      apply elem_of_cons in Hev as [->|Hev]; [by eexists|].
      apply list_elem_of_singleton in Hev as ->. by eexists.
    - apply list_elem_of_singleton in Hev as ->. by eexists. }
  assert (Ho : store_call (EvOpenDB k)) by by eexists.
  assert (Hu : store_call (EvUnindex k colName idxPath)) by by eexists.
  assert (Hc : store_call (EvClose k)) by by eexists.
  rewrite Unindex_turn_run in Hturn. cbv zeta in Hturn.
  destruct (fault E _ (EvOpenDB _)) as [e|].
  { injection Hturn as <- <-. exists k, e, db. simpl.
    destruct (Hbefore (disk w1)) as [H1 H2]; [done|].
    split_and!; try done; [by left|by apply (Hcalls [EvOpenDB k]); [repeat constructor|]|].
    by rewrite last_snoc, app_nil_r. }
  rewrite Hdk in Hturn. destruct (db !! colName) as [c|] eqn:Hcol.
  2:{ by injection Hturn as <-. }
  destruct (fault E _ (EvUnindex _ _ _)) as [e|].
  { injection Hturn as <- <-. exists k, e, db. simpl.
    destruct (Hbefore (disk w1)) as [H1 H2]; [done|].
    split_and!; try done; [by left| |].
    - by apply (Hcalls [EvOpenDB k; EvUnindex k colName idxPath]); [repeat constructor|].
    - by rewrite last_app, Hh, <- app_assoc. }
  destruct (decide (idxPath ∈ col_indexes c)) as [Hin|Hnin].
  2:{ injection Hturn as <- <-. eexists k, _, db. simpl.
      destruct (Hbefore (disk w1)) as [H1 H2]; [done|].
      split_and!; try done; [by left| |].
      - by apply (Hcalls [EvOpenDB k; EvUnindex k colName idxPath]); [repeat constructor|].
      - by rewrite last_app, Hh, <- app_assoc. }
  destruct (fault E _ (EvClose _)) as [e|]; [|by injection Hturn as <-].
  injection Hturn as <- <-. exists k, e, db. simpl.
  assert (Hlast : last (log w1 ++ [EvOpenDB k; EvUnindex k colName idxPath; EvClose k])
                  = Some (EvClose k)).
  { by rewrite last_app. }
  destruct (Hbefore (<[k := unindexed colName idxPath db]> (disk w1))) as [H1 H2].
  { intros j Hj. by rewrite list_lookup_insert_ne. }
  split_and!; try done.
  - right. split; [done|]. apply list_lookup_insert_eq. by eapply lookup_lt_Some.
  - by apply (Hcalls [EvOpenDB k; EvUnindex k colName idxPath; EvClose k]);
      [repeat constructor|].
  - by rewrite Hlast, Hh, <- app_assoc.
Qed.

End UnindexLoop.

(** ** Runs *)

Lemma no_faults_env_ok : no_faults env_ok.
Proof. intros n ev. reflexivity. Qed.

Lemma forAllDBsDo_leaves_failed_shard_open_witness :
  handles_left ws_gap (Truncate env_ok "c" ws_gap).1 (Truncate env_ok "c" ws_gap).2.
Proof.
  apply (forAllDBsDo_leaves_failed_shard_open env_ok
           (λ clientDB, Truncate_db env_ok clientDB "c") ws_gap).
  - apply act_Truncate.
  - vm_compute. reflexivity.
Defined.

Example Truncate_ws_gap_handles :
  handles (Truncate env_ok "c" ws_gap).2 = [1] ∧
  last (log (Truncate env_ok "c" ws_gap).2) = Some (EvTruncate 1 "c").
Proof. split; vm_compute; reflexivity. Qed.

Lemma Drop_first_error_witness :
  applied_in_order env_ok (λ clientDB, Drop_db env_ok clientDB "c") ws_gap
    (Drop env_ok "c" ws_gap).1 (Drop env_ok "c" ws_gap).2 ∧
  handles_left ws_gap (Drop env_ok "c" ws_gap).1 (Drop env_ok "c" ws_gap).2.
Proof.
  apply (Drop_first_error env_ok "c" ws_gap). vm_compute. reflexivity.
Defined.

Lemma Create_makes_empty_collection_witness :
  (Forall (λ db, db !! "d" = None) (disk ws3) ∧
   disk (Create env_ok "d" ws3).2 =
     (λ db, <["d" := mkCol [] []]> db) <$> disk ws3 ∧
   log (Create env_ok "d" ws3).2 =
     log ws3 ++ uniform_calls (λ i, EvCreate i "d") (nProcs ws3) ∧
   handles (Create env_ok "d" ws3).2 = handles ws3) ∧
  (Create env_ok "d" ws3).1 = Ok tt.
Proof.
  split.
  - apply (proj1 (Create_makes_empty_collection env_ok "d" ws3)).
    vm_compute. reflexivity.
  - apply (proj2 (Create_makes_empty_collection env_ok "d" ws3)).
    + apply no_faults_env_ok.
    + repeat constructor.
Defined.

Lemma Create_then_Drop_restores_witness :
  ∃ w2, Drop env_ok "d" (Create env_ok "d" ws3).2 = (Ok tt, w2) ∧
        disk w2 = disk ws3 ∧ schema w2 = schema ws3 ∧ handles w2 = handles ws3.
Proof.
  apply (Create_then_Drop_restores env_ok "d" ws3).
  - apply no_faults_env_ok.
  - vm_compute. reflexivity.
Defined.

Lemma Drop_then_Create_gives_empty_witness :
  Forall (λ db, is_Some (db !! "c")) (disk ws3) ∧
  disk (Drop env_ok "c" ws3).2 = delete "c" <$> disk ws3 ∧
  ∃ w2, Create env_ok "c" (Drop env_ok "c" ws3).2 = (Ok tt, w2) ∧
        disk w2 = (λ db, <["c" := mkCol [] []]> db) <$> disk ws3.
Proof.
  apply (Drop_then_Create_gives_empty env_ok "c" ws3).
  - apply no_faults_env_ok.
  - vm_compute. reflexivity.
Defined.

Lemma Rename_back_restores_witness :
  Forall (λ db, is_Some (db !! "c") ∧ db !! "d" = None) (disk ws3) ∧
  disk (Rename env_ok "c" "d" ws3).2 = renamed "c" "d" <$> disk ws3 ∧
  Forall (λ db, db !! "c" = None ∧ is_Some (db !! "d"))
    (disk (Rename env_ok "c" "d" ws3).2) ∧
  ∃ w2, Rename env_ok "d" "c" (Rename env_ok "c" "d" ws3).2 = (Ok tt, w2) ∧
        disk w2 = disk ws3.
Proof.
  apply (Rename_back_restores env_ok "c" "d" ws3).
  - apply no_faults_env_ok.
  - vm_compute. reflexivity.
Defined.

Lemma Truncate_empties_keeps_indexes_witness :
  Forall (λ db, is_Some (db !! "c")) (disk ws3) ∧
  disk (Truncate env_ok "c" ws3).2 = truncated "c" <$> disk ws3 ∧
  Forall2 (λ db db', (col_indexes <$> db' !! "c") = (col_indexes <$> db !! "c") ∧
                     (col_docs <$> db' !! "c") = Some [] ∧
                     ∀ name, name ≠ "c" → db' !! name = db !! name)
    (disk ws3) (disk (Truncate env_ok "c" ws3).2) ∧
  ∃ w2, Truncate env_ok "c" (Truncate env_ok "c" ws3).2 = (Ok tt, w2) ∧
        disk w2 = disk (Truncate env_ok "c" ws3).2.
Proof.
  apply (Truncate_empties_keeps_indexes env_ok "c" ws3).
  - apply no_faults_env_ok.
  - vm_compute. reflexivity.
Defined.

Lemma Index_never_rolls_back_witness :
  ∃ k, k ≤ nProcs ws_gap ∧
    (∀ i db, i < k → disk ws_gap !! i = Some db →
       indexable "c" ["z"] db ∧
       disk (Index env_ok "c" ["z"] ws_gap).2 !! i = Some (indexed "c" ["z"] db)) ∧
    (∀ i, k < i → disk (Index env_ok "c" ["z"] ws_gap).2 !! i = disk ws_gap !! i) ∧
    (k = nProcs ws_gap →
       EvReload ∈ new_calls ws_gap (Index env_ok "c" ["z"] ws_gap).2) ∧
    (k < nProcs ws_gap →
       (∃ e, (Index env_ok "c" ["z"] ws_gap).1 = Fail e) ∧
       schema (Index env_ok "c" ["z"] ws_gap).2 = schema ws_gap ∧
       Forall store_call (new_calls ws_gap (Index env_ok "c" ["z"] ws_gap).2) ∧
       ∃ db, disk ws_gap !! k = Some db ∧
         (disk (Index env_ok "c" ["z"] ws_gap).2 !! k = Some db ∨
          (last (log (Index env_ok "c" ["z"] ws_gap).2) = Some (EvClose k) ∧
           indexable "c" ["z"] db ∧
           disk (Index env_ok "c" ["z"] ws_gap).2 !! k = Some (indexed "c" ["z"] db)))).
Proof.
  apply (Index_never_rolls_back env_ok "c" ["z"] ws_gap). vm_compute. reflexivity.
Defined.

Example Index_ws_gap_partial :
  (Index env_ok "c" ["z"] ws_gap).1 = Fail "Collection does not exist" ∧
  (col_indexes <$> (disk (Index env_ok "c" ["z"] ws_gap).2 !! 0 ≫= (.!! "c"))) =
    Some [["a"]; ["z"]] ∧
  (col_indexes <$> (disk (Index env_ok "c" ["z"] ws_gap).2 !! 2 ≫= (.!! "c"))) =
    Some [["a"]] ∧
  handles (Index env_ok "c" ["z"] ws_gap).2 = [1].
Proof. repeat split; vm_compute; reflexivity. Qed.

Lemma Index_builds_on_every_shard_witness :
  let w' := (Index env_ok "c" ["b"] ws3).2 in
  let n := length (log ws3) + 3 * nProcs ws3 in
  Forall (indexable "c" ["b"]) (disk ws3) ∧
  disk w' = indexed "c" ["b"] <$> disk ws3 ∧
  handles w' = handles ws3 ∧
  take (3 * nProcs ws3) (new_calls ws3 w') =
    uniform_calls (λ i, EvBPIndex i "c" ["b"]) (nProcs ws3) ∧
  log w' !! n = Some EvReload ∧
  schema w' = srv_schema env_ok n (disk w') ∧
  GetHTIDByPath env_ok (schema w') "c" ["b"] ≠ (-1)%Z.
Proof.
  apply (Index_builds_on_every_shard env_ok "c" ["b"] ws3). vm_compute. reflexivity.
Defined.

Lemma Index_then_Unindex_restores_witness :
  ∃ w2, Unindex env_ok "c" ["b"] (Index env_ok "c" ["b"] ws3).2 = (Ok tt, w2) ∧
        disk w2 = disk ws3.
Proof.
  apply (Index_then_Unindex_restores env_ok "c" ["b"] ws3 (Index env_ok "c" ["b"] ws3).1).
  - apply no_faults_env_ok.
  - vm_compute. reflexivity.
  - left. vm_compute. reflexivity.
Defined.

Lemma operations_never_panic_witness :
  (Scrub env_ok "c" ws3).1 ≠ Panic ∧ (Index env_ok "c" ["b"] ws3).1 ≠ Panic.
Proof.
  destruct (operations_never_panic env_ok ws3) as (_ & _ & _ & _ & _ & HS & HI).
  split; [exact (HS "c")|].
  apply (HI "c" ["b"]).
  - vm_compute. lia.
  - vm_compute. reflexivity.
Defined.

(** With no shard Index panics as soon as the scan serves a value to index:
    the hash is taken modulo zero. *)
Example Index_no_shard_panics :
  (Index env_one_doc "c" ["a"] ws_none).1 = Panic.
Proof. vm_compute. reflexivity. Qed.

Lemma Scrub_keeps_cached_indexes_witness :
  ∃ colID, colNameLookup (schema ws3) !! "c" = Some colID ∧
    Forall2 (scrubbed "c" (tmp_name "c" (UnixNano env_ok (length (log ws3))))
               (default [] (indexPaths (schema ws3) !! colID)))
      (disk ws3) (disk (Scrub env_ok "c" ws3).2) ∧
    handles (Scrub env_ok "c" ws3).2 = handles ws3 ∧
    last (log (Scrub env_ok "c" ws3).2) = Some EvReload ∧
    schema (Scrub env_ok "c" ws3).2 =
      srv_schema env_ok (length (log (Scrub env_ok "c" ws3).2) - 1)
        (disk (Scrub env_ok "c" ws3).2).
Proof.
  apply (Scrub_keeps_cached_indexes env_ok "c" ws3). vm_compute. reflexivity.
Defined.

Lemma AllIndexes_joined_back_witness :
  AllIndexesJointPaths env_ok "users" ws_users =
    (Ok (String.concat (INDEX_PATH_SEP env_ok) <$>
           [["address"; "city"]; ["address"; "zip"]; ["name"]]),
     (AllIndexes env_ok "users" ws_users).2) ∧
  (INDEX_PATH_SEP env_ok ≠ "" →
   Forall (λ path, path ≠ []) [["address"; "city"]; ["address"; "zip"]; ["name"]]).
Proof.
  apply (AllIndexes_joined_back env_ok "users" ws_users). vm_compute. reflexivity.
Defined.

Lemma DumpDB_copies_every_shard_witness :
  let w' := (DumpDB env_ok fs_ok "/backup" (ws3, bk0)).2.1 in
  let b' := (DumpDB env_ok fs_ok "/backup" (ws3, bk0)).2.2 in
  w' = set_log (log ws3 ++ (seq 0 (nProcs ws3) ≫= λ i, [EvOpenDB i; EvClose i])) ws3 ∧
  bk_trace b' = bk_trace bk0 ++ (seq 0 (nProcs ws3) ≫= DumpDB_calls fs_ok "/backup") ∧
  (∀ i, i < nProcs ws3 → rank_dir fs_ok "/backup" i ∈ bk_dirs b') ∧
  ((∀ i j, i < j < nProcs ws3 →
      rank_dir fs_ok "/backup" i ≠ rank_dir fs_ok "/backup" j) →
   ∀ i db, disk ws3 !! i = Some db →
           bk_dumps b' !! rank_dir fs_ok "/backup" i = Some db).
Proof.
  apply (DumpDB_copies_every_shard env_ok fs_ok "/backup" ws3 bk0).
  vm_compute. reflexivity.
Defined.

Example DumpDB_ws3 :
  bk_trace (DumpDB env_ok fs_ok "/backup" (ws3, bk0)).2.2 =
    [inr (FsMkdirAll "/backup/0" 448); inl (EvOpenDB 0);
     inr (FsDump 0 "/backup/0"); inl (EvClose 0);
     inr (FsMkdirAll "/backup/1" 448); inl (EvOpenDB 1);
     inr (FsDump 1 "/backup/1"); inl (EvClose 1);
     inr (FsMkdirAll "/backup/2" 448); inl (EvOpenDB 2);
     inr (FsDump 2 "/backup/2"); inl (EvClose 2)] ∧
  bk_dumps (DumpDB env_ok fs_ok "/backup" (ws3, bk0)).2.2 !! "/backup/1" =
    Some (shard_c 11).
Proof. split; vm_compute; reflexivity. Qed.

Lemma DumpDB_reads_only_witness :
  let r := (DumpDB env_ok fs_dump1 "/backup" (ws3, bk0)).1 in
  let w' := (DumpDB env_ok fs_dump1 "/backup" (ws3, bk0)).2.1 in
  let b' := (DumpDB env_ok fs_dump1 "/backup" (ws3, bk0)).2.2 in
  disk w' = disk ws3 ∧ schema w' = schema ws3 ∧
  ∃ k n, k ≤ nProcs ws3 ∧
    bk_trace b' = bk_trace bk0 ++ (seq 0 k ≫= DumpDB_calls fs_dump1 "/backup") ++
                  take n (DumpDB_calls fs_dump1 "/backup" k) ∧
    (r = Ok tt → k = nProcs ws3 ∧ n = 0 ∧ handles w' = handles ws3) ∧
    (r ≠ Ok tt → k < nProcs ws3 ∧ 1 ≤ n ≤ 4 ∧ (∃ e, r = Fail e) ∧
       handles w' = handles ws3 ++ (if decide (3 ≤ n) then [k] else [])).
Proof.
  apply (DumpDB_reads_only env_ok fs_dump1 "/backup" ws3 bk0).
  vm_compute. reflexivity.
Defined.

Example DumpDB_ws3_dump_fails :
  (DumpDB env_ok fs_dump1 "/backup" (ws3, bk0)).1 =
    Fail "dump: no space left on device" ∧
  bk_trace (DumpDB env_ok fs_dump1 "/backup" (ws3, bk0)).2.2 =
    [inr (FsMkdirAll "/backup/0" 448); inl (EvOpenDB 0);
     inr (FsDump 0 "/backup/0"); inl (EvClose 0);
     inr (FsMkdirAll "/backup/1" 448); inl (EvOpenDB 1);
     inr (FsDump 1 "/backup/1")] ∧
  handles (DumpDB env_ok fs_dump1 "/backup" (ws3, bk0)).2.1 = [1].
Proof. repeat split; vm_compute; reflexivity. Qed.

Lemma Index_twice_fails_witness :
  ∃ e w2, Index env_ok "c" ["b"] (Index env_ok "c" ["b"] ws3).2 = (Fail e, w2) ∧
          disk w2 = disk (Index env_ok "c" ["b"] ws3).2 ∧
          schema w2 = schema (Index env_ok "c" ["b"] ws3).2 ∧
          handles w2 = handles (Index env_ok "c" ["b"] ws3).2 ++ [0] ∧
          new_calls (Index env_ok "c" ["b"] ws3).2 w2 =
            [EvOpenDB 0; EvBPIndex 0 "c" ["b"]].
Proof.
  apply (Index_twice_fails env_ok "c" ["b"] ws3).
  - apply no_faults_env_ok.
  - vm_compute. lia.
  - vm_compute. reflexivity.
Defined.

Lemma Unindex_never_rolls_back_witness :
  let r := (Unindex env_ok "c" ["z"] ws_gap0).1 in
  let w' := (Unindex env_ok "c" ["z"] ws_gap0).2 in
  ∃ k e db, k < nProcs ws_gap0 ∧ r = Fail e ∧ disk ws_gap0 !! k = Some db ∧
    (∀ i dbi, i < k → disk ws_gap0 !! i = Some dbi →
       disk w' !! i = Some (unindexed "c" ["z"] dbi)) ∧
    (∀ i, k < i → disk w' !! i = disk ws_gap0 !! i) ∧
    (disk w' !! k = Some db ∨
     (last (log w') = Some (EvClose k) ∧
      disk w' !! k = Some (unindexed "c" ["z"] db))) ∧
    Forall store_call (new_calls ws_gap0 w') ∧
    handles w' = handles ws_gap0 ++
      filter (λ i, ¬ has_col "c" (disk ws_gap0) i) (seq 0 k) ++
      match last (log w') with Some (EvOpenDB _) => [] | _ => [k] end.
Proof.
  apply (Unindex_never_rolls_back env_ok "c" ["z"] ws_gap0).
  - vm_compute. reflexivity.
  - vm_compute. discriminate.
Defined.

Example Unindex_ws_gap0_not_indexed :
  (Unindex env_ok "c" ["z"] ws_gap0).1 = Fail "Path [z] is not indexed" ∧
  log (Unindex env_ok "c" ["z"] ws_gap0).2 =
    [EvOpenDB 0; EvOpenDB 1; EvUnindex 1 "c" ["z"]] ∧
  handles (Unindex env_ok "c" ["z"] ws_gap0).2 = [0; 1].
Proof. repeat split; vm_compute; reflexivity. Qed.
